(** * Status monitor: reconciliation, ordering extraction, probing, snapshots

    A shallow embedding of [monitor.go] and of the history bound of
    [config.go].  Pointers to [Instance] values are addresses into an
    explicit store, so that the in-place updates of [updateInstances] and
    the sharing between the registry and the URL index are visible.
    Everything the program obtains from its environment (the HTTP answers,
    the clock, the results of [encoding/json] and the order in which Go
    ranges over a map) is an argument of the function that consumes it.
    Locks, the interleaving of goroutines, the client channels and the HTTP
    front end are outside the model. *)

From Stdlib Require Import ZArith String Ascii List Lia PrimFloat Uint63
  DecimalString.
From stdpp Require Import base option list gmap strings.

Local Open Scope string_scope.
Local Open Scope list_scope.
Local Open Scope Z_scope.

(** ** Go strings *)

Module strings.

(** [strings.Index(s, substr)]: byte offset of the first occurrence;
    Go's [-1] is [None]. *)
Definition Index (s substr : string) : option nat :=
  String.index 0 substr s.

(** The slice expression [s[lo:]]. *)
Definition from (s : string) (lo : nat) : string :=
  String.substring lo (String.length s - lo) s.

(** The slice expression [s[lo:hi]]. *)
Definition slice (s : string) (lo hi : nat) : string :=
  String.substring lo (hi - lo) s.

End strings.

Definition dquote : ascii := "034"%char.
Definition lbrace : ascii := "{"%char.
Definition rbrace : ascii := "}"%char.

(** The key between two double quote characters. *)
Definition quoted (key : string) : string :=
  String dquote (key +:+ String dquote EmptyString).

(** Payloads are written with apostrophes where the JSON text has double
    quotes. *)
Fixpoint jsonText (s : string) : string :=
  match s with
  | EmptyString => EmptyString
  | String c s' => String (if Ascii.eqb c "'"%char then dquote else c) (jsonText s')
  end.

(** ** extractOrderFromJSON *)

Section ExtractOrder.

(** [json.Unmarshal([]byte(sectionJSON), &groups)] followed by
    [for key := range groups]: [rangeGroups sectionJSON i] lists the keys
    of [groups] in the order in which the [i]-th execution of the range
    loop visits them.  Go leaves that order unspecified; a failed
    [Unmarshal] leaves [groups] nil, that is, without keys. *)
Variable rangeGroups : string -> nat -> list string.

(** Lines 181-190: the brace counter; [rest] is [jsonStr[braceEnd:]]. *)
Fixpoint scanBraces (rest : string) (braceCount : Z) (braceEnd : nat) : nat :=
  match rest with
  | EmptyString => braceEnd
  | String c rest' =>
      if 0 <? braceCount then
        scanBraces rest'
          (if Ascii.eqb c lbrace then braceCount + 1
           else if Ascii.eqb c rbrace then braceCount - 1
           else braceCount)
          (S braceEnd)
      else braceEnd
  end.

(** Lines 170-192: the raw text of the section, [None] where the code
    returns the empty order. *)
Definition sectionText (jsonStr section : string) : option string :=
  match strings.Index jsonStr (quoted section) with
  | None => None
  | Some sectionStart =>
      match strings.Index (strings.from jsonStr sectionStart) "{" with
      | None => None
      | Some braceStart =>
          let braceStart := (braceStart + sectionStart)%nat in
          let braceEnd :=
            scanBraces (strings.from jsonStr (S braceStart)) 1 (S braceStart) in
          Some (strings.slice jsonStr braceStart braceEnd)
      end
  end.

(** Lines 204-210: is [key] already in [order]? *)
Definition alreadyAdded (order : list string) (key : string) : bool :=
  existsb (String.eqb key) order.

(** Lines 203-224: one turn of the range loop over the keys. *)
Definition scanKey (sectionJSON : string) (order : list string) (pos : nat)
    (earliest : nat * string) (key : string) : nat * string :=
  if alreadyAdded order key then earliest
  else
    match strings.Index (strings.from sectionJSON pos) (quoted key) with
    | Some foundPos =>
        let foundPos := (foundPos + pos)%nat in
        if (foundPos <? earliest.1)%nat then (foundPos, key) else earliest
    | None => earliest
    end.

Definition scanKeys (sectionJSON : string) (order : list string) (pos : nat)
    (keys : list string) : nat * string :=
  fold_left (scanKey sectionJSON order pos) keys
    (String.length sectionJSON, "").

(** Lines 198-232.  [todo] is [len(groups) - len(order)]: every turn that
    does not break appends one key, so the loop condition
    [len(order) < len(groups)] is [todo > 0]. *)
Fixpoint orderLoop (sectionJSON : string) (todo : nat)
    (order : list string) (pos : nat) : list string :=
  match todo with
  | O => order
  | S todo' =>
      let '(earliestPos, earliestKey) :=
        scanKeys sectionJSON order pos
          (rangeGroups sectionJSON (length order)) in
      if String.eqb earliestKey "" then order
      else orderLoop sectionJSON todo' (order ++ [earliestKey])
             (earliestPos + String.length earliestKey + 2)
  end.

Definition extractOrderFromJSON (jsonStr section : string) : list string :=
  match sectionText jsonStr section with
  | None => []
  | Some sectionJSON =>
      orderLoop sectionJSON (length (rangeGroups sectionJSON 0)) [] 0
  end.

End ExtractOrder.

(** ** The data model *)

(** Times are instants and durations of the clock, as integers. *)
Record Check := {
  Timestamp : Z;
  StatusCode : Z;
  ResponseTime : Z;
  Success : bool;
  Error : string
}.

Record Instance := {
  Group : string;
  URL : string;
  InstanceType : string;
  Cors : bool;
  GroupOrder : Z;
  Index : Z;
  Checks : list Check
}.

Record Config := {
  Port : string;
  CheckInterval : Z;
  InstancesURL : string;
  RequestTimeout : Z;
  MaxCheckHistory : Z;
  SSEKeepaliveSeconds : Z;
  LogLevel : string
}.

Record ApiGroupDetail := {
  URLs : list string;
  GroupCors : bool
}.

Record InstancesJSON := {
  API : gmap string ApiGroupDetail;
  UI : gmap string (list string)
}.

(** The element type of the slice [GetInstancesData] returns. *)
Module InstanceData.
Record t := {
  Group : string;
  URL : string;
  InstanceType : string;
  Cors : bool;
  GroupOrder : Z;
  Index : Z;
  Checks : list Check;
  Uptime : float;
  AvgResponseTime : Z;
  LastCheck : option Check
}.
End InstanceData.

(** The map [GetStatsData] returns. *)
Record Stats := {
  total_instances : Z;
  up_instances : Z;
  avg_uptime : float
}.

(** The answer of [http.Get] followed by [io.ReadAll]: a transport error,
    or a status code with the body ([None] when reading it fails). *)
Inductive GetResult :=
  | GetError (err : string)
  | GetResponse (status : Z) (body : option string).

Inductive error :=
  | FetchError (err : string)
  | UnexpectedStatus (status : Z)
  | ReadError
  | ParseError.

(** What the monitor sends out: the two lines of the log that report a
    change of the instance list or a failed refresh, and the payload
    [broadcastUpdate] offers to every client channel. *)
Inductive Event :=
  | LogUpdated (addedCount removedCount : Z)
  | LogRefreshError (err : error)
  | Broadcast (instances : list InstanceData.t) (stats : Stats).

(** A [*Instance] is an address into [store]; [instances] is the slice of
    pointers of the Go struct.  Nothing is ever freed. *)
Record Monitor := {
  store : list Instance;
  instances : list nat;
  config : Config;
  events : list Event
}.

Definition NewMonitor (config : Config) : Monitor :=
  {| store := []; instances := []; config := config; events := [] |}.

Definition len {A} (l : list A) : Z := Z.of_nat (length l).

(** ** Snapshots *)

(** The value of an [int64] computation whose mathematical result is
    [z]. *)
Definition int64_wrap (z : Z) : Z :=
  (z + 2 ^ 63) mod 2 ^ 64 - 2 ^ 63.

(** [float64(n)] for an [int] that is not negative. *)
Definition float64 (n : Z) : float :=
  PrimFloat.of_uint63 (Uint63.of_Z n).

(** Lines 454-467. *)
Definition calculateUptime (checks : list Check) : float :=
  if len checks =? 0 then 0%float
  else
    let successful :=
      fold_left (fun successful check =>
                   if Success check then successful + 1 else successful)
        checks 0 in
    (float64 successful / float64 (len checks) * 100)%float.

(** Lines 469-480; [total] is an [int64]. *)
Definition calculateAvgResponseTime (checks : list Check) : Z :=
  if len checks =? 0 then 0
  else
    let total :=
      fold_left (fun total check => int64_wrap (total + ResponseTime check))
        checks 0 in
    Z.quot total (len checks).

(** Lines 380-401: the view of one instance. *)
Definition instanceData (instance : Instance) : InstanceData.t :=
  {| InstanceData.Group := Group instance;
     InstanceData.URL := URL instance;
     InstanceData.InstanceType := InstanceType instance;
     InstanceData.Cors := Cors instance;
     InstanceData.GroupOrder := GroupOrder instance;
     InstanceData.Index := Index instance;
     InstanceData.Checks := Checks instance;
     InstanceData.Uptime := calculateUptime (Checks instance);
     InstanceData.AvgResponseTime := calculateAvgResponseTime (Checks instance);
     InstanceData.LastCheck := last (Checks instance) |}.

(** Lines 358-407. *)
Definition GetInstancesData (m : Monitor) : list InstanceData.t :=
  omap (fun instance => instanceData <$> store m !! instance) (instances m).

Definition lastSucceeded (checks : list Check) : bool :=
  match last checks with
  | Some check => Success check
  | None => false
  end.

(** Lines 409-436. *)
Definition GetStatsData (m : Monitor) : Stats :=
  let live := omap (fun instance => store m !! instance) (instances m) in
  let totalInstances := len (instances m) in
  let upInstances :=
    fold_left (fun up instance =>
                 if lastSucceeded (Checks instance) then up + 1 else up)
      live 0 in
  let totalUptime :=
    fold_left (fun total instance =>
                 (total + calculateUptime (Checks instance))%float)
      live 0%float in
  {| total_instances := totalInstances;
     up_instances := upInstances;
     avg_uptime :=
       if 0 <? totalInstances
       then (totalUptime / float64 totalInstances)%float
       else 0%float |}.

(** Lines 324-356: the snapshot and the statistics that are marshalled
    and offered to every client channel. *)
Definition broadcastUpdate (m : Monitor) : Monitor :=
  {| store := store m; instances := instances m; config := config m;
     events := events m ++ [Broadcast (GetInstancesData m) (GetStatsData m)] |}.

(** ** updateInstances *)

(** The local variables of the two walks: the store, the map
    [existingInstances] and the slice [updatedInstances]. *)
Record Walk := {
  w_store : list Instance;
  existingInstances : gmap string nat;
  updatedInstances : list nat
}.

(** Lines 101-103 and 127-129: the three assignments to [existing]. *)
Definition regroup (group : string) (groupIndex : Z) (cors : bool)
    (existing : Instance) : Instance :=
  {| Group := group; URL := URL existing;
     InstanceType := InstanceType existing; Cors := cors;
     GroupOrder := groupIndex; Index := Index existing;
     Checks := Checks existing |}.

(** Lines 107-114 and 133-140: [make([]Check, 0, MaxCheckHistory)] is the
    empty history; its capacity, at least 1 in every configuration
    [LoadConfig] builds, is not observable. *)
Definition newInstance (instanceType group : string) (groupIndex : Z)
    (cors : bool) (instanceURL : string) : Instance :=
  {| Group := group; URL := instanceURL; InstanceType := instanceType;
     Cors := cors; GroupOrder := groupIndex; Index := 0; Checks := [] |}.

(** The body of the loop over the URLs of one group (lines 100-116 for the
    API section, 126-142 for the UI section). *)
Definition visitURL (instanceType group : string) (groupIndex : Z)
    (cors : bool) (w : Walk) (instanceURL : string) : Walk :=
  match existingInstances w !! instanceURL with
  | Some existing =>
      {| w_store := alter (regroup group groupIndex cors) existing (w_store w);
         existingInstances := delete instanceURL (existingInstances w);
         updatedInstances := updatedInstances w ++ [existing] |}
  | None =>
      {| w_store :=
           w_store w ++ [newInstance instanceType group groupIndex cors instanceURL];
         existingInstances := existingInstances w;
         updatedInstances := updatedInstances w ++ [length (w_store w)] |}
  end.

(** Lines 97-120. *)
Definition walkAPI (data : InstancesJSON) (st : Walk * Z) (group : string)
    : Walk * Z :=
  let '(w, groupIndex) := st in
  match API data !! group with
  | Some groupDetails =>
      (fold_left (visitURL "api" group groupIndex (GroupCors groupDetails))
         (URLs groupDetails) w,
       groupIndex + 1)
  | None => st
  end.

(** Lines 123-146. *)
Definition walkUI (data : InstancesJSON) (st : Walk * Z) (group : string)
    : Walk * Z :=
  let '(w, groupIndex) := st in
  match UI data !! group with
  | Some urls =>
      (fold_left (visitURL "ui" group groupIndex false) urls w, groupIndex + 1)
  | None => st
  end.

(** Lines 87-90: later entries of the registry overwrite earlier ones with
    the same URL. *)
Definition indexByURL (store : list Instance) (instances : list nat)
    : gmap string nat :=
  fold_left
    (fun existing inst =>
       match store !! inst with
       | Some instance => <[URL instance := inst]> existing
       | None => existing
       end)
    instances ∅.

Definition setIndex (i : Z) (inst : Instance) : Instance :=
  {| Group := Group inst; URL := URL inst; InstanceType := InstanceType inst;
     Cors := Cors inst; GroupOrder := GroupOrder inst; Index := i;
     Checks := Checks inst |}.

(** Lines 156-158: [inst.Index = i + 1]. *)
Fixpoint assignIndex (i : nat) (updated : list nat) (store : list Instance)
    : list Instance :=
  match updated with
  | [] => store
  | inst :: rest =>
      assignIndex (S i) rest (alter (setIndex (Z.of_nat i + 1)) inst store)
  end.

(** Lines 83-166, once the payload is parsed. *)
Definition reconcile (m : Monitor) (data : InstancesJSON)
    (apiOrder uiOrder : list string) : Monitor :=
  let w0 := {| w_store := store m;
               existingInstances := indexByURL (store m) (instances m);
               updatedInstances := [] |} in
  let st := fold_left (walkAPI data) apiOrder (w0, 0) in
  let '(w, _) := fold_left (walkUI data) uiOrder st in
  let addedCount :=
    len (updatedInstances w)
    - (len (instances m) - Z.of_nat (size (existingInstances w))) in
  let removedCount := Z.of_nat (size (existingInstances w)) in
  let changed := (0 <? addedCount) || (0 <? removedCount) in
  let logged :=
    if changed then events m ++ [LogUpdated addedCount removedCount]
    else events m in
  let m' := {| store := assignIndex 0 (updatedInstances w) (w_store w);
               instances := updatedInstances w;
               config := config m;
               events := logged |} in
  if changed then broadcastUpdate m' else m'.

Section UpdateInstances.

(** [json.Unmarshal(body, &data)]: [None] when it returns an error. *)
Variable Unmarshal : string -> option InstancesJSON.
Variable rangeGroups : string -> nat -> list string.

Definition updateInstances (m : Monitor) (resp : GetResult)
    : Monitor * option error :=
  match resp with
  | GetError err => (m, Some (FetchError err))
  | GetResponse status body =>
      if negb (status =? 200) then (m, Some (UnexpectedStatus status))
      else
        match body with
        | None => (m, Some ReadError)
        | Some body =>
            match Unmarshal body with
            | None => (m, Some ParseError)
            | Some data =>
                let apiOrder := extractOrderFromJSON rangeGroups body "api" in
                let uiOrder := extractOrderFromJSON rangeGroups body "ui" in
                (reconcile m data apiOrder uiOrder, None)
            end
        end
  end.


End UpdateInstances.

(** ** checkInstance and checkAll *)

(** The answer of [client.Get]: [err.Error()] of a transport failure
    (timeouts included), or the status code of the response. *)
Inductive ProbeResult :=
  | ProbeError (err : string)
  | ProbeResponse (status : Z).

(** One probe as the environment plays it: the clock at its start, the
    milliseconds [time.Since(start)] reports afterwards, and the answer. *)
Record Probe := {
  startTime : Z;
  elapsedMillis : Z;
  result : ProbeResult
}.

(** Lines 283-288. *)
Definition checkURL (instance : Instance) : string :=
  if String.eqb (InstanceType instance) "api"
  then URL instance +:+ "/search/?s=kanye"
  else URL instance.

(** Lines 294-308. *)
Definition probeCheck (probe : Probe) : Check :=
  match result probe with
  | ProbeError err =>
      {| Timestamp := startTime probe; StatusCode := 0;
         ResponseTime := elapsedMillis probe; Success := false; Error := err |}
  | ProbeResponse status =>
      {| Timestamp := startTime probe; StatusCode := status;
         ResponseTime := elapsedMillis probe;
         Success := (200 <=? status) && (status <? 300); Error := "" |}
  end.

(** The slice expression [checks[lo:]]; [None] is the run-time panic for
    an index out of range. *)
Definition sliceFrom (checks : list Check) (lo : Z) : option (list Check) :=
  if (0 <=? lo) && (lo <=? len checks) then Some (drop (Z.to_nat lo) checks)
  else None.

(** Lines 311-314. *)
Definition appendCheck (maxCheckHistory : Z) (checks : list Check)
    (check : Check) : option (list Check) :=
  let checks := checks ++ [check] in
  if maxCheckHistory <? len checks
  then sliceFrom checks (len checks - maxCheckHistory)
  else Some checks.

Definition setChecks (checks : list Check) (inst : Instance) : Instance :=
  {| Group := Group inst; URL := URL inst; InstanceType := InstanceType inst;
     Cors := Cors inst; GroupOrder := GroupOrder inst; Index := Index inst;
     Checks := checks |}.

(** Lines 280-322; [net] answers the request for a target URL.  [None]
    stands for a panic (the registry of a running monitor holds no address
    outside the store). *)
Definition checkInstance (m : Monitor) (instance : nat) (net : string -> Probe)
    : option Monitor :=
  inst ← store m !! instance;
  let check := probeCheck (net (checkURL inst)) in
  checks ← appendCheck (MaxCheckHistory (config m)) (Checks inst) check;
  Some {| store := <[instance := setChecks checks inst]> (store m);
          instances := instances m; config := config m; events := events m |}.

(** The probes of one cycle touch pairwise different instances, each
    under its own lock, so running them one after the other yields the
    store the goroutines yield.  [net i] is the network as the probe of
    the [i]-th instance sees it. *)
Fixpoint checkEach (m : Monitor) (i : nat) (snapshot : list nat)
    (net : nat -> string -> Probe) : option Monitor :=
  match snapshot with
  | [] => Some m
  | instance :: rest =>
      m' ← checkInstance m instance (net i);
      checkEach m' (S i) rest net
  end.

(** Lines 258-278. *)
Definition checkAll (m : Monitor) (net : nat -> string -> Probe)
    : option Monitor :=
  m' ← checkEach m 0 (instances m) net;
  Some (broadcastUpdate m').

(** ** Start *)

(** What wakes the loop of [Start]: the check ticker, with the network as
    the probes of that cycle find it, or the refresh ticker, with the
    answer of the configuration source. *)
Inductive Tick :=
  | CheckTick (net : nat -> string -> Probe)
  | RefreshTick (resp : GetResult).

Section Start.

Variable Unmarshal : string -> option InstancesJSON.
Variable rangeGroups : string -> nat -> list string.

(** Lines 246-254: one turn of the select loop. *)
Definition onTick (m : Monitor) (tick : Tick) : option Monitor :=
  match tick with
  | CheckTick net => checkAll m net
  | RefreshTick resp =>
      let '(m', err) := updateInstances Unmarshal rangeGroups m resp in
      Some match err with
           | Some err =>
               {| store := store m'; instances := instances m';
                  config := config m';
                  events := events m' ++ [LogRefreshError err] |}
           | None => m'
           end
  end.

Fixpoint onTicks (m : Monitor) (arrivals : list Tick) : option Monitor :=
  match arrivals with
  | [] => Some m
  | tick :: rest => m' ← onTick m tick; onTicks m' rest
  end.


(** The field [InstanceRefreshInterval] of the configuration, which line
    242 reads and the [Config] of config.go does not declare. *)
Variable InstanceRefreshInterval : Config -> Z.


End Start.

(** ** config.go: the history bound *)

Section GetMaxHistory.

(** [strconv.Atoi]: [None] when it returns an error. *)
Variable Atoi : string -> option Z.

(** [historyStr] is [os.Getenv("MAX_CHECK_HISTORY")]. *)
Definition getMaxHistory (historyStr : string) : Z :=
  if String.eqb historyStr "" then 168
  else
    match Atoi historyStr with
    | None => 168
    | Some history => if history <? 1 then 168 else history
    end.

End GetMaxHistory.

(** ** Concrete payloads

    [encoding/json] and [strconv] are not part of the program; for the
    payloads below the values they return are tabulated by hand. *)

Module Examples.

Definition defaultConfig : Config :=
  {| Port := ":8080"; CheckInterval := 3600; InstancesURL := "";
     RequestTimeout := 30; MaxCheckHistory := 168;
     SSEKeepaliveSeconds := 30; LogLevel := "info" |}.

Definition lookupBody {A} (table : list (string * A)) (body : string)
    : option A :=
  snd <$> find (fun row => String.eqb row.1 body) table.

(** An API group that is called "ui". *)
Definition shadowed : string :=
  jsonText "{'api':{'ui':{'urls':['http://a'],'cors':false}},'ui':{'web':['http://b']}}".

(** The same URL twice in one group. *)
Definition twice : string :=
  jsonText "{'api':{'g':{'urls':['http://u','http://u'],'cors':false}},'ui':{}}".

Definition grown : string :=
  jsonText "{'api':{'g':{'urls':['http://u','http://v'],'cors':false}},'ui':{}}".

Definition swapped : string :=
  jsonText "{'api':{'g':{'urls':['http://v','http://u'],'cors':true}},'ui':{}}".

(** One URL listed in both sections. *)
Definition shared : string :=
  jsonText "{'api':{'g':{'urls':['http://x'],'cors':true}},'ui':{'h':['http://x']}}".

(** Two API groups declared against the alphabet. *)
Definition declared : string :=
  jsonText "{'api':{'beta':{'urls':['http://b'],'cors':true},'alpha':{'urls':['http://a'],'cors':false}},'ui':{}}".

(** A UI group whose name starts inside the quoted form of the key
    before it. *)
Definition overlapping : string :=
  jsonText "{'ui':{'a':['u'],'c':['v'],':[':['w']}}".

Definition group (urls : list string) (cors : bool) : ApiGroupDetail :=
  {| URLs := urls; GroupCors := cors |}.

Definition Unmarshal : string -> option InstancesJSON :=
  lookupBody
    [ (shadowed,
       {| API := {[ "ui" := group ["http://a"] false ]};
          UI := {[ "web" := ["http://b"] ]} |});
      (twice,
       {| API := {[ "g" := group ["http://u"; "http://u"] false ]};
          UI := ∅ |});
      (grown,
       {| API := {[ "g" := group ["http://u"; "http://v"] false ]};
          UI := ∅ |});
      (swapped,
       {| API := {[ "g" := group ["http://v"; "http://u"] true ]};
          UI := ∅ |});
      (shared,
       {| API := {[ "g" := group ["http://x"] true ]};
          UI := {[ "h" := ["http://x"] ]} |});
      (declared,
       {| API := {[ "beta" := group ["http://b"] true;
                    "alpha" := group ["http://a"] false ]};
          UI := ∅ |});
      (overlapping,
       {| API := ∅;
          UI := {[ "a" := ["u"]; "c" := ["v"]; ":[" := ["w"] ]} |}) ].

(** The keys of the objects the extractor cuts out of the payloads
    above, in alphabetical order whatever the turn of the loop. *)
Definition rangeGroups (sectionJSON : string) (i : nat) : list string :=
  default []
    (lookupBody
       [ (jsonText "{'ui':{'urls':['http://a'],'cors':false}}", ["ui"]);
         (jsonText "{'urls':['http://a'],'cors':false}", ["cors"; "urls"]);
         (jsonText "{'g':{'urls':['http://u','http://u'],'cors':false}}", ["g"]);
         (jsonText "{'g':{'urls':['http://u','http://v'],'cors':false}}", ["g"]);
         (jsonText "{'g':{'urls':['http://v','http://u'],'cors':true}}", ["g"]);
         (jsonText "{'a':['u'],'c':['v'],':[':['w']}", [":["; "a"; "c"]);
         (jsonText "{'beta':{'urls':['http://b'],'cors':true},'alpha':{'urls':['http://a'],'cors':false}}",
          ["alpha"; "beta"]);
         (jsonText "{'g':{'urls':['http://x'],'cors':true}}", ["g"]);
         (jsonText "{'h':['http://x']}", ["h"]);
         (jsonText "{}", []) ]
       sectionJSON).

Definition Atoi (s : string) : option Z :=
  lookupBody [ ("24", 24); ("0", 0); ("-3", -3) ] s.

Definition fetched (body : string) : GetResult :=
  GetResponse 200 (Some body).

Definition update (m : Monitor) (body : string) : Monitor :=
  (updateInstances Unmarshal rangeGroups m (fetched body)).1.

End Examples.


(** * Vocabulary of the statements *)

(** ** Histories *)

(** The last [n] entries of a history. *)
Definition lastN {A} (n : nat) (l : list A) : list A :=
  drop (length l - n) l.

(** Probing the same instance once per element of [nets]. *)
Fixpoint checkRepeatedly (m : Monitor) (instance : nat)
    (nets : list (string -> Probe)) : option Monitor :=
  match nets with
  | [] => Some m
  | net :: rest =>
      m' ← checkInstance m instance net;
      checkRepeatedly m' instance rest
  end.

(** ** Failures of the fetch and of the parse *)

(** A network error, a response outside 2xx, or a body that cannot be
    read. *)
Definition fetchFails (resp : GetResult) : Prop :=
  match resp with
  | GetError _ => True
  | GetResponse status body => ¬ (200 <= status < 300) ∨ body = None
  end.

Definition parseFails (Unmarshal : string -> option InstancesJSON)
    (resp : GetResult) : Prop :=
  ∃ status body, resp = GetResponse status (Some body) ∧ Unmarshal body = None.

(** ** Metrics *)

Definition successCount (checks : list Check) : Z :=
  len (filter (fun check => Success check = true) checks).

Definition sumResponseTime (checks : list Check) : Z :=
  foldr (fun check total => ResponseTime check + total) 0 checks.

Definition int64 (z : Z) : Prop := - 2 ^ 63 <= z < 2 ^ 63.

(** ** Witness data *)

Module Witness.

Definition check (status elapsed : Z) : Check :=
  {| Timestamp := 0; StatusCode := status; ResponseTime := elapsed;
     Success := (200 <=? status) && (status <? 300); Error := "" |}.

Definition smallConfig : Config :=
  {| Port := ":8080"; CheckInterval := 3600; InstancesURL := "";
     RequestTimeout := 30; MaxCheckHistory := 2;
     SSEKeepaliveSeconds := 30; LogLevel := "info" |}.

Definition api (url : string) (index : Z) (checks : list Check) : Instance :=
  {| Group := "g"; URL := url; InstanceType := "api"; Cors := false;
     GroupOrder := 0; Index := index; Checks := checks |}.

(** One API instance whose history is full. *)
Definition full : Monitor :=
  {| store := [api "http://u" 1 [check 200 10; check 500 20]];
     instances := [0%nat]; config := smallConfig; events := [] |}.

Definition answers (status : Z) (target : string) : Probe :=
  {| startTime := 7; elapsedMillis := 30; result := ProbeResponse status |}.

Definition allUp (i : nat) (target : string) : Probe :=
  {| startTime := 7; elapsedMillis := 30; result := ProbeResponse 200 |}.

Definition refused (target : string) : Probe :=
  {| startTime := 7; elapsedMillis := 30;
     result := ProbeError "Get: connection refused" |}.

(** Two instances, registered as [http://u] then [http://v]. *)
Definition pair : Monitor :=
  {| store := [api "http://u" 1 [check 200 10]; api "http://v" 2 [check 503 20]];
     instances := [0%nat; 1%nat]; config := smallConfig; events := [] |}.

Definition fourChecks : Monitor :=
  {| store := [api "http://u" 1
                 [check 200 100; check 204 200; check 500 300; check 200 200]];
     instances := [0%nat]; config := Examples.defaultConfig; events := [] |}.

Definition fourChecksData : InstanceData.t :=
  instanceData
    (api "http://u" 1
       [check 200 100; check 204 200; check 500 300; check 200 200]).

End Witness.

(** ** The walk of a reconciliation *)

(** A group the walk enters: a name of the recovered order that the
    parsed section knows. *)
Record WalkedGroup := {
  g_section : string;
  g_name : string;
  g_cors : bool;
  g_urls : list string
}.

Definition apiGroups (data : InstancesJSON) (apiOrder : list string)
    : list WalkedGroup :=
  omap (fun group =>
          (fun details =>
             {| g_section := "api"; g_name := group;
                g_cors := GroupCors details; g_urls := URLs details |})
          <$> API data !! group)
    apiOrder.

Definition uiGroups (data : InstancesJSON) (uiOrder : list string)
    : list WalkedGroup :=
  omap (fun group =>
          (fun urls =>
             {| g_section := "ui"; g_name := group;
                g_cors := false; g_urls := urls |})
          <$> UI data !! group)
    uiOrder.

Definition walkedGroups (data : InstancesJSON) (apiOrder uiOrder : list string)
    : list WalkedGroup :=
  apiGroups data apiOrder ++ uiGroups data uiOrder.

(** One execution of the body of the URL loop. *)
Record Visit := {
  v_section : string;
  v_group : string;
  v_order : Z;
  v_cors : bool;
  v_url : string
}.

Definition groupVisits (rank : nat) (g : WalkedGroup) : list Visit :=
  map (fun url =>
         {| v_section := g_section g; v_group := g_name g;
            v_order := Z.of_nat rank; v_cors := g_cors g; v_url := url |})
    (g_urls g).

(** The visits of a walk, in order: the groups are ranked as they are
    entered, API section first. *)
Definition plan (data : InstancesJSON) (apiOrder uiOrder : list string)
    : list Visit :=
  concat (imap groupVisits (walkedGroups data apiOrder uiOrder)).

(** The visits of the groups [gs], ranked from [k]. *)
Definition ranked (k : nat) (gs : list WalkedGroup) : list Visit :=
  concat (imap (fun i => groupVisits (k + i)) gs).

(** What identifies a group: its section and its name. *)
Definition groupKey (g : WalkedGroup) : string * string :=
  (g_section g, g_name g).

(** The visits of the reconciliation of a fetched [body] that parses to
    [data]. *)
Definition walkOf (rangeGroups : string -> nat -> list string)
    (data : InstancesJSON) (body : string) : list Visit :=
  plan data (extractOrderFromJSON rangeGroups body "api")
    (extractOrderFromJSON rangeGroups body "ui").

Definition visit (w : Walk) (v : Visit) : Walk :=
  visitURL (v_section v) (v_group v) (v_order v) (v_cors v) w (v_url v).

(** The instance the [j]-th visit takes over from the old registry: the
    one the URL index holds for its URL, unless an earlier visit had the
    same URL. *)
Definition reused (existing : gmap string nat) (vs : list Visit) (j : nat)
    : option nat :=
  match vs !! j with
  | Some v =>
      if bool_decide (v_url v ∈ v_url <$> take j vs) then None
      else existing !! v_url v
  | None => None
  end.

(** What a walk over [vs] started on store [s0] and URL index [existing0]
    leaves behind. *)
Definition WalkPost (s0 : list Instance) (existing0 : gmap string nat)
    (vs : list Visit) (w : Walk) : Prop :=
  length (updatedInstances w) = length vs
  ∧ NoDup (updatedInstances w)
  ∧ (length s0 <= length (w_store w))%nat
  ∧ (∀ p, p ∈ updatedInstances w → (p < length (w_store w))%nat)
  ∧ (∀ u, existingInstances w !! u =
            if bool_decide (u ∈ v_url <$> vs) then None else existing0 !! u)
  ∧ (∀ p, (p < length s0)%nat → p ∉ updatedInstances w →
          w_store w !! p = s0 !! p)
  ∧ (∀ j v, vs !! j = Some v →
        ∃ p, updatedInstances w !! j = Some p
          ∧ match reused existing0 vs j with
            | Some q =>
                p = q
                ∧ w_store w !! p =
                    regroup (v_group v) (v_order v) (v_cors v) <$> s0 !! p
            | None =>
                (length s0 <= p)%nat
                ∧ w_store w !! p =
                    Some (newInstance (v_section v) (v_group v) (v_order v)
                            (v_cors v) (v_url v))
            end).

(** Every entry of a URL index points at an instance with that URL. *)
Definition indexSound (s0 : list Instance) (existing0 : gmap string nat) : Prop :=
  ∀ u p, existing0 !! u = Some p → ∃ inst, s0 !! p = Some inst ∧ URL inst = u.

Definition startOfWalk (m : Monitor) : Walk :=
  {| w_store := store m;
     existingInstances := indexByURL (store m) (instances m);
     updatedInstances := [] |}.

(** ** The scan of the ordering extractor *)

(** [pat] is in [s] at offset [p]. *)
Definition occursAt (s : string) (p : nat) (pat : string) : Prop :=
  String.substring p (String.length pat) s = pat.

(** [p] is the offset of the first occurrence of [pat] in [s] at or after
    [pos]. *)
Definition firstAt (s : string) (pos : nat) (pat : string) (p : nat) : Prop :=
  (pos <= p)%nat ∧ occursAt s p pat
  ∧ ∀ q, (pos <= q < p)%nat → ¬ occursAt s q pat.

(** [key], found at [p], is a key of [keys] outside [order] whose quoted
    form occurs earliest at or after the cursor [pos]. *)
Definition Earliest (s : string) (order : list string) (pos : nat)
    (keys : list string) (key : string) (p : nat) : Prop :=
  key ∈ keys ∧ (key ∉ order)
  ∧ firstAt s pos (quoted key) p
  ∧ ∀ key' q, key' ∈ keys → key' ∉ order →
      firstAt s pos (quoted key') q → (p <= q)%nat.

(** What the range loop has established after the keys [seen]. *)
Definition ScanInv (s : string) (order : list string) (pos : nat)
    (seen : list string) (earliest : nat * string) : Prop :=
  (earliest = (String.length s, "")
   ∧ ∀ key, key ∈ seen → key ∉ order → ∀ q, ¬ firstAt s pos (quoted key) q)
  ∨ Earliest s order pos seen earliest.2 earliest.1.

(** The orders the scan can build, with the cursor each leaves: start
    with the empty order at offset 0; append a key that is earliest from
    the cursor and move the cursor behind its quoted form. *)
Inductive Scanned (s : string) (range : nat -> list string)
    : list string -> nat -> Prop :=
  | Scanned_start : Scanned s range [] 0
  | Scanned_next order pos key p :
      Scanned s range order pos →
      Earliest s order pos (range (length order)) key p →
      key ≠ "" →
      Scanned s range (order ++ [key]) (p + String.length key + 2).

(** The scan breaks: no remaining key is found from the cursor, or the
    empty key is (one of) the earliest. *)
Definition Stuck (s : string) (range : nat -> list string)
    (order : list string) (pos : nat) : Prop :=
  (∀ key, key ∈ range (length order) → key ∉ order →
     ∀ q, ¬ firstAt s pos (quoted key) q)
  ∨ ∃ p, Earliest s order pos (range (length order)) "" p.


(** ** Registries *)

(** The URLs of the registry, in order. *)
Definition registryURLs (m : Monitor) : list string :=
  omap (fun instance => URL <$> store m !! instance) (instances m).

(** The reading of "only the group, the group order and the CORS flag are
    rewritten": every other field of the instance is as before. *)
Definition onlyRegrouped (old new : Instance) : Prop :=
  URL new = URL old ∧ InstanceType new = InstanceType old
  ∧ Index new = Index old ∧ Checks new = Checks old.

(** Every pointer of the registry points into the store. *)
Definition registryValid (m : Monitor) : Prop :=
  ∀ p, p ∈ instances m → (p < length (store m))%nat.

(** Of the entries [updated] of a new registry, how many were taken over
    from a store of [n] instances and how many were created. *)
Definition keptCount (n : nat) (updated : list nat) : nat :=
  length (filter (fun p => (p < n)%nat) updated).

Definition createdCount (n : nat) (updated : list nat) : nat :=
  length (filter (fun p => (n <= p)%nat) updated).



(** * The rest of the program *)

(** ** config.go: loading the configuration *)

(** [time.Second] and [time.Minute]: a [time.Duration] is an [int64] count
    of nanoseconds. *)
Module time.

Definition Second : Z := 1000000000.

Definition Minute : Z := 60 * Second.

End time.

(** [strings.HasPrefix] and [strings.TrimPrefix]. *)
Definition HasPrefix (s prefix : string) : bool := String.prefix prefix s.

Definition TrimPrefix (s prefix : string) : string :=
  if HasPrefix s prefix then strings.from s (String.length prefix) else s.

Section LoadConfig.

(** [os.Getenv]: the value of an environment variable, empty when the
    variable is not set.  The warnings the functions below write to the log
    are left out. *)
Variable Getenv : string -> string.
Variable Atoi : string -> option Z.

(** Lines 39-44. *)
Definition getEnv (key defaultValue : string) : string :=
  let value := Getenv key in
  if negb (String.eqb value "") then value else defaultValue.

(** Lines 46-64; line 63 multiplies two [int64]. *)
Definition getCheckInterval : Z :=
  let intervalStr := Getenv "CHECK_INTERVAL_MINUTES" in
  if String.eqb intervalStr "" then 60 * time.Minute
  else
    match Atoi intervalStr with
    | None => 60 * time.Minute
    | Some minutes =>
        if minutes <? 1 then 60 * time.Minute
        else int64_wrap (minutes * time.Minute)
    end.

(** Lines 66-79. *)
Definition getTimeout : Z :=
  let timeoutStr := Getenv "REQUEST_TIMEOUT_SECONDS" in
  if String.eqb timeoutStr "" then 30 * time.Second
  else
    match Atoi timeoutStr with
    | None => 30 * time.Second
    | Some seconds =>
        if seconds <? 1 then 30 * time.Second
        else int64_wrap (seconds * time.Second)
    end.

(** Lines 96-109. *)
Definition getSSEKeepalive : Z :=
  let keepaliveStr := Getenv "SSE_KEEPALIVE_SECONDS" in
  if String.eqb keepaliveStr "" then 30
  else
    match Atoi keepaliveStr with
    | None => 30
    | Some seconds => if seconds <? 1 then 30 else seconds
    end.

(** Lines 21-37. *)
Definition LoadConfig : Config :=
  let config :=
    {| Port := getEnv "PORT" "8080";
       CheckInterval := getCheckInterval;
       InstancesURL :=
         getEnv "INSTANCES_URL"
           "https://raw.githubusercontent.com/EduardPrigoana/hifi-instances/refs/heads/main/instances.json";
       RequestTimeout := getTimeout;
       MaxCheckHistory := getMaxHistory Atoi (Getenv "MAX_CHECK_HISTORY");
       SSEKeepaliveSeconds := getSSEKeepalive;
       LogLevel := getEnv "LOG_LEVEL" "info" |} in
  if negb (HasPrefix (Port config) ":")
  then {| Port := ":" +:+ Port config;
          CheckInterval := CheckInterval config;
          InstancesURL := InstancesURL config;
          RequestTimeout := RequestTimeout config;
          MaxCheckHistory := MaxCheckHistory config;
          SSEKeepaliveSeconds := SSEKeepaliveSeconds config;
          LogLevel := LogLevel config |}
  else config.

End LoadConfig.

(** Environments for the examples. *)
Module Env.

(** Nothing is set. *)
Definition unset (key : string) : string := "".

(** Every variable the program reads is set to [value]. *)
Definition all (value : string) (key : string) : string := value.

End Env.

(** ** Vocabulary: check cycles *)

(** The instance after a probe that [net] answered, under history bound
    [max]. *)
Definition probed (max : Z) (net : string -> Probe) (inst : Instance) : Instance :=
  setChecks
    (lastN (Z.to_nat max) (Checks inst ++ [probeCheck (net (checkURL inst))]))
    inst.

(** The probes of one cycle: the position of each instance in the snapshot
    of the registry, which selects the network answer, and the instance. *)
Definition jobsOf (snapshot : list nat) : list (nat * nat) :=
  imap (fun i instance => (i, instance)) snapshot.

(** The goroutines of a cycle finishing in the order [jobs]. *)
Fixpoint checkJobs (m : Monitor) (jobs : list (nat * nat))
    (net : nat -> string -> Probe) : option Monitor :=
  match jobs with
  | [] => Some m
  | (i, instance) :: rest =>
      m' ← checkInstance m instance (net i);
      checkJobs m' rest net
  end.

(** An element of a snapshot whose last check succeeded. *)
Definition reportedUp (d : InstanceData.t) : bool :=
  match InstanceData.LastCheck d with
  | Some check => Success check
  | None => false
  end.


(** ** Vocabulary: well-formed monitors *)


(** ** Vocabulary: the text of a section *)

(** The braces opened and not closed in [s], whether or not they are
    inside a JSON string. *)
Fixpoint depth (s : string) : Z :=
  match s with
  | EmptyString => 0
  | String c s' =>
      (if Ascii.eqb c lbrace then 1
       else if Ascii.eqb c rbrace then -1
       else 0)
      + depth s'
  end.

(** The first [n] bytes of [s]. *)
Definition firstBytes (n : nat) (s : string) : string := String.substring 0 n s.

(** A key without a double quote character. *)
Fixpoint quoteFree (key : string) : bool :=
  match key with
  | EmptyString => true
  | String c key' => negb (Ascii.eqb c dquote) && quoteFree key'
  end.

(** Two ways of ranging over the keys of the two section objects of
    [body], [range] and [range'], yield the same keys at every turn, in
    whatever order. *)
Definition sameKeys (range range' : string -> nat -> list string)
    (body : string) : Prop :=
  ∀ section s i, section = "api" ∨ section = "ui" →
    sectionText body section = Some s → range s i ≡ₚ range' s i.

(** No key of the two section objects of [body] contains a double quote
    character. *)
Definition quoteFreeKeys (range : string -> nat -> list string)
    (body : string) : Prop :=
  ∀ section s i key, section = "api" ∨ section = "ui" →
    sectionText body section = Some s → key ∈ range s i →
    quoteFree key = true.

(** ** The clients of the broadcaster *)

(** A [chan []byte]: the capacity [make] gave it, the payloads sent and
    not yet received, oldest first, and whether it has been closed.  A
    send that finds a receiver waiting on an empty buffer goes through the
    buffer here; every channel the program makes has capacity 10, so the
    two are the same. *)
Record Chan := {
  capacity : nat;
  pending : list string;
  closed : bool
}.

(** The field [clients] of the monitor, a map used as a set of channels,
    together with the channels that have been made: a channel value is an
    address into [chans]. *)
Record Clients := {
  chans : list Chan;
  clients : gset nat
}.

(** Lines 438-443. *)
Definition RegisterClient (cs : Clients) (client : nat) : Clients :=
  {| chans := chans cs; clients := {[client]} ∪ clients cs |}.

(** [close(client)]: closing a channel that is nil or closed already
    panics ([None]). *)
Definition close (chans : list Chan) (client : nat) : option (list Chan) :=
  c ← chans !! client;
  if closed c then None
  else Some (<[client := {| capacity := capacity c; pending := pending c;
                            closed := true |}]> chans).

(** Lines 445-452. *)
Definition UnregisterClient (cs : Clients) (client : nat) : option Clients :=
  chans' ← close (chans cs) client;
  Some {| chans := chans'; clients := clients cs ∖ {[client]} |}.

(** Lines 347-352, [select] with a send and a [default]: the payload is
    sent when the buffer has room and skipped otherwise; a send on a
    closed channel panics ([None]). *)
Definition trySend (jsonData : string) (c : Chan) : option Chan :=
  if closed c then None
  else if (length (pending c) <? capacity c)%nat
       then Some {| capacity := capacity c;
                    pending := pending c ++ [jsonData];
                    closed := closed c |}
       else Some c.

(** Lines 346-353: the loop over the clients, in the order [order] in
    which Go ranges over the map. *)
Fixpoint offer (jsonData : string) (chans : list Chan) (order : list nat)
    : option (list Chan) :=
  match order with
  | [] => Some chans
  | client :: rest =>
      c ← chans !! client;
      c' ← trySend jsonData c;
      offer jsonData (<[client := c']> chans) rest
  end.

(** Lines 340-355 of [broadcastUpdate], for the marshalled payload
    [jsonData].  With no client the loop is not entered, which is the
    loop over no clients. *)
Definition deliver (jsonData : string) (cs : Clients) (order : list nat)
    : option Clients :=
  chans' ← offer jsonData (chans cs) order;
  Some {| chans := chans'; clients := clients cs |}.

(** ** server.go: the event stream *)

Definition LF : string := String "010"%char EmptyString.

(** [fmt.Fprintf(w, "data: %s\n\n", msg)] and
    [fmt.Fprintf(w, ":keepalive\n\n")]. *)
Definition dataFrame (msg : string) : string := "data: " +:+ msg +:+ LF +:+ LF.

Definition keepaliveFrame : string := ":keepalive" +:+ LF +:+ LF.

(** One call of [handleSSE] whose writer can flush (otherwise the handler
    answers 500 at line 598 and returns without touching the monitor):
    its channel, how far it has come, and what it has written to the
    response. *)
Inductive Stage :=
  | Registered
  | Live
  | Gone.

Record Stream := {
  messageChan : nat;
  stage : Stage;
  written : list string
}.

Record Hub := {
  subscribers : Clients;
  streams : list Stream
}.

(** [msg := <-messageChan]: the oldest pending payload; on a closed and
    empty channel the zero value; [None] when the receive would block. *)
Definition receive (c : Chan) : option (string * Chan) :=
  match pending c with
  | msg :: rest =>
      Some (msg, {| capacity := capacity c; pending := rest; closed := closed c |})
  | [] => if closed c then Some ("", c) else None
  end.

(** What the goroutines do to the clients, one step at a time.  The
    steps of a handler: it makes its channel and registers it (lines
    602-603); it writes the state it found (lines 606-615, [initialJSON]
    being the marshalled snapshot); a turn of its loop forwards a payload,
    writes a keep-alive or, the request being done, returns and runs the
    deferred [UnregisterClient].  The step of the monitor: the delivery of
    a payload by [broadcastUpdate], which holds the lock of the clients. *)
Inductive Step :=
  | Subscribe
  | Hello (stream : nat) (initialJSON : string)
  | Forward (stream : nat)
  | Keepalive (stream : nat)
  | Leave (stream : nat)
  | Publish (jsonData : string).

Inductive Outcome :=
  | Next (h : Hub)
  | Panic
  | Impossible.

Definition write (h : Hub) (i : nat) (s : Stream) (stage' : Stage)
    (frames : list string) (cs : Clients) : Hub :=
  {| subscribers := cs;
     streams := <[i := {| messageChan := messageChan s; stage := stage';
                          written := written s ++ frames |}]> (streams h) |}.

Definition hubStep (h : Hub) (step : Step) : Outcome :=
  match step with
  | Subscribe =>
      let messageChan := length (chans (subscribers h)) in
      let made :=
        {| chans := chans (subscribers h)
                    ++ [{| capacity := 10; pending := []; closed := false |}];
           clients := clients (subscribers h) |} in
      Next {| subscribers := RegisterClient made messageChan;
              streams := streams h
                         ++ [{| messageChan := messageChan; stage := Registered;
                                written := [] |}] |}
  | Hello i initialJSON =>
      match streams h !! i with
      | Some s =>
          match stage s with
          | Registered =>
              Next (write h i s Live [dataFrame initialJSON] (subscribers h))
          | _ => Impossible
          end
      | None => Impossible
      end
  | Forward i =>
      match streams h !! i with
      | Some s =>
          match stage s, chans (subscribers h) !! messageChan s with
          | Live, Some c =>
              match receive c with
              | Some (msg, c') =>
                  Next (write h i s Live [dataFrame msg]
                          {| chans := <[messageChan s := c']> (chans (subscribers h));
                             clients := clients (subscribers h) |})
              | None => Impossible
              end
          | _, _ => Impossible
          end
      | None => Impossible
      end
  | Keepalive i =>
      match streams h !! i with
      | Some s =>
          match stage s with
          | Live => Next (write h i s Live [keepaliveFrame] (subscribers h))
          | _ => Impossible
          end
      | None => Impossible
      end
  | Leave i =>
      match streams h !! i with
      | Some s =>
          match stage s with
          | Live =>
              match UnregisterClient (subscribers h) (messageChan s) with
              | Some cs => Next (write h i s Gone [] cs)
              | None => Panic
              end
          | _ => Impossible
          end
      | None => Impossible
      end
  | Publish jsonData =>
      match deliver jsonData (subscribers h)
              (elements (clients (subscribers h))) with
      | Some cs => Next {| subscribers := cs; streams := streams h |}
      | None => Panic
      end
  end.

Fixpoint hubRun (h : Hub) (steps : list Step) : Outcome :=
  match steps with
  | [] => Next h
  | step :: rest =>
      match hubStep h step with
      | Next h' => hubRun h' rest
      | stopped => stopped
      end
  end.

(** The server before the first request. *)
Definition noClients : Hub :=
  {| subscribers := {| chans := []; clients := ∅ |}; streams := [] |}.

(** ** Vocabulary: event streams *)

(** The payloads the steps publish, in order. *)
Definition published (steps : list Step) : list string :=
  omap (fun step => match step with Publish jsonData => Some jsonData | _ => None end)
    steps.

(** What a turn of the loop writes: the frame of a payload, or a
    keep-alive. *)
Definition frameOf (turn : option string) : string :=
  match turn with
  | Some msg => dataFrame msg
  | None => keepaliveFrame
  end.

(** What every state of the server satisfies: every handler has the
    channel it made, of capacity 10 and holding at most 10 payloads; the
    channel is closed exactly when the handler has returned, and it is a
    client exactly until then. *)
Definition HubInv (h : Hub) : Prop :=
  length (chans (subscribers h)) = length (streams h)
  ∧ (∀ c, c ∈ clients (subscribers h) → (c < length (streams h))%nat)
  ∧ ∀ i s, streams h !! i = Some s →
      messageChan s = i
      ∧ ∃ c, chans (subscribers h) !! i = Some c
          ∧ capacity c = 10%nat
          ∧ (length (pending c) <= 10)%nat
          ∧ (closed c = true ↔ stage s = Gone)
          ∧ (i ∈ clients (subscribers h) ↔ stage s ≠ Gone).

(** The channel after the [select] of lines 347-352 when it is open:
    with the payload at the end of the buffer when there is room, as it
    was otherwise. *)
Definition sent (jsonData : string) (c : Chan) : Chan :=
  if (length (pending c) <? capacity c)%nat
  then {| capacity := capacity c; pending := pending c ++ [jsonData];
          closed := closed c |}
  else c.

(** Handler [i] in a state of the server, [pub] being the payloads
    published since it registered.  Before its first write it has
    written nothing.  Afterwards it has written the frame of the state it
    found and then one frame per turn of its loop, the frame of the
    payload the turn received or a keep-alive.  The payloads it has
    received, followed by those pending in its channel, are payloads
    published since it registered, in the order of their publication,
    none twice; and they are all of them as long as the handler has not
    returned and no more than 10 were published. *)
Definition StreamInv (i : nat) (pub : list string) (h : Hub) : Prop :=
  ∃ s c turns,
    streams h !! i = Some s
    ∧ chans (subscribers h) !! i = Some c
    ∧ match stage s with
      | Registered => written s = [] ∧ turns = []
      | _ => ∃ initialJSON,
               written s = dataFrame initialJSON :: (frameOf <$> turns)
      end
    ∧ omap id turns ++ pending c `sublist_of` pub
    ∧ (stage s ≠ Gone → (length pub <= 10)%nat →
       omap id turns ++ pending c = pub).

(** ** server.go: the badge *)

(** The decimal form of an [int], as the verb [%d] prints it. *)
Definition itoa (n : Z) : string := NilZero.string_of_int (Z.to_int n).

(** An argument of [fmt.Sprintf]: an [int] or a [string]. *)
Inductive Arg :=
  | ArgInt (n : Z)
  | ArgString (s : string).

(** [fmt.Sprintf] as far as the program uses it: the verbs [%d] and [%s],
    each with an argument of its type, and [%%].  A format that runs out
    of arguments or ends in a percent sign does not occur; the rest of it
    is then left as it is. *)
Fixpoint Sprintf (format : string) (args : list Arg) : string :=
  match format with
  | EmptyString => EmptyString
  | String c rest =>
      if Ascii.eqb c "%" then
        match rest with
        | EmptyString => format
        | String verb rest' =>
            if Ascii.eqb verb "%" then String "%" (Sprintf rest' args)
            else
              match args with
              | [] => format
              | ArgInt n :: args' => itoa n +:+ Sprintf rest' args'
              | ArgString s :: args' => s +:+ Sprintf rest' args'
              end
        end
      else String c (Sprintf rest args)
  end.

(** The format of line 655, with apostrophes for its double quotes. *)
Definition badgeFormat : string :=
  jsonText "<svg xmlns='http://www.w3.org/2000/svg' width='%d' height='20'>
  <linearGradient id='b' x2='0' y2='100%%'>
    <stop offset='0' stop-color='#bbb' stop-opacity='.1'/>
    <stop offset='1' stop-opacity='.1'/>
  </linearGradient>
  <mask id='a'>
    <rect width='%d' height='20' rx='3' fill='#fff'/>
  </mask>
  <g mask='url(#a)'>
    <path fill='#555' d='M0 0h%dv20H0z'/>
    <path fill='%s' d='M%d 0h%dv20H%dz'/>
    <path fill='url(#b)' d='M0 0h%dv20H0z'/>
  </g>
  <g fill='#fff' text-anchor='middle' font-family='DejaVu Sans,Verdana,Geneva,sans-serif' font-size='11'>
    <text x='%d' y='15' fill='#010101' fill-opacity='.3'>%s</text>
    <text x='%d' y='14'>%s</text>
    <text x='%d' y='15' fill='#010101' fill-opacity='.3'>%s</text>
    <text x='%d' y='14'>%s</text>
  </g>
</svg>".

(** Lines 650-677; the widths are not negative, so that [/] rounds
    down. *)
Definition generateBadge (label message color : string) : string :=
  let labelWidth := Z.of_nat (String.length label) * 7 + 10 in
  let messageWidth := Z.of_nat (String.length message) * 7 + 10 in
  let totalWidth := labelWidth + messageWidth in
  Sprintf badgeFormat
    [ ArgInt totalWidth; ArgInt totalWidth; ArgInt labelWidth; ArgString color;
      ArgInt labelWidth; ArgInt messageWidth; ArgInt labelWidth;
      ArgInt totalWidth;
      ArgInt (labelWidth / 2); ArgString label;
      ArgInt (labelWidth / 2); ArgString label;
      ArgInt (labelWidth + messageWidth / 2); ArgString message;
      ArgInt (labelWidth + messageWidth / 2); ArgString message ].

(** What a handler has sent: the status code (200 when the handler wrote
    without calling [WriteHeader]), the headers it set, and the body. *)
Record Response := {
  r_status : Z;
  r_header : list (string * string);
  r_body : string
}.

(** Lines 545-547. *)
Definition badgeHeader : list (string * string) :=
  [ ("Content-Type", "image/svg+xml");
    ("Cache-Control", "no-cache, no-store, must-revalidate");
    ("Access-Control-Allow-Origin", "*") ].

(** Lines 557-563: the first entry of the registry with the URL. *)
Fixpoint findByURL (store : list Instance) (instances : list nat)
    (instanceURL : string) : option Instance :=
  match instances with
  | [] => None
  | inst :: rest =>
      match store !! inst with
      | Some instance =>
          if String.eqb (URL instance) instanceURL then Some instance
          else findByURL store rest instanceURL
      | None => findByURL store rest instanceURL
      end
  end.

Section HandleBadge.

(** [url.QueryUnescape], [None] when it returns an error, and
    [fmt.Sprintf("%.1f", uptime)]. *)
Variable QueryUnescape : string -> option string.
Variable formatUptime : float -> string.

(** Lines 544-588; [path] is [r.URL.Path]. *)
Definition handleBadge (m : Monitor) (path : string) : Response :=
  let urlPath := TrimPrefix path "/api/badge/" in
  match QueryUnescape urlPath with
  | None => {| r_status := 400; r_header := badgeHeader; r_body := "" |}
  | Some instanceURL =>
      match findByURL (store m) (instances m) instanceURL with
      | None =>
          {| r_status := 404; r_header := badgeHeader;
             r_body := generateBadge "unknown" "not found" "#6b7280" |}
      | Some instance =>
          let uptime := calculateUptime (Checks instance) in
          let isUp := lastSucceeded (Checks instance) in
          let '(status, color) :=
            if isUp then ("up " +:+ formatUptime uptime +:+ "%", "#22c55e")
            else ("down", "#ef4444") in
          {| r_status := 200; r_header := badgeHeader;
             r_body := generateBadge "status" status color |}
      end
  end.

End HandleBadge.

(** ** Examples for the rest of the program *)

Module Samples.

(** The network as the probes of one cycle see it: the first instance of
    the snapshot answers 200, every other one 503. *)
Definition firstUp (i : nat) (target : string) : Probe :=
  {| startTime := 7; elapsedMillis := 30;
     result := ProbeResponse (if Nat.eqb i 0 then 200 else 503) |}.

(** Two clients: the buffer of the first is full, that of the second
    empty. *)
Definition twoClients : Clients :=
  {| chans := [ {| capacity := 1; pending := ["old"]; closed := false |};
                {| capacity := 10; pending := []; closed := false |} ];
     clients := {[ 0%nat; 1%nat ]} |}.

(** The state of the server after [steps] from the server without
    requests. *)
Definition after (steps : list Step) : Hub :=
  match hubRun noClients steps with
  | Next h => h
  | _ => noClients
  end.



(** Two API groups declared against the alphabet, the first with two
    URLs, and a UI group. *)
Definition mixed : string :=
  jsonText "{'api':{'beta':{'urls':['http://b','http://c'],'cors':true},'alpha':{'urls':['http://a'],'cors':false}},'ui':{'web':['http://w']}}".

(** An API group that is called "ui", and a UI group that lists one URL
    twice. *)
Definition hidden : string :=
  jsonText "{'api':{'ui':{'urls':['http://a'],'cors':false}},'ui':{'web':['http://b','http://b']}}".

Definition Unmarshal : string -> option InstancesJSON :=
  Examples.lookupBody
    [ (mixed,
       {| API := {[ "beta" := Examples.group ["http://b"; "http://c"] true;
                    "alpha" := Examples.group ["http://a"] false ]};
          UI := {[ "web" := ["http://w"] ]} |});
      (hidden,
       {| API := {[ "ui" := Examples.group ["http://a"] false ]};
          UI := {[ "web" := ["http://b"; "http://b"] ]} |}) ].

(** The keys of the objects the extractor cuts out of the two payloads,
    in alphabetical order whatever the turn of the loop. *)
Definition rangeGroups (sectionJSON : string) (i : nat) : list string :=
  default []
    (Examples.lookupBody
       [ (jsonText "{'beta':{'urls':['http://b','http://c'],'cors':true},'alpha':{'urls':['http://a'],'cors':false}}",
          ["alpha"; "beta"]);
         (jsonText "{'web':['http://w']}", ["web"]);
         (jsonText "{'ui':{'urls':['http://a'],'cors':false}}", ["ui"]);
         (jsonText "{'urls':['http://a'],'cors':false}", ["cors"; "urls"]) ]
       sectionJSON).

Definition update (m : Monitor) (body : string) : Monitor :=
  (updateInstances Unmarshal rangeGroups m (Examples.fetched body)).1.

End Samples.

(** * Proofs *)

(** ** Searching in strings *)

Lemma substring_all (s : string) : String.substring 0 (String.length s) s = s.
Proof. induction s as [|c s IH]; simpl; [done | by rewrite IH]. Qed.

Lemma from_0 (s : string) : strings.from s 0 = s.
Proof. unfold strings.from. rewrite Nat.sub_0_r. apply substring_all. Qed.

Lemma from_S (c : ascii) (s : string) (n : nat) :
  strings.from (String c s) (S n) = strings.from s n.
Proof. done. Qed.

Lemma from_empty (n : nat) : strings.from "" n = "".
Proof. by destruct n. Qed.


Lemma substring_length (s : string) :
  ∀ n m, (String.length (String.substring n m s) <= String.length s - n)%nat.
Proof.
  induction s as [|c s IH]; intros [|n] [|m]; simpl; try lia.
  - specialize (IH 0%nat m). lia.
  - apply IH.
  - apply IH.
Qed.

Lemma quoted_length (key : string) :
  String.length (quoted key) = (String.length key + 2)%nat.
Proof.
  unfold quoted. simpl. f_equal.
  induction key as [|c key IH]; simpl; [done | by rewrite IH].
Qed.

Lemma quoted_not_empty (key : string) : quoted key ≠ "".
Proof. done. Qed.

Lemma occursAt_fits (s : string) (p : nat) (key : string) :
  occursAt s p (quoted key) → (p + String.length key + 2 <= String.length s)%nat.
Proof.
  unfold occursAt. intros H.
  pose proof (substring_length s p (String.length (quoted key))) as Hlen.
  rewrite H, quoted_length in Hlen. lia.
Qed.

Lemma index_ge (pat s : string) :
  ∀ n m, String.index n pat s = Some m → (n <= m)%nat.
Proof.
  induction s as [|c s IH]; intros [|n] m; simpl; try lia; try done.
  destruct (String.index n pat s) as [k|] eqn:Hk; [|done].
  intros [= <-]. apply IH in Hk. lia.
Qed.

Lemma index_firstAt (s pat : string) (pos p : nat) :
  pat ≠ "" →
  String.index pos pat s = Some p ↔ firstAt s pos pat p.
Proof.
  intros Hpat. split.
  - intros H. split; [by eapply index_ge|]. split.
    + by eapply index_correct1.
    + intros q [Hq1 Hq2]. by eapply index_correct2.
  - intros (Hge & Hocc & Hfirst).
    destruct (String.index pos pat s) as [m|] eqn:Hm.
    + f_equal. destruct (Nat.lt_trichotomy m p) as [Hlt|[->|Hgt]]; [|done|].
      * exfalso. apply (Hfirst m); [|by eapply index_correct1].
        split; [by eapply index_ge | done].
      * exfalso. by eapply (index_correct2 pos m pat s Hm p).
    + exfalso. by eapply (index_correct3 pos p pat s).
Qed.

Lemma firstAt_unique (s pat : string) (pos p q : nat) :
  firstAt s pos pat p → firstAt s pos pat q → p = q.
Proof.
  intros (Hp1 & Hp2 & Hp3) (Hq1 & Hq2 & Hq3).
  destruct (Nat.lt_trichotomy p q) as [Hlt|[->|Hgt]]; [|done|].
  - exfalso. by apply (Hq3 p).
  - exfalso. by apply (Hp3 q).
Qed.

(** Searching the suffix and shifting the result, as the code does, is
    searching from the cursor. *)
Lemma Index_from (pat : string) (s : string) :
  pat ≠ "" →
  ∀ pos, (fun i => (i + pos)%nat) <$> strings.Index (strings.from s pos) pat
         = String.index pos pat s.
Proof.
  intros Hpat. induction s as [|c s IH]; intros pos.
  - rewrite from_empty. unfold strings.Index. simpl.
    destruct pat; [done|]. by destruct pos.
  - destruct pos as [|pos].
    + rewrite from_0. unfold strings.Index.
      destruct (String.index 0 pat (String c s)); simpl; [f_equal; lia | done].
    + rewrite from_S. simpl. rewrite <- IH.
      destruct (strings.Index (strings.from s pos) pat); simpl; [f_equal; lia | done].
Qed.

(** ** The slice expressions of the extractor stay in range *)



(** ** The scan of the ordering extractor *)

Lemma alreadyAdded_spec (order : list string) (key : string) :
  alreadyAdded order key = true ↔ key ∈ order.
Proof.
  unfold alreadyAdded. rewrite existsb_exists. split.
  - intros (k & Hin & ->%String.eqb_eq). by apply list_elem_of_In.
  - intros Hin. exists key. split; [by apply list_elem_of_In|].
    apply String.eqb_refl.
Qed.

Lemma scanKey_index (s : string) (order : list string) (pos : nat)
    (earliest : nat * string) (key : string) :
  scanKey s order pos earliest key
  = if alreadyAdded order key then earliest
    else match String.index pos (quoted key) s with
         | Some foundPos =>
             if (foundPos <? earliest.1)%nat then (foundPos, key) else earliest
         | None => earliest
         end.
Proof.
  unfold scanKey. destruct (alreadyAdded order key); [done|].
  rewrite <- (Index_from (quoted key) s (quoted_not_empty key) pos).
  by destruct (strings.Index (strings.from s pos) (quoted key)).
Qed.

Lemma ScanInv_step (s : string) (order : list string) (pos : nat)
    (seen : list string) (earliest : nat * string) (key : string) :
  ScanInv s order pos seen earliest →
  ScanInv s order pos (seen ++ [key]) (scanKey s order pos earliest key).
Proof.
  intros Hinv. rewrite scanKey_index.
  assert (Hkeep : key ∈ order ∨ (∀ q, ¬ firstAt s pos (quoted key) q)
                  ∨ (∃ q, firstAt s pos (quoted key) q ∧ (earliest.1 <= q)%nat
                          ∧ earliest ≠ (String.length s, "")) →
                  ScanInv s order pos (seen ++ [key]) earliest).
  { intros Hcase. destruct Hinv as [[-> Hnone] | (Hin & Hnot & Hfirst & Hmin)].
    - left. split; [done|].
      intros key' [Hseen | ->%list_elem_of_singleton]%elem_of_app Hnot'.
      + by apply Hnone.
      + destruct Hcase as [? | [? | (q & _ & _ & ?)]]; done.
    - right. split; [apply elem_of_app; by left|]. split; [done|]. split; [done|].
      intros key' q [Hseen | ->%list_elem_of_singleton]%elem_of_app Hnot' Hq.
      + by eapply Hmin.
      + destruct Hcase as [? | [Hno | (q' & Hq' & Hle & _)]]; [done | | ].
        * by destruct (Hno q).
        * by rewrite (firstAt_unique _ _ _ _ _ Hq Hq'). }
  destruct (alreadyAdded order key) eqn:Hadded.
  { apply Hkeep. left. by apply alreadyAdded_spec. }
  assert (Hnot : key ∉ order).
  { intros Hin%alreadyAdded_spec. congruence. }
  destruct (String.index pos (quoted key) s) as [foundPos|] eqn:Hindex.
  - apply index_firstAt in Hindex as Hfound; [|apply quoted_not_empty].
    destruct (Nat.ltb_spec foundPos earliest.1) as [Hlt|Hge].
    + right. simpl. split; [apply elem_of_app; right; by apply list_elem_of_singleton|].
      split; [done|]. split; [done|].
      intros key' q [Hseen | ->%list_elem_of_singleton]%elem_of_app Hnot' Hq.
      * destruct Hinv as [[-> Hnone] | (_ & _ & _ & Hmin)].
        -- by destruct (Hnone key' Hseen Hnot' q).
        -- specialize (Hmin key' q Hseen Hnot' Hq). lia.
      * by rewrite (firstAt_unique _ _ _ _ _ Hq Hfound).
    + apply Hkeep. right. right. exists foundPos. split; [done|]. split; [done|].
      intros ->. simpl in Hge.
      destruct Hfound as (_ & Hocc%occursAt_fits & _). lia.
  - apply Hkeep. right. left. intros q Hq.
    apply index_firstAt in Hq; [|apply quoted_not_empty]. congruence.
Qed.

Lemma scanKeys_spec (s : string) (order : list string) (pos : nat)
    (keys : list string) :
  ScanInv s order pos keys (scanKeys s order pos keys).
Proof.
  unfold scanKeys.
  assert (Hgen : ∀ seen earliest, ScanInv s order pos seen earliest →
            ScanInv s order pos (seen ++ keys)
              (fold_left (scanKey s order pos) keys earliest)).
  { induction keys as [|key keys IH]; intros seen earliest Hinv; simpl.
    - by rewrite app_nil_r.
    - rewrite (cons_middle key seen keys), app_assoc.
      apply IH. by apply ScanInv_step. }
  apply (Hgen []). left. split; [done|]. intros key Hin. by apply elem_of_nil in Hin.
Qed.

Lemma orderLoop_spec (rangeGroups : string -> nat -> list string) (s : string) :
  ∀ (todo : nat) (order : list string) (pos : nat),
    Scanned s (rangeGroups s) order pos →
    ∃ pos',
      Scanned s (rangeGroups s) (orderLoop rangeGroups s todo order pos) pos'
      ∧ (length (orderLoop rangeGroups s todo order pos) = (length order + todo)%nat
         ∨ Stuck s (rangeGroups s) (orderLoop rangeGroups s todo order pos) pos').
Proof.
  induction todo as [|todo IH]; intros order pos Hscanned; simpl.
  - exists pos. split; [done|]. left. lia.
  - pose proof (scanKeys_spec s order pos (rangeGroups s (length order))) as Hinv.
    destruct (scanKeys s order pos (rangeGroups s (length order)))
      as [earliestPos earliestKey].
    destruct (String.eqb_spec earliestKey "") as [->|Hkey].
    + exists pos. split; [done|]. right.
      destruct Hinv as [[_ Hnone] | Hearliest]; [by left | right].
      by exists earliestPos.
    + destruct Hinv as [[[= _ ->] _] | Hearliest]; [done|]. simpl in Hearliest.
      destruct (IH (order ++ [earliestKey])
                  (earliestPos + String.length earliestKey + 2)%nat)
        as (pos' & Hscanned' & Hend).
      { by apply (Scanned_next _ _ order pos earliestKey earliestPos). }
      exists pos'. split; [done|].
      rewrite length_app in Hend. simpl in Hend.
      destruct Hend as [Hlen | Hstuck]; [left; lia | by right].
Qed.

Lemma Scanned_NoDup (s : string) (range : nat -> list string)
    (order : list string) (pos : nat) :
  Scanned s range order pos → NoDup order.
Proof.
  induction 1 as [|order pos key p _ IH (_ & Hnot & _) _]; [constructor|].
  apply NoDup_app. split; [done|]. split; [|apply NoDup_singleton].
  intros k Hk ->%list_elem_of_singleton. done.
Qed.


(** The keys of an order come from the ranges of the turns that added
    them, and none of them is empty. *)
Lemma Scanned_keys (s : string) (range : nat -> list string)
    (order : list string) (pos : nat) :
  Scanned s range order pos →
  ∀ i key, order !! i = Some key → key ∈ range i ∧ key ≠ "".
Proof.
  induction 1 as [|order pos key p _ IH (Hin & _) Hne]; intros i k Hk; [done|].
  destruct (decide (i < length order)%nat) as [Hi|Hi].
  - rewrite lookup_app_l in Hk by done. by apply IH.
  - assert (i = length order) as ->.
    { apply lookup_lt_Some in Hk. rewrite length_app in Hk. simpl in Hk. lia. }
    rewrite list_lookup_middle in Hk by done. by injection Hk as <-.
Qed.

Lemma extractOrder_NoDup (rangeGroups : string -> nat -> list string)
    (jsonStr section : string) :
  NoDup (extractOrderFromJSON rangeGroups jsonStr section).
Proof.
  unfold extractOrderFromJSON.
  destruct (sectionText jsonStr section) as [s|]; [|constructor].
  destruct (orderLoop_spec rangeGroups s (length (rangeGroups s 0%nat)) [] 0%nat)
    as (pos & Hscanned & _); [constructor|].
  by eapply Scanned_NoDup.
Qed.


(** The order of declaration, not of the alphabet: the section
    [{"beta":...,"alpha":...}] gives [beta], [alpha], and the registry
    follows it. *)
Lemma extractOrder_declared_order :
  extractOrderFromJSON Examples.rangeGroups Examples.declared "api"
  = ["beta"; "alpha"]
  ∧ registryURLs (Examples.update (NewMonitor Examples.defaultConfig) Examples.declared)
    = ["http://b"; "http://a"].
Proof. split; vm_compute; reflexivity. Qed.


(** ** The bounded history *)

Lemma len_app {A} (l k : list A) : len (l ++ k) = len l + len k.
Proof. unfold len. rewrite length_app. lia. Qed.

Lemma lastN_length {A} (n : nat) (l : list A) :
  length (lastN n l) = (length l `min` n)%nat.
Proof. unfold lastN. rewrite length_drop. lia. Qed.

Lemma lastN_short {A} (n : nat) (l : list A) :
  (length l <= n)%nat → lastN n l = l.
Proof.
  intros H. unfold lastN. replace (length l - n)%nat with 0%nat by lia. done.
Qed.

Lemma lastN_app_lastN {A} (n : nat) (a b : list A) :
  lastN n (lastN n a ++ b) = lastN n (a ++ b).
Proof.
  destruct (decide (length a <= n)%nat) as [Hle|Hgt].
  { by rewrite (lastN_short n a). }
  unfold lastN at 1 3. rewrite !length_app, lastN_length, !drop_app.
  rewrite lastN_length. unfold lastN. rewrite drop_drop.
  destruct (decide (length b <= n)%nat) as [Hb|Hb].
  - f_equal; [f_equal; lia|].
    replace (length a `min` n + length b - n - length a `min` n)%nat with 0%nat by lia.
    replace (length a + length b - n - length a)%nat with 0%nat by lia. done.
  - rewrite !(drop_ge a) by lia. simpl. f_equal. lia.
Qed.

Lemma lastN_full {A} (n : nat) (l : list A) (x : A) :
  (1 <= n)%nat → length l = n → lastN n (l ++ [x]) = drop 1 l ++ [x].
Proof.
  intros Hn Hl. unfold lastN. rewrite length_app, drop_app. simpl.
  replace (length l + 1 - n)%nat with 1%nat by lia.
  replace (1 - length l)%nat with 0%nat by lia. done.
Qed.

Lemma appendCheck_lastN (max : Z) (checks : list Check) (check : Check) :
  0 <= max →
  appendCheck max checks check = Some (lastN (Z.to_nat max) (checks ++ [check])).
Proof.
  intros Hmax. unfold appendCheck, sliceFrom.
  destruct (Z.ltb_spec max (len (checks ++ [check]))) as [Hlt|Hge].
  - unfold len in *.
    rewrite andb_true_intro by (split; [apply Z.leb_le | apply Z.leb_le]; lia).
    unfold lastN. do 2 f_equal. lia.
  - rewrite lastN_short; [done | unfold len in Hge; lia].
Qed.

Lemma checkInstance_Some (m : Monitor) (instance : nat) (inst : Instance)
    (net : string -> Probe) :
  0 <= MaxCheckHistory (config m) →
  store m !! instance = Some inst →
  checkInstance m instance net =
    Some {| store :=
              <[instance :=
                  setChecks
                    (lastN (Z.to_nat (MaxCheckHistory (config m)))
                       (Checks inst ++ [probeCheck (net (checkURL inst))]))
                    inst]> (store m);
            instances := instances m; config := config m;
            events := events m |}.
Proof.
  intros Hmax Hinst. unfold checkInstance. rewrite Hinst. simpl.
  by rewrite appendCheck_lastN.
Qed.

Lemma checkRepeatedly_spec (nets : list (string -> Probe)) :
  ∀ (m : Monitor) (instance : nat) (inst : Instance),
    0 <= MaxCheckHistory (config m) →
    store m !! instance = Some inst →
    ∃ m', checkRepeatedly m instance nets = Some m'
      ∧ config m' = config m
      ∧ instances m' = instances m
      ∧ events m' = events m
      ∧ length (store m') = length (store m)
      ∧ (∀ other, other ≠ instance → store m' !! other = store m !! other)
      ∧ store m' !! instance =
          Some (setChecks
                  (match nets with
                   | [] => Checks inst
                   | _ =>
                       lastN (Z.to_nat (MaxCheckHistory (config m)))
                         (Checks inst
                          ++ map (fun net => probeCheck (net (checkURL inst))) nets)
                   end) inst).
Proof.
  induction nets as [|net rest IH]; intros m instance inst Hmax Hinst.
  - exists m. simpl. repeat split; try done. rewrite Hinst. by destruct inst.
  - simpl. rewrite (checkInstance_Some m instance inst net Hmax Hinst). simpl.
    set (max := Z.to_nat (MaxCheckHistory (config m))).
    set (l1 := lastN max (Checks inst ++ [probeCheck (net (checkURL inst))])).
    set (m1 := {| store := <[instance:=setChecks l1 inst]> (store m) |}).
    assert (Hlt : (instance < length (store m))%nat) by (by eapply lookup_lt_Some).
    destruct (IH m1 instance (setChecks l1 inst)) as (m' & Hrun & Hc & Hi & He & Hl & Hframe & Hat).
    { done. }
    { simpl. by rewrite list_lookup_insert_eq. }
    exists m'. rewrite Hrun, Hc, Hi, He, Hl. simpl.
    rewrite length_insert. repeat split; try done.
    + intros other Hne. rewrite Hframe by done. simpl.
      by rewrite list_lookup_insert_ne.
    + rewrite Hat. simpl. f_equal. unfold setChecks. simpl. f_equal.
      change (checkURL (setChecks l1 inst)) with (checkURL inst).
      destruct rest as [|net' rest']; [done|].
      fold max. unfold l1. rewrite lastN_app_lastN.
      by rewrite <- app_assoc.
Qed.

(** The bound [LoadConfig] installs is at least one, whatever the
    environment holds. *)
Lemma getMaxHistory_ge_1 (Atoi : string -> option Z) (historyStr : string) :
  1 <= getMaxHistory Atoi historyStr.
Proof.
  unfold getMaxHistory. destruct (String.eqb historyStr ""); [lia|].
  destruct (Atoi historyStr) as [history|]; [|lia].
  destruct (Z.ltb_spec history 1); lia.
Qed.

Lemma getMaxHistory_examples :
  getMaxHistory Examples.Atoi "" = 168
  ∧ getMaxHistory Examples.Atoi "24" = 24
  ∧ getMaxHistory Examples.Atoi "0" = 168
  ∧ getMaxHistory Examples.Atoi "-3" = 168
  ∧ getMaxHistory Examples.Atoi "many" = 168.
Proof. repeat split; reflexivity. Qed.

(** C2.  With a history bound of at least one (which [getMaxHistory]
    guarantees), probing an instance any number of times succeeds; after at
    least one append the history holds at most [MaxCheckHistory] checks;
    a history that respected the bound becomes the last [MaxCheckHistory]
    entries of the old history followed by the new checks, oldest first;
    in particular an append to a full history drops exactly its first
    entry and an append to a history that is not full drops nothing. *)
Theorem history_bounded_fifo (m : Monitor) (instance : nat) (inst : Instance)
    (nets : list (string -> Probe)) :
  1 <= MaxCheckHistory (config m) →
  store m !! instance = Some inst →
  let max := MaxCheckHistory (config m) in
  let probed := map (fun net => probeCheck (net (checkURL inst))) nets in
  ∃ m' inst',
    checkRepeatedly m instance nets = Some m'
    ∧ store m' !! instance = Some inst'
    ∧ (nets ≠ [] → len (Checks inst') <= max)
    ∧ (len (Checks inst) <= max →
       len (Checks inst') <= max
       ∧ Checks inst' = lastN (Z.to_nat max) (Checks inst ++ probed))
    ∧ (∀ net, nets = [net] → len (Checks inst) = max →
       Checks inst' = drop 1 (Checks inst) ++ [probeCheck (net (checkURL inst))])
    ∧ (∀ net, nets = [net] → len (Checks inst) < max →
       Checks inst' = Checks inst ++ [probeCheck (net (checkURL inst))]).
Proof.
  intros Hmax Hinst max probed.
  destruct (checkRepeatedly_spec nets m instance inst) as
    (m' & Hrun & _ & _ & _ & _ & _ & Hat); [lia | done |].
  eexists m', _. split; [done|]. split; [exact Hat|]. simpl. fold max probed.
  assert (Hbound : ∀ l : list Check, len (lastN (Z.to_nat max) l) <= max).
  { intros l. unfold len. rewrite lastN_length. lia. }
  split; [|split; [|split]].
  - intros Hne. destruct nets; [done|]. apply Hbound.
  - intros Hle. destruct nets as [|net rest].
    + simpl. split; [done|]. unfold probed. simpl. rewrite app_nil_r.
      rewrite lastN_short; [done | unfold len in Hle; lia].
    + split; [apply Hbound | done].
  - intros net -> Hfull. simpl. apply lastN_full; unfold len in Hfull; lia.
  - intros net -> Hlt. simpl. apply lastN_short.
    rewrite length_app. simpl. unfold len in Hlt. lia.
Qed.

Lemma history_bounded_fifo_witness :
  ∃ m' inst',
    checkRepeatedly Witness.full 0 [Witness.answers 204] = Some m'
    ∧ store m' !! 0%nat = Some inst'
    ∧ Checks inst' = [Witness.check 500 20; probeCheck (Witness.answers 204 "")].
Proof.
  destruct (history_bounded_fifo Witness.full 0
              (Witness.api "http://u" 1 [Witness.check 200 10; Witness.check 500 20])
              [Witness.answers 204])
    as (m' & inst' & Hrun & Hat & _ & _ & Hfull & _).
  - simpl. lia.
  - reflexivity.
  - exists m', inst'. split; [exact Hrun|]. split; [exact Hat|].
    exact (Hfull (Witness.answers 204) eq_refl eq_refl).
Defined.

(** ** Probes *)

Lemma last_lastN_snoc {A} (n : nat) (l : list A) (x : A) :
  (1 <= n)%nat → last (lastN n (l ++ [x])) = Some x.
Proof.
  intros Hn. unfold lastN. rewrite length_app, drop_app. simpl.
  replace (length l + 1 - n - length l)%nat with 0%nat by lia.
  simpl. by rewrite last_snoc.
Qed.

(** C6.  A probe asks for the instance's URL followed by
    [/search/?s=kanye] when the instance is of type "api" and for the URL
    itself when it is of type "ui".  The check it appends is the newest
    entry of the history.  After a transport failure that check has
    [Success = false], [StatusCode = 0] and the failure text as [Error],
    which is not empty as long as the client's error texts are not; after
    a response, [Success] holds exactly for status codes from 200 to 299,
    [StatusCode] is the status and [Error] is empty. *)
Theorem probe_outcome (m : Monitor) (instance : nat) (inst : Instance)
    (net : string -> Probe) :
  1 <= MaxCheckHistory (config m) →
  store m !! instance = Some inst →
  (∀ target err, result (net target) = ProbeError err → err ≠ "") →
  ∃ target m' inst' check,
    (InstanceType inst = "api" → target = URL inst +:+ "/search/?s=kanye")
    ∧ (InstanceType inst = "ui" → target = URL inst)
    ∧ checkInstance m instance net = Some m'
    ∧ store m' !! instance = Some inst'
    ∧ last (Checks inst') = Some check
    ∧ Timestamp check = startTime (net target)
    ∧ ResponseTime check = elapsedMillis (net target)
    ∧ (∀ err, result (net target) = ProbeError err →
       Success check = false ∧ StatusCode check = 0
       ∧ Error check = err ∧ Error check ≠ "")
    ∧ (∀ status, result (net target) = ProbeResponse status →
       (Success check = true ↔ 200 <= status < 300)
       ∧ StatusCode check = status ∧ Error check = "").
Proof.
  intros Hmax Hinst Herr.
  assert (Hlt : (instance < length (store m))%nat) by (by eapply lookup_lt_Some).
  exists (checkURL inst). eexists _, _, (probeCheck (net (checkURL inst))).
  split; [|split; [|split; [|split; [|split]]]].
  - intros Happ. unfold checkURL. by rewrite Happ.
  - intros Hui. unfold checkURL. by rewrite Hui.
  - apply checkInstance_Some; [lia | done].
  - simpl. by apply list_lookup_insert_eq.
  - simpl. apply last_lastN_snoc. lia.
  - unfold probeCheck.
    destruct (result (net (checkURL inst))) as [err|status] eqn:Hres; simpl.
    + split; [done|]. split; [done|]. split.
      * intros err' [= <-]. repeat split; try done. by eapply Herr.
      * done.
    + split; [done|]. split; [done|]. split; [done|].
      intros status' [= <-]. split; [|done].
      rewrite andb_true_iff, Z.leb_le, Z.ltb_lt. done.
Qed.

Lemma probe_outcome_witness :
  ∃ target m' inst' check,
    (InstanceType (Witness.api "http://u" 1 []) = "api" →
     target = "http://u" +:+ "/search/?s=kanye")
    ∧ checkInstance Witness.full 0 Witness.refused = Some m'
    ∧ store m' !! 0%nat = Some inst'
    ∧ last (Checks inst') = Some check
    ∧ Success check = false ∧ StatusCode check = 0
    ∧ Error check = "Get: connection refused".
Proof.
  destruct (probe_outcome Witness.full 0
              (Witness.api "http://u" 1 [Witness.check 200 10; Witness.check 500 20])
              Witness.refused)
    as (target & m' & inst' & check & Hapi & _ & Hrun & Hat & Hlast & _ & _ & Herr & _).
  - simpl. lia.
  - reflexivity.
  - intros target err [= <-]. discriminate.
  - exists target, m', inst', check.
    destruct (Herr "Get: connection refused" eq_refl) as (Hs & Hc & He & _).
    repeat split; assumption.
Defined.

(** ** Metrics of a snapshot *)

Lemma successful_loop (checks : list Check) (start : Z) :
  fold_left (fun successful check =>
               if Success check then successful + 1 else successful)
    checks start
  = start + successCount checks.
Proof.
  revert start. unfold successCount.
  induction checks as [|check checks IH]; intros start; simpl.
  - unfold len. simpl. lia.
  - rewrite IH. rewrite filter_cons.
    destruct (Success check) eqn:Hs.
    + rewrite decide_True by done. unfold len. simpl. lia.
    + rewrite decide_False by done. lia.
Qed.

Lemma int64_wrap_add (a b : Z) :
  int64_wrap (int64_wrap a + b) = int64_wrap (a + b).
Proof.
  unfold int64_wrap. f_equal.
  replace ((a + 2 ^ 63) mod 2 ^ 64 - 2 ^ 63 + b + 2 ^ 63)
    with ((a + 2 ^ 63) mod 2 ^ 64 + b) by lia.
  rewrite Z.add_mod_idemp_l by lia. f_equal. lia.
Qed.

Lemma int64_wrap_id (z : Z) : int64 z → int64_wrap z = z.
Proof.
  unfold int64, int64_wrap. intros H. rewrite Z.mod_small; lia.
Qed.

Lemma total_loop (checks : list Check) (start : Z) :
  fold_left (fun total check => int64_wrap (total + ResponseTime check))
    checks (int64_wrap start)
  = int64_wrap (start + sumResponseTime checks).
Proof.
  revert start. induction checks as [|check checks IH]; intros start; simpl.
  - f_equal. lia.
  - rewrite int64_wrap_add, IH. f_equal. lia.
Qed.

Lemma calculateUptime_spec (checks : list Check) :
  calculateUptime checks =
    if decide (checks = []) then 0%float
    else (float64 (successCount checks) / float64 (len checks) * 100)%float.
Proof.
  unfold calculateUptime. destruct checks as [|check checks]; [done|].
  rewrite decide_False by done.
  replace (len (check :: checks) =? 0) with false
    by (symmetry; apply Z.eqb_neq; unfold len; simpl; lia).
  by rewrite successful_loop.
Qed.

Lemma calculateAvgResponseTime_spec (checks : list Check) :
  calculateAvgResponseTime checks =
    if decide (checks = []) then 0
    else Z.quot (int64_wrap (sumResponseTime checks)) (len checks).
Proof.
  unfold calculateAvgResponseTime. destruct checks as [|check checks]; [done|].
  rewrite decide_False by done.
  replace (len (check :: checks) =? 0) with false
    by (symmetry; apply Z.eqb_neq; unfold len; simpl; lia).
  change 0 with (int64_wrap 0) at 1. by rewrite total_loop.
Qed.

(** C9.  Every element of a snapshot carries the retained history of a
    registered instance and the metrics computed from it.  On an empty
    history uptime and average are 0 and there is no last check.
    Otherwise the uptime is the binary64 value of
    [successCount / totalChecks * 100], the last check is the newest entry,
    and the average is the truncated quotient of the sum of the response
    times by the number of checks as long as that sum fits an int64.
    Checks [success, success, fail, success] give 75, response times
    [100, 200, 300] give 200. *)
Theorem snapshot_metrics (m : Monitor) (d : InstanceData.t) :
  d ∈ GetInstancesData m →
  let checks := InstanceData.Checks d in
  (∃ instance inst, instance ∈ instances m ∧ store m !! instance = Some inst
     ∧ checks = Checks inst ∧ InstanceData.URL d = URL inst)
  ∧ (checks = [] →
     InstanceData.Uptime d = 0%float
     ∧ InstanceData.AvgResponseTime d = 0
     ∧ InstanceData.LastCheck d = None)
  ∧ (checks ≠ [] →
     InstanceData.Uptime d
       = (float64 (successCount checks) / float64 (len checks) * 100)%float
     ∧ (int64 (sumResponseTime checks) →
        InstanceData.AvgResponseTime d
          = Z.quot (sumResponseTime checks) (len checks))
     ∧ ∃ newest older,
         checks = older ++ [newest] ∧ InstanceData.LastCheck d = Some newest)
  ∧ (map Success checks = [true; true; false; true] →
     InstanceData.Uptime d = 75%float)
  ∧ (map ResponseTime checks = [100; 200; 300] →
     InstanceData.AvgResponseTime d = 200).
Proof.
  intros Hd checks. unfold GetInstancesData in Hd.
  apply list_elem_of_omap in Hd as (instance & Hin & Hd).
  destruct (store m !! instance) as [inst|] eqn:Hinst; [|done].
  injection Hd as <-. simpl in checks. subst checks.
  split; [by exists instance, inst|]. simpl.
  rewrite calculateUptime_spec, calculateAvgResponseTime_spec.
  split; [|split; [|split]].
  - intros ->. done.
  - intros Hne. rewrite !decide_False by done.
    split; [done|]. split.
    + intros Hfit. by rewrite int64_wrap_id.
    + destruct (Checks inst) as [|c cs] using rev_ind; [done|].
      exists c, cs. split; [done|]. by rewrite last_snoc.
  - intros Hs. destruct (Checks inst) as [|c1 [|c2 [|c3 [|c4 [|c5 cs]]]]]; try done.
    rewrite decide_False by done.
    unfold successCount. rewrite !filter_cons, filter_nil. simpl in Hs.
    destruct (Success c1), (Success c2), (Success c3), (Success c4);
      try discriminate Hs.
    reflexivity.
  - intros Hr. destruct (Checks inst) as [|c1 [|c2 [|c3 [|c4 cs]]]]; try done.
    rewrite decide_False by done.
    unfold sumResponseTime. simpl in *.
    assert (ResponseTime c1 = 100 ∧ ResponseTime c2 = 200 ∧ ResponseTime c3 = 300)
      as (-> & -> & ->) by (by simplify_eq).
    reflexivity.
Qed.

Lemma snapshot_metrics_witness :
  InstanceData.Uptime Witness.fourChecksData = 75%float
  ∧ InstanceData.AvgResponseTime Witness.fourChecksData = 200.
Proof.
  assert (Hd : Witness.fourChecksData ∈ GetInstancesData Witness.fourChecks)
    by (apply list_elem_of_singleton; reflexivity).
  destruct (snapshot_metrics Witness.fourChecks Witness.fourChecksData Hd)
    as (_ & _ & Hne & Hup & _).
  split.
  - apply Hup. reflexivity.
  - destruct Hne as (_ & Havg & _); [discriminate|].
    rewrite Havg; [reflexivity|]. unfold int64. simpl. lia.
Defined.

(** ** Failed reconciliations *)

(** C4.  When the fetch fails (network error, status outside 2xx, body
    unreadable) or the payload does not parse, [updateInstances] returns
    an error together with the monitor it was given: store, registry and
    events are the old ones.  Conversely every error it returns leaves the
    monitor untouched. *)
Theorem failed_reconciliation_keeps_registry
    (Unmarshal : string -> option InstancesJSON)
    (rangeGroups : string -> nat -> list string)
    (m : Monitor) (resp : GetResult) :
  (fetchFails resp ∨ parseFails Unmarshal resp →
   ∃ err, updateInstances Unmarshal rangeGroups m resp = (m, Some err))
  ∧ (∀ m' err,
       updateInstances Unmarshal rangeGroups m resp = (m', Some err) → m' = m).
Proof.
  split.
  - intros [Hfetch | (status & body & -> & Hparse)].
    + destruct resp as [err | status body]; simpl in *; [by eexists|].
      destruct (Z.eqb_spec status 200) as [->|Hne]; simpl; [|by eexists].
      destruct Hfetch as [Hstatus | ->]; [lia | by eexists].
    + simpl. destruct (Z.eqb_spec status 200); simpl; [|by eexists].
      rewrite Hparse. by eexists.
  - intros m' err. destruct resp as [e | status body]; simpl.
    + by intros [= <- _].
    + destruct (negb (status =? 200)); [by intros [= <- _]|].
      destruct body as [body|]; [|by intros [= <- _]].
      destruct (Unmarshal body); [done | by intros [= <- _]].
Qed.

Lemma failed_reconciliation_keeps_registry_witness :
  ∃ err,
    updateInstances Examples.Unmarshal Examples.rangeGroups Witness.pair
      (GetResponse 200 (Some "{")) = (Witness.pair, Some err).
Proof.
  apply (failed_reconciliation_keeps_registry Examples.Unmarshal
           Examples.rangeGroups Witness.pair (GetResponse 200 (Some "{"))).
  right. exists 200, "{". split; reflexivity.
Defined.

(** ** The walk as a list of visits *)

Lemma fold_visit_group (rank : nat) (g : WalkedGroup) (w : Walk) :
  fold_left visit (groupVisits rank g) w
  = fold_left (visitURL (g_section g) (g_name g) (Z.of_nat rank) (g_cors g))
      (g_urls g) w.
Proof.
  unfold groupVisits. revert w.
  induction (g_urls g) as [|url urls IH]; intros w; simpl; [done|].
  by rewrite IH.
Qed.

Lemma walkAPI_groups (data : InstancesJSON) (apiOrder : list string) :
  ∀ (w : Walk) (rank : nat),
    fold_left (walkAPI data) apiOrder (w, Z.of_nat rank)
    = (fold_left visit
         (concat (imap (fun i => groupVisits (rank + i)) (apiGroups data apiOrder))) w,
       Z.of_nat (rank + length (apiGroups data apiOrder))).
Proof.
  induction apiOrder as [|group rest IH]; intros w rank; simpl.
  - by rewrite Nat.add_0_r.
  - unfold apiGroups. simpl. destruct (API data !! group) as [details|]; simpl.
    + replace (Z.of_nat rank + 1) with (Z.of_nat (S rank)) by lia.
      rewrite IH. rewrite fold_left_app. f_equal.
      * rewrite Nat.add_0_r, fold_visit_group. simpl.
        f_equal. f_equal. apply imap_ext. intros i g _. simpl. f_equal. lia.
      * f_equal. unfold apiGroups. lia.
    + apply IH.
Qed.

Lemma walkUI_groups (data : InstancesJSON) (uiOrder : list string) :
  ∀ (w : Walk) (rank : nat),
    fold_left (walkUI data) uiOrder (w, Z.of_nat rank)
    = (fold_left visit
         (concat (imap (fun i => groupVisits (rank + i)) (uiGroups data uiOrder))) w,
       Z.of_nat (rank + length (uiGroups data uiOrder))).
Proof.
  induction uiOrder as [|group rest IH]; intros w rank; simpl.
  - by rewrite Nat.add_0_r.
  - unfold uiGroups. simpl. destruct (UI data !! group) as [urls|]; simpl.
    + replace (Z.of_nat rank + 1) with (Z.of_nat (S rank)) by lia.
      rewrite IH. rewrite fold_left_app. f_equal.
      * rewrite Nat.add_0_r, fold_visit_group. simpl.
        f_equal. f_equal. apply imap_ext. intros i g _. simpl. f_equal. lia.
      * f_equal. unfold uiGroups. lia.
    + apply IH.
Qed.

Lemma walk_plan (data : InstancesJSON) (apiOrder uiOrder : list string) (w : Walk) :
  fold_left (walkUI data) uiOrder (fold_left (walkAPI data) apiOrder (w, 0))
  = (fold_left visit (plan data apiOrder uiOrder) w,
     len (walkedGroups data apiOrder uiOrder)).
Proof.
  change 0 with (Z.of_nat 0). rewrite walkAPI_groups, walkUI_groups. simpl.
  unfold plan, walkedGroups, len.
  rewrite imap_app, concat_app, fold_left_app, length_app. done.
Qed.

(** ** The URL index *)

Lemma indexByURL_snoc (s : list Instance) (insts : list nat) (p : nat) :
  indexByURL s (insts ++ [p])
  = match s !! p with
    | Some inst => <[URL inst := p]> (indexByURL s insts)
    | None => indexByURL s insts
    end.
Proof. unfold indexByURL. by rewrite fold_left_app. Qed.

(** The index holds, for every URL, the last registry entry with it. *)
Lemma indexByURL_lookup (s : list Instance) (insts : list nat) (u : string) :
  indexByURL s insts !! u
  = last (filter (fun p => URL <$> s !! p = Some u) insts).
Proof.
  induction insts as [|p insts IH] using rev_ind; [done|].
  rewrite indexByURL_snoc, filter_app, filter_cons, filter_nil.
  destruct (s !! p) as [inst|] eqn:Hp; simpl.
  - destruct (decide (URL inst = u)) as [<-|Hne].
    + rewrite lookup_insert_eq. rewrite decide_True by done.
      by rewrite last_snoc.
    + rewrite lookup_insert_ne by done.
      rewrite decide_False by naive_solver. by rewrite app_nil_r.
  - rewrite IH. by rewrite app_nil_r.
Qed.

Lemma indexByURL_Some (s : list Instance) (insts : list nat) (u : string) (p : nat) :
  indexByURL s insts !! u = Some p →
  p ∈ insts ∧ ∃ inst, s !! p = Some inst ∧ URL inst = u.
Proof.
  rewrite indexByURL_lookup. intros Hlast.
  apply last_Some_elem_of in Hlast.
  apply list_elem_of_filter in Hlast as [Hurl Hin]. split; [done|].
  destruct (s !! p) as [inst|]; [|done]. exists inst. naive_solver.
Qed.

Lemma indexByURL_sound (s : list Instance) (insts : list nat) :
  indexSound s (indexByURL s insts).
Proof. intros u p H. by apply indexByURL_Some in H as [_ ?]. Qed.

(** In a registry without repeated URLs the URL index leads from the URL
    of every entry back to that entry. *)
Lemma indexByURL_registered (s : list Instance) (insts : list nat) :
  NoDup (omap (fun p => URL <$> s !! p) insts) →
  ∀ p inst, p ∈ insts → s !! p = Some inst →
    indexByURL s insts !! URL inst = Some p.
Proof.
  intros Hnodup p inst Hin Hinst. rewrite indexByURL_lookup.
  induction insts as [|q insts IH]; [by apply elem_of_nil in Hin|].
  simpl in Hnodup. rewrite filter_cons.
  assert (Hrest : ∀ r, r ∈ insts → URL <$> s !! r = Some (URL inst) →
            URL inst ∈ omap (fun p => URL <$> s !! p) insts).
  { intros r Hr Hu. apply list_elem_of_omap. by exists r. }
  destruct (s !! q) as [instq|] eqn:Hq; simpl in *.
  - apply NoDup_cons in Hnodup as [Hfirst Hnodup].
    apply elem_of_cons in Hin as [->|Hin].
    + rewrite Hq in Hinst. injection Hinst as ->.
      rewrite decide_True by done.
      assert (filter (fun p => URL <$> s !! p = Some (URL inst)) insts = []) as ->.
      { destruct (filter _ insts) as [|r rest] eqn:Hfilter; [done|].
        assert (Hr : r ∈ filter (fun p => URL <$> s !! p = Some (URL inst)) insts)
          by (rewrite Hfilter; apply elem_of_cons; by left).
        apply list_elem_of_filter in Hr as [Hu Hr].
        exfalso. apply Hfirst. by eapply Hrest. }
      done.
    + destruct (decide (Some (URL instq) = Some (URL inst))) as [[= Heq]|Hne].
      * exfalso. apply Hfirst. rewrite Heq. apply (Hrest p Hin). by rewrite Hinst.
      * by apply IH.
  - apply elem_of_cons in Hin as [->|Hin]; [congruence|].
    by apply IH.
Qed.

Lemma indexByURL_size (s : list Instance) (insts : list nat) :
  (∀ p, p ∈ insts → (p < length s)%nat) →
  NoDup (omap (fun p => URL <$> s !! p) insts) →
  size (indexByURL s insts) = length insts.
Proof.
  induction insts as [|p insts IH] using rev_ind; intros Hvalid Hnodup.
  - apply map_size_empty.
  - rewrite indexByURL_snoc, length_app. simpl.
    assert (is_Some (s !! p)) as [inst Hinst].
    { apply lookup_lt_is_Some, Hvalid, elem_of_app. right. by left. }
    rewrite omap_app in Hnodup. simpl in Hnodup. rewrite Hinst in Hnodup.
    simpl in Hnodup. apply NoDup_app in Hnodup as (Hnodup & Hnew & _).
    rewrite Hinst, map_size_insert_None.
    + rewrite IH; [lia | | done]. intros q Hq. apply Hvalid, elem_of_app. by left.
    + destruct (indexByURL s insts !! URL inst) as [q|] eqn:Hq; [|done].
      apply indexByURL_Some in Hq as (Hin & inst' & Hinst' & Hurl).
      exfalso. apply (Hnew (URL inst)); [|by left].
      apply list_elem_of_omap. exists q. split; [done|]. rewrite Hinst'. simpl. by rewrite Hurl.
Qed.

(** ** What a walk leaves behind *)

Lemma reused_app (existing0 : gmap string nat) (vs more : list Visit) (j : nat) :
  (j < length vs)%nat →
  reused existing0 (vs ++ more) j = reused existing0 vs j.
Proof.
  intros Hj. unfold reused. rewrite lookup_app_l by done.
  rewrite take_app_le by lia. done.
Qed.

Lemma reused_last (existing0 : gmap string nat) (vs : list Visit) (v : Visit) :
  reused existing0 (vs ++ [v]) (length vs)
  = if bool_decide (v_url v ∈ v_url <$> vs) then None
    else existing0 !! v_url v.
Proof.
  unfold reused. rewrite list_lookup_middle by done.
  rewrite take_app_le by lia. by rewrite take_ge by lia.
Qed.

Lemma reused_urls (existing : gmap string nat) (vs : list Visit) (j : nat)
    (v : Visit) :
  vs !! j = Some v →
  reused existing vs j
  = if decide (v_url v ∈ take j (v_url <$> vs)) then None
    else existing !! v_url v.
Proof.
  intros Hv. unfold reused. rewrite Hv, <- fmap_take.
  by destruct (decide _) as [H|H];
    [rewrite bool_decide_eq_true_2 | rewrite bool_decide_eq_false_2].
Qed.

Lemma WalkPost_start (s0 : list Instance) (existing0 : gmap string nat) :
  WalkPost s0 existing0 []
    {| w_store := s0; existingInstances := existing0; updatedInstances := [] |}.
Proof.
  unfold WalkPost. simpl. repeat split; try done.
  - constructor.
  - intros p Hp. by apply elem_of_nil in Hp.
Qed.

Lemma WalkPost_step (s0 : list Instance) (existing0 : gmap string nat)
    (vs : list Visit) (w : Walk) (v : Visit) :
  indexSound s0 existing0 →
  WalkPost s0 existing0 vs w →
  WalkPost s0 existing0 (vs ++ [v]) (visit w v).
Proof.
  intros Hsound (Hlen & Hnodup & Hgrow & Hvalid & Hexist & Hframe & Hentry).
  assert (Hold : ∀ p, p ∈ updatedInstances w → (p < length s0)%nat →
            ∃ vj, vj ∈ vs ∧ existing0 !! v_url vj = Some p).
  { intros p Hin Hlt. apply list_elem_of_lookup in Hin as [j Hj].
    assert (is_Some (vs !! j)) as [vj Hvj].
    { apply lookup_lt_is_Some. rewrite <- Hlen. by eapply lookup_lt_Some. }
    destruct (Hentry j vj Hvj) as (p' & Hp' & Hcase).
    rewrite Hj in Hp'. injection Hp' as <-.
    exists vj. split; [by eapply list_elem_of_lookup_2|].
    unfold reused in Hcase. rewrite Hvj in Hcase.
    destruct (bool_decide _); [lia|].
    destruct (existing0 !! v_url vj) as [q|]; [|lia].
    by destruct Hcase as [-> _]. }
  unfold visit, visitURL.
  destruct (existingInstances w !! v_url v) as [p|] eqn:Hlook.
  - (* the URL is still in the index: its instance is taken over *)
    rewrite Hexist in Hlook. case_bool_decide as Hseen; [done|].
    destruct (Hsound _ _ Hlook) as (inst & Hinst & Hurl).
    assert (Hp : (p < length s0)%nat) by (by eapply lookup_lt_Some).
    assert (Hfresh : p ∉ updatedInstances w).
    { intros Hin. destruct (Hold p Hin Hp) as (vj & Hvj & Hq).
      destruct (Hsound _ _ Hq) as (inst' & Hinst' & Hurl').
      rewrite Hinst in Hinst'. injection Hinst' as <-.
      apply Hseen. rewrite <- Hurl, Hurl'. by apply list_elem_of_fmap_2. }
    unfold WalkPost. simpl. repeat split.
    + rewrite !length_app. simpl. lia.
    + apply NoDup_app. split; [done|]. split; [|apply NoDup_singleton].
      intros q Hq ->%list_elem_of_singleton. done.
    + by rewrite length_alter.
    + rewrite length_alter. intros q [Hq| ->%list_elem_of_singleton]%elem_of_app.
      * by apply Hvalid.
      * lia.
    + intros u. rewrite fmap_app. simpl.
      destruct (decide (u = v_url v)) as [->|Hne].
      * rewrite lookup_delete_eq. rewrite bool_decide_eq_true_2; [done|].
        apply elem_of_app. right. by apply list_elem_of_singleton.
      * rewrite lookup_delete_ne by done. rewrite Hexist.
        rewrite (bool_decide_ext (u ∈ (v_url <$> vs) ++ [v_url v])
                   (u ∈ v_url <$> vs)); [done|].
        rewrite elem_of_app, list_elem_of_singleton.
        split; [by intros [?|?] | by left].
    + intros q Hq Hnot. rewrite list_lookup_alter_ne.
      * apply Hframe; [done|]. intros Hin. apply Hnot, elem_of_app. by left.
      * intros ->. apply Hnot, elem_of_app. right. by apply list_elem_of_singleton.
    + intros j vj Hvj. destruct (decide (j < length vs)%nat) as [Hj|Hj].
      * rewrite lookup_app_l in Hvj by done. rewrite reused_app by done.
        destruct (Hentry j vj Hvj) as (q & Hq & Hcase). exists q.
        rewrite lookup_app_l by (rewrite Hlen; done). split; [done|].
        assert (q ≠ p) by (intros ->; apply Hfresh; by eapply list_elem_of_lookup_2).
        rewrite list_lookup_alter_ne by done. exact Hcase.
      * assert (j = length vs) as ->.
        { apply lookup_lt_Some in Hvj. rewrite length_app in Hvj. simpl in Hvj. lia. }
        rewrite list_lookup_middle in Hvj by done. injection Hvj as <-.
        exists p. rewrite <- Hlen, list_lookup_middle by done. split; [done|].
        rewrite Hlen, reused_last. rewrite bool_decide_eq_false_2 by done.
        rewrite Hlook. split; [done|].
        rewrite list_lookup_alter_eq. by rewrite Hframe.
  - (* no instance for the URL: a new one is allocated *)
    unfold WalkPost. simpl. repeat split.
    + rewrite !length_app. simpl. lia.
    + apply NoDup_app. split; [done|]. split; [|apply NoDup_singleton].
      intros q Hq ->%list_elem_of_singleton. apply Hvalid in Hq. lia.
    + rewrite length_app. lia.
    + rewrite length_app. simpl.
      intros q [Hq| ->%list_elem_of_singleton]%elem_of_app.
      * apply Hvalid in Hq. lia.
      * lia.
    + intros u. rewrite fmap_app. simpl. rewrite Hexist.
      destruct (decide (u = v_url v)) as [->|Hne].
      * rewrite Hexist in Hlook.
        rewrite (bool_decide_eq_true_2 (_ ∈ _ ++ _)).
        2: { apply elem_of_app. right. by apply list_elem_of_singleton. }
        by case_bool_decide.
      * rewrite (bool_decide_ext (u ∈ (v_url <$> vs) ++ [v_url v])
                   (u ∈ v_url <$> vs)); [done|].
        rewrite elem_of_app, list_elem_of_singleton.
        split; [by intros [?|?] | by left].
    + intros q Hq Hnot. rewrite lookup_app_l by lia.
      apply Hframe; [done|]. intros Hin. apply Hnot, elem_of_app. by left.
    + intros j vj Hvj. destruct (decide (j < length vs)%nat) as [Hj|Hj].
      * rewrite lookup_app_l in Hvj by done. rewrite reused_app by done.
        destruct (Hentry j vj Hvj) as (q & Hq & Hcase). exists q.
        rewrite lookup_app_l by (rewrite Hlen; done). split; [done|].
        rewrite lookup_app_l; [exact Hcase|].
        apply Hvalid. by eapply list_elem_of_lookup_2.
      * assert (j = length vs) as ->.
        { apply lookup_lt_Some in Hvj. rewrite length_app in Hvj. simpl in Hvj. lia. }
        rewrite list_lookup_middle in Hvj by done. injection Hvj as <-.
        exists (length (w_store w)).
        rewrite <- Hlen, list_lookup_middle by done. split; [done|].
        rewrite Hlen, reused_last. rewrite Hexist in Hlook.
        case_bool_decide; [|rewrite Hlook];
          (split; [done | by rewrite list_lookup_middle]).
Qed.

Lemma WalkPost_fold (s0 : list Instance) (existing0 : gmap string nat)
    (vs : list Visit) :
  indexSound s0 existing0 →
  WalkPost s0 existing0 vs
    (fold_left visit vs
       {| w_store := s0; existingInstances := existing0; updatedInstances := [] |}).
Proof.
  intros Hsound. induction vs as [|v vs IH] using rev_ind.
  - apply WalkPost_start.
  - rewrite fold_left_app. simpl. by apply WalkPost_step.
Qed.

Lemma WalkPost_reconcile (m : Monitor) (vs : list Visit) :
  WalkPost (store m) (indexByURL (store m) (instances m)) vs
    (fold_left visit vs (startOfWalk m)).
Proof. apply WalkPost_fold, indexByURL_sound. Qed.

(** ** Numbering the new registry *)

Lemma assignIndex_length (updated : list nat) :
  ∀ (i : nat) (s : list Instance),
    length (assignIndex i updated s) = length s.
Proof.
  induction updated as [|p rest IH]; intros i s; simpl; [done|].
  by rewrite IH, length_alter.
Qed.

Lemma assignIndex_other (updated : list nat) (p : nat) :
  p ∉ updated →
  ∀ (i : nat) (s : list Instance), assignIndex i updated s !! p = s !! p.
Proof.
  induction updated as [|q rest IH]; intros Hnot i s; simpl; [done|].
  apply not_elem_of_cons in Hnot as [Hne Hnot].
  rewrite IH by done. by rewrite list_lookup_alter_ne.
Qed.

Lemma assignIndex_at (updated : list nat) :
  NoDup updated →
  ∀ (i j p : nat) (s : list Instance),
    updated !! j = Some p →
    assignIndex i updated s !! p
    = setIndex (Z.of_nat (i + j) + 1) <$> s !! p.
Proof.
  induction 1 as [|q rest Hq Hnodup IH]; intros i j p s Hj; [done|].
  simpl. destruct j as [|j]; simpl in Hj.
  - injection Hj as ->. rewrite assignIndex_other by done.
    rewrite list_lookup_alter_eq. by rewrite Nat.add_0_r.
  - rewrite (IH (S i) j p) by done.
    assert (q ≠ p) by (intros ->; apply Hq; by eapply list_elem_of_lookup_2).
    rewrite list_lookup_alter_ne by done.
    do 3 f_equal. lia.
Qed.

(** ** The result of a reconciliation *)

Lemma reconcile_fields (m : Monitor) (data : InstancesJSON)
    (apiOrder uiOrder : list string) :
  let w := fold_left visit (plan data apiOrder uiOrder) (startOfWalk m) in
  let m' := reconcile m data apiOrder uiOrder in
  store m' = assignIndex 0 (updatedInstances w) (w_store w)
  ∧ instances m' = updatedInstances w
  ∧ config m' = config m.
Proof.
  intros w m'. subst m'. unfold reconcile.
  fold (startOfWalk m). rewrite walk_plan. fold w.
  by destruct (_ || _).
Qed.

Lemma reconcile_spec (m : Monitor) (data : InstancesJSON)
    (apiOrder uiOrder : list string) :
  let vs := plan data apiOrder uiOrder in
  let existing0 := indexByURL (store m) (instances m) in
  let m' := reconcile m data apiOrder uiOrder in
  length (instances m') = length vs
  ∧ NoDup (instances m')
  ∧ (length (store m) <= length (store m'))%nat
  ∧ (∀ p, p ∈ instances m' → (p < length (store m'))%nat)
  ∧ (∀ p, (p < length (store m))%nat → p ∉ instances m' →
          store m' !! p = store m !! p)
  ∧ (∀ j v, vs !! j = Some v →
        ∃ p, instances m' !! j = Some p
          ∧ match reused existing0 vs j with
            | Some q =>
                p = q
                ∧ store m' !! p =
                    (fun inst =>
                       setIndex (Z.of_nat j + 1)
                         (regroup (v_group v) (v_order v) (v_cors v) inst))
                    <$> store m !! p
            | None =>
                (length (store m) <= p)%nat
                ∧ store m' !! p =
                    Some (setIndex (Z.of_nat j + 1)
                            (newInstance (v_section v) (v_group v) (v_order v)
                               (v_cors v) (v_url v)))
            end).
Proof.
  intros vs existing0 m'.
  destruct (reconcile_fields m data apiOrder uiOrder) as (Hstore & Hinsts & _).
  fold m' vs in Hstore, Hinsts.
  destruct (WalkPost_reconcile m vs)
    as (Hlen & Hnodup & Hgrow & Hvalid & _ & Hframe & Hentry).
  fold existing0 in Hentry.
  set (w := fold_left visit vs (startOfWalk m)) in *.
  rewrite Hstore, Hinsts. rewrite assignIndex_length.
  repeat split; try done.
  - intros p Hp Hnot. rewrite assignIndex_other by done. by apply Hframe.
  - intros j v Hv. destruct (Hentry j v Hv) as (p & Hp & Hcase).
    exists p. split; [done|].
    rewrite (assignIndex_at _ Hnodup 0 j p) by done. simpl.
    destruct (reused existing0 vs j) as [q|].
    + destruct Hcase as [-> ->]. split; [done|]. by rewrite <- option_fmap_compose.
    + destruct Hcase as [Hfresh ->]. done.
Qed.

Lemma first_occurrence {A} `{EqDecision A} (l : list A) (x : A) :
  x ∈ l → ∃ j, l !! j = Some x ∧ x ∉ take j l.
Proof.
  induction l as [|y l IH]; intros Hin; [by apply elem_of_nil in Hin|].
  destruct (decide (x = y)) as [->|Hne].
  - exists 0%nat. split; [done|]. simpl. apply not_elem_of_nil.
  - apply elem_of_cons in Hin as [?|Hin]; [done|].
    destruct (IH Hin) as (j & Hj & Hnot). exists (S j). split; [done|].
    simpl. by apply not_elem_of_cons.
Qed.

(** ** Ranks of the walked groups *)

Lemma ranked_cons (k : nat) (g : WalkedGroup) (gs : list WalkedGroup) :
  ranked k (g :: gs) = groupVisits k g ++ ranked (S k) gs.
Proof.
  unfold ranked. rewrite imap_cons. simpl. rewrite Nat.add_0_r. f_equal. f_equal.
  apply imap_ext. intros i x _. simpl. f_equal. lia.
Qed.

Lemma plan_ranked (data : InstancesJSON) (apiOrder uiOrder : list string) :
  plan data apiOrder uiOrder = ranked 0 (walkedGroups data apiOrder uiOrder).
Proof. done. Qed.

Lemma groupVisits_elem (rank : nat) (g : WalkedGroup) (v : Visit) :
  v ∈ groupVisits rank g →
  v_order v = Z.of_nat rank ∧ v_section v = g_section g
  ∧ v_group v = g_name g ∧ v_cors v = g_cors g ∧ v_url v ∈ g_urls g.
Proof.
  unfold groupVisits. intros Hin. apply list_elem_of_In, in_map_iff in Hin.
  destruct Hin as (u & <- & Hu). simpl. repeat split. by apply list_elem_of_In.
Qed.

Lemma ranked_group (gs : list WalkedGroup) :
  ∀ k j v, ranked k gs !! j = Some v →
    ∃ r g, gs !! r = Some g ∧ v_order v = Z.of_nat (k + r)
      ∧ v_section v = g_section g ∧ v_group v = g_name g.
Proof.
  induction gs as [|g gs IH]; intros k j v Hv; [done|].
  rewrite ranked_cons in Hv. apply lookup_app_Some in Hv as [Hhead | [_ Htail]].
  - apply list_elem_of_lookup_2, groupVisits_elem in Hhead as (Ho & Hs & Hn & _).
    exists 0%nat, g. rewrite Nat.add_0_r. done.
  - destruct (IH _ _ _ Htail) as (r & g' & Hg' & Ho & Hs & Hn).
    exists (S r), g'. repeat split; try done. rewrite Ho. f_equal. lia.
Qed.

Lemma ranked_ge (gs : list WalkedGroup) (k j : nat) (v : Visit) :
  ranked k gs !! j = Some v → Z.of_nat k <= v_order v.
Proof.
  intros Hv. destruct (ranked_group gs k j v Hv) as (r & g & _ & -> & _). lia.
Qed.

Lemma ranked_monotone (gs : list WalkedGroup) :
  ∀ k i j vi vj, (i <= j)%nat →
    ranked k gs !! i = Some vi → ranked k gs !! j = Some vj →
    v_order vi <= v_order vj.
Proof.
  induction gs as [|g gs IH]; intros k i j vi vj Hij Hi Hj; [done|].
  rewrite ranked_cons in Hi, Hj.
  apply lookup_app_Some in Hi as [Hi | [Hi1 Hi2]];
    apply lookup_app_Some in Hj as [Hj | [Hj1 Hj2]].
  - apply list_elem_of_lookup_2, groupVisits_elem in Hi as (-> & _).
    apply list_elem_of_lookup_2, groupVisits_elem in Hj as (-> & _). lia.
  - apply list_elem_of_lookup_2, groupVisits_elem in Hi as (-> & _).
    apply ranked_ge in Hj2. lia.
  - apply lookup_lt_Some in Hj. lia.
  - apply (IH (S k) (i - length (groupVisits k g))%nat
             (j - length (groupVisits k g))%nat); [lia | done | done].
Qed.

Lemma apiGroups_names (data : InstancesJSON) (apiOrder : list string) :
  (∀ g, g ∈ apiGroups data apiOrder → g_section g = "api" ∧ g_name g ∈ apiOrder)
  ∧ (NoDup apiOrder → NoDup (g_name <$> apiGroups data apiOrder)).
Proof.
  unfold apiGroups. induction apiOrder as [|a rest [IHin IHnodup]]; simpl.
  - split; [intros g Hg; by apply elem_of_nil in Hg | constructor].
  - destruct (API data !! a) as [details|]; simpl.
    + split.
      * intros g [->|Hg]%elem_of_cons; simpl.
        -- split; [done | by left].
        -- destruct (IHin g Hg). split; [done | by right].
      * intros [Ha Hrest]%NoDup_cons. constructor; [|by apply IHnodup].
        intros (g & Heq & Hg)%list_elem_of_fmap. simpl in Heq.
        apply Ha. rewrite Heq. by apply IHin.
    + split.
      * intros g Hg. destruct (IHin g Hg). split; [done | by right].
      * intros [_ Hrest]%NoDup_cons. by apply IHnodup.
Qed.

Lemma uiGroups_names (data : InstancesJSON) (uiOrder : list string) :
  (∀ g, g ∈ uiGroups data uiOrder → g_section g = "ui" ∧ g_name g ∈ uiOrder)
  ∧ (NoDup uiOrder → NoDup (g_name <$> uiGroups data uiOrder)).
Proof.
  unfold uiGroups. induction uiOrder as [|a rest [IHin IHnodup]]; simpl.
  - split; [intros g Hg; by apply elem_of_nil in Hg | constructor].
  - destruct (UI data !! a) as [urls|]; simpl.
    + split.
      * intros g [->|Hg]%elem_of_cons; simpl.
        -- split; [done | by left].
        -- destruct (IHin g Hg). split; [done | by right].
      * intros [Ha Hrest]%NoDup_cons. constructor; [|by apply IHnodup].
        intros (g & Heq & Hg)%list_elem_of_fmap. simpl in Heq.
        apply Ha. rewrite Heq. by apply IHin.
    + split.
      * intros g Hg. destruct (IHin g Hg). split; [done | by right].
      * intros [_ Hrest]%NoDup_cons. by apply IHnodup.
Qed.

Lemma NoDup_keys_of_names (section : string) (gs : list WalkedGroup) :
  (∀ g, g ∈ gs → g_section g = section) →
  NoDup (g_name <$> gs) → NoDup (groupKey <$> gs).
Proof.
  intros Hsection. induction gs as [|g gs IH]; simpl; [constructor|].
  intros [Hg Hrest]%NoDup_cons. constructor.
  - intros (g' & Heq & Hg')%list_elem_of_fmap. apply Hg.
    apply list_elem_of_fmap. exists g'. split; [|done].
    unfold groupKey in Heq. by injection Heq.
  - apply IH; [|done]. intros g' Hg'. apply Hsection. by right.
Qed.

Lemma walkedGroups_keys (data : InstancesJSON) (apiOrder uiOrder : list string) :
  NoDup apiOrder → NoDup uiOrder →
  NoDup (groupKey <$> walkedGroups data apiOrder uiOrder).
Proof.
  intros Hapi Hui. unfold walkedGroups. rewrite fmap_app.
  destruct (apiGroups_names data apiOrder) as [Hain Hanodup].
  destruct (uiGroups_names data uiOrder) as [Huin Hunodup].
  apply NoDup_app. split; [|split].
  - apply (NoDup_keys_of_names "api"); [intros g Hg; by apply Hain | by apply Hanodup].
  - intros key (g & -> & Hg)%list_elem_of_fmap (g' & Heq & Hg')%list_elem_of_fmap.
    apply Hain in Hg as [Hs _]. apply Huin in Hg' as [Hs' _].
    unfold groupKey in Heq. injection Heq as Heq _. congruence.
  - apply (NoDup_keys_of_names "ui"); [intros g Hg; by apply Huin | by apply Hunodup].
Qed.

Lemma ranked_urls (gs : list WalkedGroup) (u : string) :
  ∀ k, u ∈ v_url <$> ranked k gs ↔ ∃ g, g ∈ gs ∧ u ∈ g_urls g.
Proof.
  induction gs as [|g gs IH]; intros k.
  - split; [intros H; by apply elem_of_nil in H | intros (g & H & _); by apply elem_of_nil in H].
  - rewrite ranked_cons, fmap_app, elem_of_app, IH. split.
    + intros [(v & -> & Hv)%list_elem_of_fmap | (g' & Hg' & Hu)].
      * exists g. split; [by left|]. by apply groupVisits_elem in Hv as (_ & _ & _ & _ & ?).
      * exists g'. split; [by right | done].
    + intros (g' & [->|Hg']%elem_of_cons & Hu).
      * left. unfold groupVisits. rewrite <- list_fmap_compose.
        apply list_elem_of_fmap. by exists u.
      * right. by exists g'.
Qed.

(** The walk reaches exactly the URLs of the groups whose names the
    recovered orders contain. *)
Lemma plan_urls (data : InstancesJSON) (apiOrder uiOrder : list string) (u : string) :
  u ∈ v_url <$> plan data apiOrder uiOrder
  ↔ (∃ group details, group ∈ apiOrder ∧ API data !! group = Some details
       ∧ u ∈ URLs details)
    ∨ (∃ group urls, group ∈ uiOrder ∧ UI data !! group = Some urls ∧ u ∈ urls).
Proof.
  rewrite plan_ranked, ranked_urls. unfold walkedGroups. split.
  - intros (g & [Hg|Hg]%elem_of_app & Hu).
    + left. apply list_elem_of_omap in Hg as (group & Hin & Hg).
      destruct (API data !! group) as [details|] eqn:Hd; [|done].
      injection Hg as <-. by exists group, details.
    + right. apply list_elem_of_omap in Hg as (group & Hin & Hg).
      destruct (UI data !! group) as [urls|] eqn:Hd; [|done].
      injection Hg as <-. by exists group, urls.
  - intros [(group & details & Hin & Hd & Hu) | (group & urls & Hin & Hd & Hu)].
    + exists {| g_section := "api"; g_name := group;
                g_cors := GroupCors details; g_urls := URLs details |}.
      split; [|exact Hu]. apply elem_of_app. left.
      apply list_elem_of_omap. exists group. split; [done|]. by rewrite Hd.
    + exists {| g_section := "ui"; g_name := group; g_cors := false; g_urls := urls |}.
      split; [|exact Hu]. apply elem_of_app. right.
      apply list_elem_of_omap. exists group. split; [done|]. by rewrite Hd.
Qed.

(** The registry of a reconciliation lists the URLs of its walk, in the
    order of the walk. *)
Lemma reconcile_registryURLs (m : Monitor) (data : InstancesJSON)
    (apiOrder uiOrder : list string) :
  registryURLs (reconcile m data apiOrder uiOrder)
  = v_url <$> plan data apiOrder uiOrder.
Proof.
  destruct (reconcile_spec m data apiOrder uiOrder)
    as (Hlen & _ & _ & _ & _ & Hentry).
  set (m' := reconcile m data apiOrder uiOrder) in *.
  set (vs := plan data apiOrder uiOrder) in *.
  assert (Hall : Forall2 (fun p v => URL <$> store m' !! p = Some (v_url v))
                   (instances m') vs).
  { apply Forall2_same_length_lookup_2; [done|].
    intros j p v Hp Hv. destruct (Hentry j v Hv) as (p' & Hp' & Hcase).
    rewrite Hp in Hp'. injection Hp' as <-.
    rewrite (reused_urls _ vs j v Hv) in Hcase.
    destruct (decide _); [by destruct Hcase as [_ ->]|].
    destruct (indexByURL _ _ !! v_url v) as [q|] eqn:Hq.
    - destruct Hcase as [-> ->].
      destruct (indexByURL_sound _ _ _ _ Hq) as (inst & -> & Hurl).
      simpl. by rewrite Hurl.
    - by destruct Hcase as [_ ->]. }
  unfold registryURLs. clear Hlen Hentry. revert Hall.
  generalize (instances m') vs. intros ps vs' Hall.
  induction Hall as [|p v ps vs' Hp _ IH]; [done|].
  simpl. rewrite Hp. simpl. f_equal. exact IH.
Qed.

(** ** Successful reconciliations *)

Section Reconciliation.

Context (Unmarshal : string -> option InstancesJSON)
        (rangeGroups : string -> nat -> list string).

Lemma updateInstances_ok
    (m : Monitor) (body : string) (data : InstancesJSON) :
  Unmarshal body = Some data →
  updateInstances Unmarshal rangeGroups m (GetResponse 200 (Some body))
  = (reconcile m data (extractOrderFromJSON rangeGroups body "api")
       (extractOrderFromJSON rangeGroups body "ui"), None).
Proof. intros Hdata. simpl. by rewrite Hdata. Qed.

(** A reconciliation succeeds exactly when the fetch answers 200 with a
    body that parses. *)
Lemma updateInstances_success
    (m m' : Monitor) (resp : GetResult) :
  updateInstances Unmarshal rangeGroups m resp = (m', None) →
  ∃ body data,
    resp = GetResponse 200 (Some body) ∧ Unmarshal body = Some data
    ∧ m' = reconcile m data (extractOrderFromJSON rangeGroups body "api")
             (extractOrderFromJSON rangeGroups body "ui").
Proof.
  destruct resp as [err|status body]; simpl; [done|].
  destruct (Z.eqb_spec status 200) as [->|Hne]; simpl; [|done].
  destruct body as [body|]; [|done].
  destruct (Unmarshal body) as [data|] eqn:Hdata; [|done].
  intros [= <-]. by exists body, data.
Qed.

(** From a successful run to the payload, its parse and the monitor the
    merge built. *)
Ltac successful H :=
  destruct (updateInstances_success _ _ _ H) as (body & data & -> & Hdata & ->);
  exists body, data; split; [done|]; split; [done|].

(** C1, as amended.  A successful reconciliation changes the history, the
    URL and the type of no instance that existed before it.  For every URL
    the walk reaches and for which the URL index holds an instance, that
    instance is the registry entry of the URL's first occurrence in the
    walk: history, URL and type are the old ones, while group, group
    order, CORS flag and index are rewritten in place from that
    occurrence.  In a registry whose URLs are pairwise different the index
    holds every registered instance, so every entry whose URL the walk
    reaches is kept in this way. *)
Theorem reconciliation_keeps_history
    (m m' : Monitor) (resp : GetResult) :
  updateInstances Unmarshal rangeGroups m resp = (m', None) →
  ∃ body data,
    resp = GetResponse 200 (Some body) ∧ Unmarshal body = Some data
    ∧ let vs := walkOf rangeGroups data body in
      let existing := indexByURL (store m) (instances m) in
      (∀ p inst, store m !! p = Some inst →
         ∃ inst', store m' !! p = Some inst'
           ∧ Checks inst' = Checks inst ∧ URL inst' = URL inst
           ∧ InstanceType inst' = InstanceType inst)
      ∧ (∀ u p, existing !! u = Some p → u ∈ v_url <$> vs →
           ∃ j v inst,
             vs !! j = Some v ∧ v_url v = u ∧ (u ∉ take j (v_url <$> vs))
             ∧ instances m' !! j = Some p
             ∧ store m !! p = Some inst ∧ URL inst = u
             ∧ store m' !! p =
                 Some {| Group := v_group v; URL := URL inst;
                         InstanceType := InstanceType inst; Cors := v_cors v;
                         GroupOrder := v_order v; Index := Z.of_nat j + 1;
                         Checks := Checks inst |})
      ∧ (NoDup (registryURLs m) →
         ∀ p inst, p ∈ instances m → store m !! p = Some inst →
           URL inst ∈ v_url <$> vs →
           existing !! URL inst = Some p
           ∧ ∃ j v,
               vs !! j = Some v ∧ v_url v = URL inst
               ∧ (URL inst ∉ take j (v_url <$> vs))
               ∧ instances m' !! j = Some p
               ∧ store m' !! p =
                   Some {| Group := v_group v; URL := URL inst;
                           InstanceType := InstanceType inst; Cors := v_cors v;
                           GroupOrder := v_order v; Index := Z.of_nat j + 1;
                           Checks := Checks inst |}).
Proof.
  intros Hok.
  successful Hok. intros vs existing.
  destruct (reconcile_spec m data (extractOrderFromJSON rangeGroups body "api")
              (extractOrderFromJSON rangeGroups body "ui"))
    as (Hlen & Hnodup & _ & _ & Hframe & Hentry).
  fold (walkOf rangeGroups data body) in Hlen, Hentry. fold vs existing in Hlen, Hentry.
  set (m' := reconcile m data _ _) in *.
  assert (Hreuse : ∀ u p, existing !! u = Some p → u ∈ v_url <$> vs →
            ∃ j v inst,
              vs !! j = Some v ∧ v_url v = u ∧ (u ∉ take j (v_url <$> vs))
              ∧ instances m' !! j = Some p
              ∧ store m !! p = Some inst ∧ URL inst = u
              ∧ store m' !! p =
                  Some {| Group := v_group v; URL := URL inst;
                          InstanceType := InstanceType inst; Cors := v_cors v;
                          GroupOrder := v_order v; Index := Z.of_nat j + 1;
                          Checks := Checks inst |}).
  { intros u p Hp Hin.
    destruct (first_occurrence _ _ Hin) as (j & Hj & Hfirst).
    rewrite list_lookup_fmap in Hj.
    destruct (vs !! j) as [v|] eqn:Hv; [|done]. injection Hj as <-.
    destruct (Hentry j v Hv) as (p' & Hp' & Hcase).
    rewrite (reused_urls existing vs j v Hv) in Hcase.
    rewrite decide_False in Hcase by done. rewrite Hp in Hcase.
    destruct Hcase as [-> Hstore].
    destruct (indexByURL_sound _ _ _ _ Hp) as (inst & Hinst & Hurl).
    exists j, v, inst. repeat split; try done.
    rewrite Hstore, Hinst. done. }
  split; [|split].
  - intros p inst Hinst.
    assert (Hp : (p < length (store m))%nat) by (by eapply lookup_lt_Some).
    destruct (decide (p ∈ instances m')) as [Hin|Hnot].
    + apply list_elem_of_lookup in Hin as [j Hj].
      assert (is_Some (vs !! j)) as [v Hv].
      { apply lookup_lt_is_Some. rewrite <- Hlen. by eapply lookup_lt_Some. }
      destruct (Hentry j v Hv) as (p' & Hp' & Hcase).
      rewrite Hj in Hp'. injection Hp' as <-.
      destruct (reused existing vs j) as [q|].
      * destruct Hcase as [_ ->]. rewrite Hinst. simpl. by eexists.
      * destruct Hcase as [Hfresh _]. lia.
    + rewrite Hframe by done. by exists inst.
  - exact Hreuse.
  - intros Hdistinct p inst Hin Hinst Hreached.
    assert (Hp : existing !! URL inst = Some p) by (by apply indexByURL_registered).
    split; [done|].
    destruct (Hreuse _ _ Hp Hreached) as (j & v & inst' & Hv & Hu & Hfirst & Hj & Hi & _ & Hs).
    rewrite Hinst in Hi. injection Hi as <-. by exists j, v.
Qed.

(** C7.  After a successful reconciliation the [j]-th registry entry
    carries the group name and the rank of the group of the [j]-th visit of
    the walk; the ranks number the walked groups with one counter, API
    groups first, then UI groups.  Hence the group order never decreases
    along the registry, it increases from one entry to the next exactly
    when the two entries were listed under different groups (section and
    name), and every entry listed in an API group has a smaller group
    order than every entry listed in a UI group. *)
Theorem group_order_follows_walk
    (m m' : Monitor) (resp : GetResult) :
  updateInstances Unmarshal rangeGroups m resp = (m', None) →
  ∃ body data,
    resp = GetResponse 200 (Some body) ∧ Unmarshal body = Some data
    ∧ let vs := walkOf rangeGroups data body in
      let groups :=
        walkedGroups data (extractOrderFromJSON rangeGroups body "api")
          (extractOrderFromJSON rangeGroups body "ui") in
      length (instances m') = length vs
      ∧ (∀ j v, vs !! j = Some v →
           ∃ p inst',
             instances m' !! j = Some p ∧ store m' !! p = Some inst'
             ∧ GroupOrder inst' = v_order v ∧ Group inst' = v_group v)
      ∧ (∀ j v, vs !! j = Some v →
           ∃ rank g, groups !! rank = Some g ∧ v_order v = Z.of_nat rank
             ∧ v_section v = g_section g ∧ v_group v = g_name g
             ∧ (g_section g = "api" ∨ g_section g = "ui"))
      ∧ (∀ i j vi vj, (i <= j)%nat → vs !! i = Some vi → vs !! j = Some vj →
           v_order vi <= v_order vj)
      ∧ (∀ i vi vj, vs !! i = Some vi → vs !! S i = Some vj →
           (v_order vi < v_order vj
            ↔ (v_section vi, v_group vi) ≠ (v_section vj, v_group vj)))
      ∧ (∀ i j vi vj, vs !! i = Some vi → vs !! j = Some vj →
           v_section vi = "api" → v_section vj = "ui" → v_order vi < v_order vj)
      ∧ (∀ i j pi pj ei ej, (i <= j)%nat →
           instances m' !! i = Some pi → instances m' !! j = Some pj →
           store m' !! pi = Some ei → store m' !! pj = Some ej →
           GroupOrder ei <= GroupOrder ej).
Proof.
  intros Hok.
  successful Hok. intros vs groups.
  set (apiOrder := extractOrderFromJSON rangeGroups body "api") in *.
  set (uiOrder := extractOrderFromJSON rangeGroups body "ui") in *.
  destruct (reconcile_spec m data apiOrder uiOrder)
    as (Hlen & _ & _ & _ & _ & Hentry).
  change (plan data apiOrder uiOrder) with vs in Hlen, Hentry.
  assert (Hvs : vs = ranked 0 groups) by done.
  assert (Hkeys : NoDup (groupKey <$> groups))
    by (apply walkedGroups_keys; apply extractOrder_NoDup).
  destruct (apiGroups_names data apiOrder) as [Hapi _].
  destruct (uiGroups_names data uiOrder) as [Hui _].
  assert (Hrank : ∀ j v, vs !! j = Some v →
            ∃ rank g, groups !! rank = Some g ∧ v_order v = Z.of_nat rank
              ∧ v_section v = g_section g ∧ v_group v = g_name g
              ∧ ((rank < length (apiGroups data apiOrder))%nat ∧ g_section g = "api"
                 ∨ (length (apiGroups data apiOrder) <= rank)%nat ∧ g_section g = "ui")).
  { intros j v Hv. rewrite Hvs in Hv.
    destruct (ranked_group groups 0 j v Hv) as (r & g & Hg & Ho & Hs & Hn).
    exists r, g. repeat split; try done.
    unfold groups, walkedGroups in Hg.
    apply lookup_app_Some in Hg as [Hg | [Hge Hg]].
    - left. split; [by eapply lookup_lt_Some|].
      by apply list_elem_of_lookup_2, Hapi in Hg as [? _].
    - right. split; [done|].
      by apply list_elem_of_lookup_2, Hui in Hg as [? _]. }
  assert (Hmono : ∀ i j vi vj, (i <= j)%nat → vs !! i = Some vi → vs !! j = Some vj →
            v_order vi <= v_order vj).
  { intros i j vi vj Hij Hi Hj. rewrite Hvs in Hi, Hj. by eapply ranked_monotone. }
  assert (Hat : ∀ j v, vs !! j = Some v →
            ∃ p inst',
              instances (reconcile m data apiOrder uiOrder) !! j = Some p
              ∧ store (reconcile m data apiOrder uiOrder) !! p = Some inst'
              ∧ GroupOrder inst' = v_order v ∧ Group inst' = v_group v);
    [|split; [done|]; split; [exact Hat|]; split; [|split; [|split; [|split]]]].
  - intros j v Hv. destruct (Hentry j v Hv) as (p & Hp & Hcase). exists p.
    rewrite (reused_urls _ vs j v Hv) in Hcase.
    destruct (decide _); [destruct Hcase as [_ Hstore]; by eexists|].
    destruct (indexByURL _ _ !! v_url v) as [q|] eqn:Hq.
    + destruct Hcase as [-> Hstore].
      destruct (indexByURL_sound _ _ _ _ Hq) as (inst & Hinst & _).
      rewrite Hinst in Hstore. by eexists.
    + destruct Hcase as [_ Hstore]. by eexists.
  - intros j v Hv. destruct (Hrank j v Hv) as (r & g & Hg & Ho & Hs & Hn & Hside).
    exists r, g. repeat split; try done. by destruct Hside as [[_ ?]|[_ ?]]; [left|right].
  - done.
  - intros i vi vj Hi Hj.
    destruct (Hrank i vi Hi) as (ri & gi & Hgi & Hoi & Hsi & Hni & _).
    destruct (Hrank (S i) vj Hj) as (rj & gj & Hgj & Hoj & Hsj & Hnj & _).
    assert (Hle : v_order vi <= v_order vj) by (apply (Hmono i (S i)); [lia|done..]).
    split.
    + intros Hlt Heq. injection Heq as Hs Hn.
      assert (ri = rj); [|lia].
      apply (NoDup_lookup _ ri rj (groupKey gi) Hkeys).
      * by rewrite list_lookup_fmap, Hgi.
      * rewrite list_lookup_fmap, Hgj. simpl. unfold groupKey. congruence.
    + intros Hne. assert (ri ≠ rj); [|lia].
      intros ->. rewrite Hgi in Hgj. injection Hgj as <-.
      apply Hne. congruence.
  - intros i j vi vj Hi Hj Hsi Hsj.
    destruct (Hrank i vi Hi) as (ri & gi & _ & -> & Hs1 & _ & Hside1).
    destruct (Hrank j vj Hj) as (rj & gj & _ & -> & Hs2 & _ & Hside2).
    destruct Hside1 as [[Hr1 _] | [_ Hu]]; [|congruence].
    destruct Hside2 as [[_ Ha] | [Hr2 _]]; [congruence|]. lia.
  - intros i j pi pj ei ej Hij Hpi Hpj Hei Hej.
    assert (is_Some (vs !! i)) as [vi Hvi].
    { apply lookup_lt_is_Some. rewrite <- Hlen. by eapply lookup_lt_Some. }
    assert (is_Some (vs !! j)) as [vj Hvj].
    { apply lookup_lt_is_Some. rewrite <- Hlen. by eapply lookup_lt_Some. }
    destruct (Hat i vi Hvi) as (pi' & ei' & Hpi' & Hei' & Hoi & _).
    destruct (Hat j vj Hvj) as (pj' & ej' & Hpj' & Hej' & Hoj & _).
    assert (ei' = ei) as -> by congruence.
    assert (ej' = ej) as -> by congruence.
    rewrite Hoi, Hoj. by eapply Hmono.
Qed.

End Reconciliation.

Lemma reconciliation_keeps_history_witness :
  ∃ inst',
    store (Examples.update Witness.pair Examples.swapped) !! 1%nat = Some inst'
    ∧ Checks inst' = [Witness.check 503 20]
    ∧ URL inst' = "http://v".
Proof.
  destruct (reconciliation_keeps_history Examples.Unmarshal Examples.rangeGroups
              Witness.pair (Examples.update Witness.pair Examples.swapped)
              (Examples.fetched Examples.swapped) eq_refl)
    as (body & data & _ & _ & Hall & _).
  destruct (Hall 1%nat (Witness.api "http://v" 2 [Witness.check 503 20]) eq_refl)
    as (inst' & Hstore & Hchecks & Hurl & _).
  exists inst'. split; [exact Hstore|]. split; [exact Hchecks | exact Hurl].
Defined.

(** C1 as stated fails: [http://v] is in the registry and in the new
    configuration, which lists it first; its instance keeps its history but
    its index is rewritten from 2 to 1, so more than group, group order and
    CORS flag changes. *)
Lemma reconciliation_rewrites_index :
  ∃ old new,
    store Witness.pair !! 1%nat = Some old
    ∧ store (Examples.update Witness.pair Examples.swapped) !! 1%nat = Some new
    ∧ URL old ∈ registryURLs Witness.pair
    ∧ URL old ∈ registryURLs (Examples.update Witness.pair Examples.swapped)
    ∧ Index old = 2 ∧ Index new = 1
    ∧ ¬ onlyRegrouped old new.
Proof.
  eexists _, _. split; [reflexivity|]. split; [vm_compute; reflexivity|].
  split; [vm_compute; apply list_elem_of_In; simpl; tauto|].
  split; [vm_compute; apply list_elem_of_In; simpl; tauto|].
  split; [reflexivity|]. split; [reflexivity|].
  intros (_ & _ & Hindex & _). discriminate Hindex.
Qed.

(** One URL under an API group and under a UI group, fetched twice with a
    check cycle in between.  The URL index keeps the later of the two
    instances, the UI one; the second walk hands it to the API group, with
    its type and its history, makes a new instance for the UI group, and
    drops the API instance with its history. *)
Lemma shared_url_moves_history :
  let m1 := Examples.update (NewMonitor Examples.defaultConfig) Examples.shared in
  ∃ m2,
    checkAll m1 Witness.allUp = Some m2
    ∧ let m3 := Examples.update m2 Examples.shared in
      instances m1 = [0%nat; 1%nat]
      ∧ (InstanceType <$> store m1) = ["api"; "ui"]
      ∧ instances m3 = [1%nat; 2%nat]
      ∧ (Group <$> store m3) = ["g"; "g"; "h"]
      ∧ (InstanceType <$> store m3) = ["api"; "ui"; "ui"]
      ∧ (length ∘ Checks <$> store m3) = [1%nat; 1%nat; 0%nat].
Proof. eexists. split; [vm_compute; reflexivity|]. vm_compute. repeat split. Qed.

(** C3 at a payload whose API section has a group called "ui": the
    extractor takes that group's object for the UI section, recovers the
    names "urls" and "cors", the UI walk finds neither in the parsed UI
    section, and [http://b], listed under the UI group "web", is not in the
    registry after the successful reconciliation. *)
Theorem shadowed_section_loses_urls :
  let result :=
    updateInstances Examples.Unmarshal Examples.rangeGroups
      (NewMonitor Examples.defaultConfig) (Examples.fetched Examples.shadowed) in
  (∃ data, Examples.Unmarshal Examples.shadowed = Some data
     ∧ UI data !! "web" = Some ["http://b"])
  ∧ extractOrderFromJSON Examples.rangeGroups Examples.shadowed "ui"
    = ["urls"; "cors"]
  ∧ result.2 = None
  ∧ registryURLs result.1 = ["http://a"]
  ∧ "http://b" ∉ registryURLs result.1.
Proof.
  split; [eexists; split; reflexivity|].
  split; [vm_compute; reflexivity|]. split; [reflexivity|].
  assert (Hurls : registryURLs
            (updateInstances Examples.Unmarshal Examples.rangeGroups
               (NewMonitor Examples.defaultConfig)
               (Examples.fetched Examples.shadowed)).1 = ["http://a"])
    by (vm_compute; reflexivity).
  split; [exact Hurls|]. rewrite Hurls.
  intros Hin%list_elem_of_singleton. discriminate Hin.
Qed.

(** ** Broadcasts *)

Lemma checkEach_spec (snapshot : list nat) :
  ∀ (m : Monitor) (i : nat) (net : nat -> string -> Probe),
    0 <= MaxCheckHistory (config m) →
    (∀ p, p ∈ snapshot → (p < length (store m))%nat) →
    ∃ m', checkEach m i snapshot net = Some m'
      ∧ config m' = config m ∧ instances m' = instances m
      ∧ events m' = events m ∧ length (store m') = length (store m)
      ∧ (URL <$> store m') = (URL <$> store m).
Proof.
  induction snapshot as [|p rest IH]; intros m i net Hmax Hvalid; simpl.
  - by exists m.
  - assert (is_Some (store m !! p)) as [inst Hinst].
    { apply lookup_lt_is_Some, Hvalid. by left. }
    rewrite (checkInstance_Some m p inst (net i) Hmax Hinst). simpl.
    match goal with |- context [checkEach ?x _ _ _] => set (m1' := x) end.
    destruct (IH m1' (S i) net) as (m' & Hrun & Hc & Hi & He & Hl & Hu).
    { done. }
    { intros q Hq. simpl. rewrite length_insert. apply Hvalid. by right. }
    exists m'. rewrite Hrun, Hc, Hi, He, Hl, Hu. simpl. rewrite length_insert.
    repeat split; try done.
    rewrite list_fmap_insert. simpl. apply list_insert_id.
    by rewrite list_lookup_fmap, Hinst.
Qed.

(** Every check cycle of a monitor whose registry points into its store
    ends with a broadcast of the state the probes left. *)
Lemma checkAll_broadcasts (m : Monitor) (net : nat -> string -> Probe) :
  0 <= MaxCheckHistory (config m) →
  (∀ p, p ∈ instances m → (p < length (store m))%nat) →
  ∃ m1 m',
    checkEach m 0 (instances m) net = Some m1
    ∧ checkAll m net = Some m'
    ∧ events m' = events m ++ [Broadcast (GetInstancesData m1) (GetStatsData m1)].
Proof.
  intros Hmax Hvalid.
  destruct (checkEach_spec (instances m) m 0%nat net Hmax Hvalid)
    as (m1 & Hrun & _ & _ & He & _ & _).
  exists m1, (broadcastUpdate m1). unfold checkAll. rewrite Hrun. simpl.
  by rewrite He.
Qed.

Lemma kept_created (n : nat) (updated : list nat) :
  (keptCount n updated + createdCount n updated)%nat = length updated.
Proof.
  unfold keptCount, createdCount.
  induction updated as [|p rest IH]; [done|].
  rewrite !filter_cons. destruct (decide (p < n)%nat).
  - rewrite decide_False by lia. simpl. lia.
  - rewrite decide_True by lia. simpl. lia.
Qed.

Lemma visit_count (n : nat) (w : Walk) (v : Visit) :
  (∀ u p, existingInstances w !! u = Some p → (p < n)%nat) →
  (n <= length (w_store w))%nat →
  (size (existingInstances (visit w v)) + keptCount n (updatedInstances (visit w v))
   = size (existingInstances w) + keptCount n (updatedInstances w))%nat
  ∧ (∀ u p, existingInstances (visit w v) !! u = Some p → (p < n)%nat)
  ∧ (n <= length (w_store (visit w v)))%nat.
Proof.
  intros Hold Hn. unfold visit, visitURL, keptCount.
  destruct (existingInstances w !! v_url v) as [p|] eqn:Hlook; simpl.
  - rewrite map_size_delete, Hlook, filter_app, length_app, filter_cons, filter_nil.
    rewrite decide_True by (by eapply Hold). simpl.
    assert (size (existingInstances w) ≠ 0%nat).
    { intros Hz%map_size_empty_inv. by rewrite Hz in Hlook. }
    split; [lia|]. split; [|by rewrite length_alter].
    intros u q Hq. apply lookup_delete_Some in Hq as [_ Hq]. by eapply Hold.
  - rewrite filter_app, length_app, filter_cons, filter_nil.
    rewrite decide_False by lia. simpl. split; [lia|]. split; [done|].
    rewrite length_app. lia.
Qed.

Lemma walk_count (n : nat) (vs : list Visit) :
  ∀ w,
    (∀ u p, existingInstances w !! u = Some p → (p < n)%nat) →
    (n <= length (w_store w))%nat →
    (size (existingInstances (fold_left visit vs w))
     + keptCount n (updatedInstances (fold_left visit vs w))
     = size (existingInstances w) + keptCount n (updatedInstances w))%nat.
Proof.
  induction vs as [|v vs IH]; intros w Hold Hn; simpl; [done|].
  destruct (visit_count n w v Hold Hn) as (Hcount & Hold' & Hn').
  rewrite IH by done. exact Hcount.
Qed.

Lemma reconcile_events (m : Monitor) (data : InstancesJSON)
    (apiOrder uiOrder : list string) :
  let w := fold_left visit (plan data apiOrder uiOrder) (startOfWalk m) in
  let addedCount :=
    len (updatedInstances w)
    - (len (instances m) - Z.of_nat (size (existingInstances w))) in
  let removedCount := Z.of_nat (size (existingInstances w)) in
  let m' := reconcile m data apiOrder uiOrder in
  events m' =
    if (0 <? addedCount) || (0 <? removedCount)
    then events m ++ [LogUpdated addedCount removedCount;
                      Broadcast (GetInstancesData m') (GetStatsData m')]
    else events m.
Proof.
  intros w addedCount removedCount m'. subst m'. unfold reconcile.
  fold (startOfWalk m). rewrite walk_plan. fold w. fold addedCount removedCount.
  destruct (_ || _); [|done].
  unfold broadcastUpdate. simpl. by rewrite <- app_assoc.
Qed.

(** On a registry whose URLs are pairwise different, a reconciliation
    logs and broadcasts exactly when it creates or drops an instance, and
    the logged numbers are those of the created and of the dropped
    instances. *)
Lemma distinct_urls_broadcast_iff_changed (m : Monitor) (data : InstancesJSON)
    (apiOrder uiOrder : list string) :
  registryValid m →
  NoDup (registryURLs m) →
  let m' := reconcile m data apiOrder uiOrder in
  let created := createdCount (length (store m)) (instances m') in
  let kept := keptCount (length (store m)) (instances m') in
  (kept <= length (instances m))%nat
  ∧ let dropped := (length (instances m) - kept)%nat in
    if decide (created = 0%nat ∧ dropped = 0%nat)
    then events m' = events m
    else events m' =
           events m ++ [LogUpdated (Z.of_nat created) (Z.of_nat dropped);
                        Broadcast (GetInstancesData m') (GetStatsData m')].
Proof.
  intros Hvalid Hdistinct m' created kept.
  pose proof (reconcile_events m data apiOrder uiOrder) as Hevents.
  destruct (reconcile_fields m data apiOrder uiOrder) as (_ & Hinsts & _).
  fold m' in Hevents, Hinsts. simpl in Hevents, Hinsts.
  set (w := fold_left visit (plan data apiOrder uiOrder) (startOfWalk m)) in *.
  pose proof (walk_count (length (store m)) (plan data apiOrder uiOrder) (startOfWalk m))
    as Hcount.
  fold w in Hcount. simpl in Hcount.
  rewrite (indexByURL_size _ _ Hvalid Hdistinct) in Hcount.
  rewrite <- Hinsts in Hcount. fold kept in Hcount.
  change (keptCount (length (store m)) []) with 0%nat in Hcount.
  assert (Hsize : (size (existingInstances w) + kept = length (instances m))%nat).
  { rewrite Hcount; [lia | | done].
    intros u p Hp. apply indexByURL_Some in Hp as (_ & inst & Hinst & _).
    by eapply lookup_lt_Some. }
  pose proof (kept_created (length (store m)) (instances m')) as Hsum.
  fold kept created in Hsum.
  split; [lia|]. intros dropped.
  assert (Hadded : len (updatedInstances w)
                   - (len (instances m) - Z.of_nat (size (existingInstances w)))
                   = Z.of_nat created).
  { rewrite <- Hinsts. unfold len. lia. }
  assert (Hremoved : Z.of_nat (size (existingInstances w)) = Z.of_nat dropped).
  { unfold dropped. lia. }
  rewrite Hadded, Hremoved in Hevents. rewrite Hevents.
  destruct (decide (created = 0%nat ∧ dropped = 0%nat)) as [[-> ->]|Hchanged].
  - done.
  - replace ((0 <? Z.of_nat created) || (0 <? Z.of_nat dropped)) with true; [done|].
    symmetry. apply orb_true_iff. rewrite !Z.ltb_lt. lia.
Qed.

(** C8 at a registry with a repeated URL.  The first payload lists
    [http://u] twice and yields two instances; the second lists [http://u]
    and [http://v].  The second reconciliation drops instance 0 and adds an
    instance for [http://v], yet [addedCount] and [removedCount] are both
    0: nothing is logged and nothing is broadcast. *)
Theorem repeated_url_hides_membership_change :
  let m1 := Examples.update (NewMonitor Examples.defaultConfig) Examples.twice in
  let m2 := Examples.update m1 Examples.grown in
  registryURLs m1 = ["http://u"; "http://u"]
  ∧ instances m1 = [0%nat; 1%nat]
  ∧ registryURLs m2 = ["http://u"; "http://v"]
  ∧ instances m2 = [1%nat; 2%nat]
  ∧ length (store m1) = 2%nat
  ∧ events m2 = events m1.
Proof. vm_compute. repeat split; reflexivity. Qed.

(** ** Registries stay well formed *)

Lemma NewMonitor_valid (config : Config) : registryValid (NewMonitor config).
Proof. intros p Hp. by apply elem_of_nil in Hp. Qed.

Lemma reconcile_valid (m : Monitor) (data : InstancesJSON)
    (apiOrder uiOrder : list string) :
  registryValid (reconcile m data apiOrder uiOrder)
  ∧ NoDup (instances (reconcile m data apiOrder uiOrder)).
Proof.
  destruct (reconcile_spec m data apiOrder uiOrder) as (_ & Hnodup & _ & Hvalid & _).
  done.
Qed.

Lemma updateInstances_valid (Unmarshal : string -> option InstancesJSON)
    (rangeGroups : string -> nat -> list string) (m : Monitor) (resp : GetResult) :
  registryValid m →
  registryValid (updateInstances Unmarshal rangeGroups m resp).1.
Proof.
  intros Hvalid. destruct resp as [err|status body]; simpl; [done|].
  destruct (negb _); [done|]. destruct body as [body|]; [|done].
  destruct (Unmarshal body); [|done]. apply reconcile_valid.
Qed.

Lemma checkAll_valid (m m' : Monitor) (net : nat -> string -> Probe) :
  0 <= MaxCheckHistory (config m) →
  registryValid m →
  checkAll m net = Some m' →
  registryValid m' ∧ instances m' = instances m
  ∧ registryURLs m' = registryURLs m.
Proof.
  intros Hmax Hvalid. unfold checkAll.
  destruct (checkEach_spec (instances m) m 0%nat net Hmax Hvalid)
    as (m1 & Hrun & _ & Hi & _ & Hl & Hu).
  rewrite Hrun. simpl. intros [= <-]. simpl. split; [|split; [done|]].
  - intros p Hp. simpl in *. rewrite Hl. apply Hvalid. by rewrite <- Hi.
  - unfold registryURLs. simpl. rewrite Hi. apply list_omap_ext.
    apply Forall_Forall2_diag, Forall_forall. intros p _.
    by rewrite <- !list_lookup_fmap, Hu.
Qed.

Lemma updateInstances_config (Unmarshal : string -> option InstancesJSON)
    (rangeGroups : string -> nat -> list string) (m : Monitor) (resp : GetResult) :
  config (updateInstances Unmarshal rangeGroups m resp).1 = config m.
Proof.
  destruct resp as [err|status body]; simpl; [done|].
  destruct (negb _); [done|]. destruct body as [body|]; [|done].
  destruct (Unmarshal body) as [data|]; [|done]. simpl.
  by destruct (reconcile_fields m data (extractOrderFromJSON rangeGroups body "api")
                 (extractOrderFromJSON rangeGroups body "ui")) as (_ & _ & ?).
Qed.

(** With a history bound that is not negative, the loop of [Start] runs
    through any ticks without a panic, from and to monitors whose registry
    points into the store. *)
Lemma onTicks_valid (Unmarshal : string -> option InstancesJSON)
    (rangeGroups : string -> nat -> list string) (arrivals : list Tick) :
  ∀ m, 0 <= MaxCheckHistory (config m) → registryValid m →
    ∃ m', onTicks Unmarshal rangeGroups m arrivals = Some m'
      ∧ registryValid m' ∧ config m' = config m.
Proof.
  induction arrivals as [|tick rest IH]; intros m Hmax Hvalid; simpl.
  - by exists m.
  - destruct tick as [net|resp]; simpl.
    + destruct (checkAll_broadcasts m net Hmax Hvalid) as (m1 & m2 & Hrun & Hcycle & _).
      rewrite Hcycle. simpl.
      destruct (checkAll_valid m m2 net Hmax Hvalid Hcycle) as (Hvalid2 & _ & _).
      assert (Hconfig : config m2 = config m).
      { unfold checkAll in Hcycle. rewrite Hrun in Hcycle. simpl in Hcycle.
        injection Hcycle as <-. simpl.
        by destruct (checkEach_spec (instances m) m 0%nat net Hmax Hvalid)
          as (m1' & Hrun' & Hc & _); rewrite Hrun in Hrun'; injection Hrun' as <-. }
      destruct (IH m2) as (m' & Hm' & Hvalid' & Hc'); [by rewrite Hconfig | done |].
      exists m'. by rewrite Hm', Hc'.
    + pose proof (updateInstances_valid Unmarshal rangeGroups m resp Hvalid) as Hvalid1.
      pose proof (updateInstances_config Unmarshal rangeGroups m resp) as Hconfig.
      destruct (updateInstances Unmarshal rangeGroups m resp) as [m1 err].
      simpl in Hvalid1, Hconfig.
      destruct err as [err|]; simpl.
      * match goal with |- context [onTicks _ _ ?x rest] => set (m2 := x) end.
        destruct (IH m2) as (m' & Hm' & Hvalid' & Hc');
          [subst m2; simpl; by rewrite Hconfig | done |].
        exists m'. rewrite Hm', Hc'. subst m2. simpl. by rewrite Hconfig.
      * destruct (IH m1) as (m' & Hm' & Hvalid' & Hc'); [by rewrite Hconfig | done |].
        exists m'. by rewrite Hm', Hc'.
Qed.

(** * The rest of the program: proofs *)

(** ** The configuration *)

Lemma HasPrefix_colon (s : string) : HasPrefix (":" +:+ s) ":" = true.
Proof. unfold HasPrefix. simpl. by destruct s. Qed.

Lemma getEnv_not_empty (Getenv : string -> string) (key defaultValue : string) :
  defaultValue ≠ "" → getEnv Getenv key defaultValue ≠ "".
Proof.
  intros Hdefault. unfold getEnv.
  destruct (String.eqb_spec (Getenv key) ""); simpl; done.
Qed.

(** The fields of the configuration, with the colon of the port settled. *)
Lemma LoadConfig_fields (Getenv : string -> string) (Atoi : string -> option Z) :
  let config := LoadConfig Getenv Atoi in
  let port := getEnv Getenv "PORT" "8080" in
  Port config = (if HasPrefix port ":" then port else ":" +:+ port)
  ∧ CheckInterval config = getCheckInterval Getenv Atoi
  ∧ InstancesURL config
    = getEnv Getenv "INSTANCES_URL"
        "https://raw.githubusercontent.com/EduardPrigoana/hifi-instances/refs/heads/main/instances.json"
  ∧ RequestTimeout config = getTimeout Getenv Atoi
  ∧ MaxCheckHistory config = getMaxHistory Atoi (Getenv "MAX_CHECK_HISTORY")
  ∧ SSEKeepaliveSeconds config = getSSEKeepalive Getenv Atoi
  ∧ LogLevel config = getEnv Getenv "LOG_LEVEL" "info".
Proof.
  intros config port. subst config. unfold LoadConfig. fold port.
  cbn [Port]. by destruct (HasPrefix port ":").
Qed.

Lemma getSSEKeepalive_ge_1 (Getenv : string -> string) (Atoi : string -> option Z) :
  1 <= getSSEKeepalive Getenv Atoi.
Proof.
  unfold getSSEKeepalive. destruct (String.eqb _ ""); [lia|].
  destruct (Atoi _) as [seconds|]; [|lia].
  destruct (Z.ltb_spec seconds 1); lia.
Qed.

(** X1.  Whatever the environment holds, the configuration [LoadConfig]
    builds has a port that starts with a colon, a history bound and a
    keep-alive interval of at least one, and an instances URL and a log
    level that are not empty.  With [PORT] unset the port is [:8080]; a
    value of [PORT] that starts with a colon is taken as it is, any other
    gets a colon in front. *)
Theorem LoadConfig_well_formed (Getenv : string -> string)
    (Atoi : string -> option Z) :
  let config := LoadConfig Getenv Atoi in
  HasPrefix (Port config) ":" = true
  ∧ 1 <= MaxCheckHistory config
  ∧ 1 <= SSEKeepaliveSeconds config
  ∧ InstancesURL config ≠ ""
  ∧ LogLevel config ≠ ""
  ∧ (Getenv "PORT" = "" → Port config = ":8080")
  ∧ (HasPrefix (Getenv "PORT") ":" = true → Port config = Getenv "PORT")
  ∧ (Getenv "PORT" ≠ "" → HasPrefix (Getenv "PORT") ":" = false →
     Port config = ":" +:+ Getenv "PORT").
Proof.
  intros config.
  destruct (LoadConfig_fields Getenv Atoi) as (Hport & _ & Hurl & _ & Hmax & Hkeep & Hlevel).
  fold config in Hport, Hurl, Hmax, Hkeep, Hlevel.
  rewrite Hport, Hurl, Hmax, Hkeep, Hlevel. clear Hport Hurl Hmax Hkeep Hlevel.
  assert (Henv : getEnv Getenv "PORT" "8080"
                 = if String.eqb (Getenv "PORT") "" then "8080" else Getenv "PORT").
  { unfold getEnv. by destruct (String.eqb (Getenv "PORT") ""). }
  rewrite Henv. clear Henv.
  split.
  { destruct (HasPrefix (if String.eqb (Getenv "PORT") "" then "8080" else Getenv "PORT") ":")
      eqn:Hprefix; [done | apply HasPrefix_colon]. }
  split; [apply getMaxHistory_ge_1|]. split; [apply getSSEKeepalive_ge_1|].
  split; [by apply getEnv_not_empty|]. split; [by apply getEnv_not_empty|].
  destruct (String.eqb_spec (Getenv "PORT") "") as [Hunset|Hset].
  - rewrite Hunset. repeat split; done.
  - split; [done|]. split.
    + by intros ->.
    + by intros _ ->.
Qed.

Lemma int64_wrap_range (z : Z) : int64 (int64_wrap z).
Proof.
  unfold int64, int64_wrap.
  pose proof (Z.mod_pos_bound (z + 2 ^ 63) (2 ^ 64)). lia.
Qed.

Lemma int64_wrap_fixed (z : Z) : int64_wrap z = z ↔ int64 z.
Proof.
  split; [intros <-; apply int64_wrap_range | apply int64_wrap_id].
Qed.

(** X2.  An accepted number of minutes becomes the check interval by an
    [int64] multiplication with [time.Minute]: the interval is that many
    minutes, and positive, exactly up to 153722867 minutes; from 153722868
    on the product wraps around, and 153722868 itself gives a negative
    interval.  The request timeout is the accepted number of seconds
    exactly up to 9223372036 seconds, and negative for 9223372037. *)
Theorem duration_wraps_around (Getenv : string -> string)
    (Atoi : string -> option Z) :
  (∀ minutes,
     Getenv "CHECK_INTERVAL_MINUTES" ≠ "" →
     Atoi (Getenv "CHECK_INTERVAL_MINUTES") = Some minutes →
     1 <= minutes →
     (getCheckInterval Getenv Atoi = minutes * time.Minute
      ↔ minutes <= 153722867)
     ∧ (minutes <= 153722867 → 0 < getCheckInterval Getenv Atoi)
     ∧ (minutes = 153722868 → getCheckInterval Getenv Atoi < 0))
  ∧ (∀ seconds,
       Getenv "REQUEST_TIMEOUT_SECONDS" ≠ "" →
       Atoi (Getenv "REQUEST_TIMEOUT_SECONDS") = Some seconds →
       1 <= seconds →
       (getTimeout Getenv Atoi = seconds * time.Second
        ↔ seconds <= 9223372036)
       ∧ (seconds <= 9223372036 → 0 < getTimeout Getenv Atoi)
       ∧ (seconds = 9223372037 → getTimeout Getenv Atoi < 0)).
Proof.
  split.
  - intros minutes Hset Hatoi Hpos. unfold getCheckInterval.
    destruct (String.eqb_spec (Getenv "CHECK_INTERVAL_MINUTES") ""); [done|].
    rewrite Hatoi. destruct (Z.ltb_spec minutes 1); [lia|].
    rewrite int64_wrap_fixed. unfold int64, time.Minute, time.Second.
    split; [lia|]. split.
    + intros Hfits. rewrite int64_wrap_id; [lia|]. unfold int64. lia.
    + intros ->. vm_compute. reflexivity.
  - intros seconds Hset Hatoi Hpos. unfold getTimeout.
    destruct (String.eqb_spec (Getenv "REQUEST_TIMEOUT_SECONDS") ""); [done|].
    rewrite Hatoi. destruct (Z.ltb_spec seconds 1); [lia|].
    rewrite int64_wrap_fixed. unfold int64, time.Second.
    split; [lia|]. split.
    + intros Hfits. rewrite int64_wrap_id; [lia|]. unfold int64. lia.
    + intros ->. vm_compute. reflexivity.
Qed.

Lemma duration_wraps_around_witness :
  getCheckInterval (Env.all "24") Examples.Atoi = 24 * time.Minute
  ∧ 0 < getTimeout (Env.all "24") Examples.Atoi.
Proof.
  destruct (duration_wraps_around (Env.all "24") Examples.Atoi) as [Hminutes Hseconds].
  split.
  - apply (Hminutes 24); [discriminate | reflexivity | lia | lia].
  - apply (Hseconds 24); [discriminate | reflexivity | lia | lia].
Defined.

(** ** Check cycles *)

Lemma Monitor_eq (m m' : Monitor) :
  store m = store m' → instances m = instances m' → config m = config m' →
  events m = events m' → m = m'.
Proof. destruct m, m'. simpl. by intros -> -> -> ->. Qed.

Lemma checkInstance_probed (m : Monitor) (instance : nat) (inst : Instance)
    (net : string -> Probe) :
  0 <= MaxCheckHistory (config m) →
  store m !! instance = Some inst →
  checkInstance m instance net =
    Some {| store :=
              <[instance := probed (MaxCheckHistory (config m)) net inst]> (store m);
            instances := instances m; config := config m;
            events := events m |}.
Proof. apply checkInstance_Some. Qed.

Lemma checkJobs_spec (net : nat -> string -> Probe) (jobs : list (nat * nat)) :
  ∀ m : Monitor,
    0 <= MaxCheckHistory (config m) →
    (∀ p, p ∈ jobs.*2 → (p < length (store m))%nat) →
    NoDup jobs.*2 →
    ∃ m', checkJobs m jobs net = Some m'
      ∧ config m' = config m ∧ instances m' = instances m
      ∧ events m' = events m ∧ length (store m') = length (store m)
      ∧ (∀ i p, (i, p) ∈ jobs →
           store m' !! p
           = probed (MaxCheckHistory (config m)) (net i) <$> store m !! p)
      ∧ (∀ p, p ∉ jobs.*2 → store m' !! p = store m !! p).
Proof.
  induction jobs as [|[i p] rest IH]; intros m Hmax Hvalid Hnodup.
  - exists m. simpl. repeat split; try done.
    intros i p Hin. by apply elem_of_nil in Hin.
  - simpl in Hnodup. apply NoDup_cons in Hnodup as [Hfresh Hnodup].
    assert (is_Some (store m !! p)) as [inst Hinst].
    { apply lookup_lt_is_Some, Hvalid. simpl. by left. }
    simpl. rewrite (checkInstance_probed m p inst (net i) Hmax Hinst). simpl.
    match goal with |- context [checkJobs ?x rest net] => set (m1 := x) end.
    destruct (IH m1) as (m' & Hrun & Hc & Hi & He & Hl & Hjobs & Hframe);
      [done | | done |].
    { intros q Hq. simpl. rewrite length_insert. apply Hvalid. simpl. by right. }
    exists m'. rewrite Hrun, Hc, Hi, He, Hl. simpl. rewrite length_insert.
    repeat split; try done.
    + intros j q [Heq|Hin]%elem_of_cons.
      * injection Heq as -> ->. rewrite Hframe by done. simpl.
        rewrite list_lookup_insert_eq by (by eapply lookup_lt_Some).
        by rewrite Hinst.
      * rewrite (Hjobs j q Hin). simpl.
        assert (q ≠ p).
        { intros ->. apply Hfresh. apply list_elem_of_fmap. by exists (j, p). }
        by rewrite list_lookup_insert_ne.
    + intros q Hq. simpl in Hq. apply not_elem_of_cons in Hq as [Hne Hq].
      rewrite Hframe by done. simpl. by rewrite list_lookup_insert_ne.
Qed.

Lemma checkEach_jobs (net : nat -> string -> Probe) (snapshot : list nat) :
  ∀ (m : Monitor) (i : nat),
    checkEach m i snapshot net
    = checkJobs m (imap (fun j instance => ((i + j)%nat, instance)) snapshot) net.
Proof.
  induction snapshot as [|p rest IH]; intros m i; simpl; [done|].
  rewrite Nat.add_0_r. destruct (checkInstance m p (net i)) as [m'|]; simpl; [|done].
  rewrite IH. f_equal. apply imap_ext. intros j q _. simpl. f_equal. lia.
Qed.

Lemma jobsOf_instances (snapshot : list nat) : (jobsOf snapshot).*2 = snapshot.
Proof.
  unfold jobsOf. apply list_eq. intros j.
  rewrite list_lookup_fmap, list_lookup_imap. by destruct (snapshot !! j).
Qed.

Lemma jobsOf_elem (snapshot : list nat) (i p : nat) :
  (i, p) ∈ jobsOf snapshot ↔ snapshot !! i = Some p.
Proof.
  unfold jobsOf. rewrite list_elem_of_lookup. split.
  - intros (j & Hj). rewrite list_lookup_imap in Hj.
    destruct (snapshot !! j) as [q|] eqn:Hq; [|done]. simpl in Hj.
    by injection Hj as -> ->.
  - intros Hp. exists i. by rewrite list_lookup_imap, Hp.
Qed.

Lemma checkAll_jobs (m : Monitor) (net : nat -> string -> Probe) :
  checkAll m net = broadcastUpdate <$> checkJobs m (jobsOf (instances m)) net.
Proof.
  unfold checkAll. rewrite checkEach_jobs.
  by destruct (checkJobs m _ net).
Qed.

(** X3.  A check cycle on a registry of pairwise different instances that
    all exist probes every registered instance exactly once: the instance
    at position [j] gets the check of the answer to its own target
    appended, the history being cut to its last [MaxCheckHistory] entries,
    and nothing else of it changes; instances outside the registry, the
    registry itself and the configuration stay as they are, and the cycle
    ends by broadcasting the state the probes left. *)
Theorem check_cycle_probes_each_once (m : Monitor)
    (net : nat -> string -> Probe) :
  0 <= MaxCheckHistory (config m) →
  registryValid m →
  NoDup (instances m) →
  ∃ m', checkAll m net = Some m'
    ∧ instances m' = instances m ∧ config m' = config m
    ∧ length (store m') = length (store m)
    ∧ (∀ j p inst, instances m !! j = Some p → store m !! p = Some inst →
         store m' !! p
         = Some (setChecks
                   (lastN (Z.to_nat (MaxCheckHistory (config m)))
                      (Checks inst ++ [probeCheck (net j (checkURL inst))]))
                   inst))
    ∧ (∀ p, p ∉ instances m → store m' !! p = store m !! p)
    ∧ events m'
      = events m ++ [Broadcast (GetInstancesData m') (GetStatsData m')].
Proof.
  intros Hmax Hvalid Hnodup. rewrite checkAll_jobs.
  destruct (checkJobs_spec net (jobsOf (instances m)) m)
    as (m1 & Hrun & Hc & Hi & He & Hl & Hjobs & Hframe); [done | | |].
  { intros p Hp. rewrite jobsOf_instances in Hp. by apply Hvalid. }
  { by rewrite jobsOf_instances. }
  rewrite Hrun. exists (broadcastUpdate m1). simpl.
  repeat split; try done.
  - intros j p inst Hj Hinst.
    rewrite (Hjobs j p) by (by apply jobsOf_elem). by rewrite Hinst.
  - intros p Hp. apply Hframe. by rewrite jobsOf_instances.
  - by rewrite He.
Qed.

Lemma check_cycle_probes_each_once_witness :
  ∃ m', checkAll Witness.pair Samples.firstUp = Some m'
    ∧ instances m' = [0%nat; 1%nat]
    ∧ length (store m') = 2%nat.
Proof.
  destruct (check_cycle_probes_each_once Witness.pair Samples.firstUp)
    as (m' & Hrun & Hi & _ & Hl & _).
  - simpl. lia.
  - intros p Hp. apply list_elem_of_In in Hp. simpl in *. lia.
  - apply NoDup_ListNoDup. repeat constructor; simpl; intuition lia.
  - exists m'. split; [exact Hrun|]. split; [exact Hi | exact Hl].
Defined.

(** X4.  The outcome of a check cycle does not depend on the order in
    which its probes finish: running the probes of the registered
    instances one after the other in any order, each with the answer the
    network gives to that instance, succeeds and leaves the state the
    cycle broadcasts. *)
Theorem check_cycle_order_irrelevant (m : Monitor)
    (net : nat -> string -> Probe) (jobs : list (nat * nat)) :
  0 <= MaxCheckHistory (config m) →
  registryValid m →
  NoDup (instances m) →
  jobs ≡ₚ jobsOf (instances m) →
  ∃ m1, checkJobs m jobs net = Some m1
    ∧ checkAll m net = Some (broadcastUpdate m1).
Proof.
  intros Hmax Hvalid Hnodup Hperm. rewrite checkAll_jobs.
  assert (Hsnd : jobs.*2 ≡ₚ instances m).
  { rewrite <- (jobsOf_instances (instances m)). by apply fmap_Permutation. }
  destruct (checkJobs_spec net (jobsOf (instances m)) m)
    as (m0 & Hrun0 & Hc0 & Hi0 & He0 & Hl0 & Hjobs0 & Hframe0); [done | | |].
  { intros p Hp. rewrite jobsOf_instances in Hp. by apply Hvalid. }
  { by rewrite jobsOf_instances. }
  destruct (checkJobs_spec net jobs m)
    as (m1 & Hrun1 & Hc1 & Hi1 & He1 & Hl1 & Hjobs1 & Hframe1); [done | | |].
  { intros p Hp. rewrite Hsnd in Hp. by apply Hvalid. }
  { by rewrite Hsnd. }
  exists m1. split; [done|]. rewrite Hrun0. simpl. do 2 f_equal.
  apply Monitor_eq; try congruence.
  apply list_eq. intros p.
  destruct (decide (p ∈ instances m)) as [Hin|Hout].
  - apply list_elem_of_lookup in Hin as [j Hj].
    rewrite (Hjobs0 j p) by (by apply jobsOf_elem).
    rewrite (Hjobs1 j p); [done|]. rewrite Hperm. by apply jobsOf_elem.
  - rewrite Hframe0 by (by rewrite jobsOf_instances).
    rewrite Hframe1; [done|]. by rewrite Hsnd.
Qed.

Lemma check_cycle_order_irrelevant_witness :
  ∃ m1, checkJobs Witness.pair [(1%nat, 1%nat); (0%nat, 0%nat)] Samples.firstUp = Some m1
    ∧ checkAll Witness.pair Samples.firstUp = Some (broadcastUpdate m1).
Proof.
  apply (check_cycle_order_irrelevant Witness.pair Samples.firstUp
           [(1%nat, 1%nat); (0%nat, 0%nat)]).
  - simpl. lia.
  - intros p Hp. apply list_elem_of_In in Hp. simpl in *. lia.
  - apply NoDup_ListNoDup. repeat constructor; simpl; intuition lia.
  - apply Permutation_swap.
Defined.

(** ** Snapshots and statistics *)

Lemma GetInstancesData_live (m : Monitor) :
  GetInstancesData m
  = instanceData <$> omap (fun instance => store m !! instance) (instances m).
Proof.
  unfold GetInstancesData. induction (instances m) as [|p rest IH]; [done|].
  simpl. destruct (store m !! p); simpl; [f_equal|]; exact IH.
Qed.

Lemma live_lookup (s : list Instance) (insts : list nat) :
  (∀ p, p ∈ insts → (p < length s)%nat) →
  ∀ j, omap (fun instance => s !! instance) insts !! j
       = insts !! j ≫= (fun p => s !! p).
Proof.
  induction insts as [|p rest IH]; intros Hvalid j; [done|].
  assert (is_Some (s !! p)) as [inst Hinst].
  { apply lookup_lt_is_Some, Hvalid. by left. }
  simpl. rewrite Hinst. destruct j as [|j]; simpl; [done|].
  apply IH. intros q Hq. apply Hvalid. by right.
Qed.

Lemma GetInstancesData_lookup (m : Monitor) (j : nat) :
  registryValid m →
  GetInstancesData m !! j
  = instanceData <$> (instances m !! j ≫= (fun p => store m !! p)).
Proof.
  intros Hvalid. rewrite GetInstancesData_live, list_lookup_fmap.
  by rewrite live_lookup.
Qed.

Lemma GetInstancesData_length (m : Monitor) :
  (length (GetInstancesData m) <= length (instances m))%nat
  ∧ (registryValid m → length (GetInstancesData m) = length (instances m)).
Proof.
  rewrite GetInstancesData_live, length_fmap. unfold registryValid, omap.
  induction (instances m) as [|p rest [IHle IHeq]]; simpl; [done|].
  destruct (store m !! p) as [inst|] eqn:Hinst; simpl.
  - split; [lia|]. intros Hvalid. f_equal. apply IHeq.
    intros q Hq. apply Hvalid. by right.
  - split; [lia|]. intros Hvalid. exfalso.
    assert (Hp : (p < length (store m))%nat) by (apply Hvalid; by left).
    apply lookup_lt_is_Some in Hp as [? ?]. congruence.
Qed.

Lemma up_loop (live : list Instance) (start : Z) :
  fold_left (fun up instance =>
               if lastSucceeded (Checks instance) then up + 1 else up)
    live start
  = start + len (filter (fun d => reportedUp d = true) (instanceData <$> live)).
Proof.
  revert start. induction live as [|inst live IH]; intros start.
  - simpl. unfold len. simpl. lia.
  - rewrite fmap_cons, filter_cons. cbn [fold_left]. rewrite IH.
    change (reportedUp (instanceData inst)) with (lastSucceeded (Checks inst)).
    destruct (lastSucceeded (Checks inst)).
    + rewrite decide_True by done. unfold len. rewrite length_cons. lia.
    + rewrite decide_False by done. lia.
Qed.

Lemma up_instances_count (m : Monitor) :
  up_instances (GetStatsData m)
  = len (filter (fun d => reportedUp d = true) (GetInstancesData m)).
Proof.
  rewrite GetInstancesData_live. unfold GetStatsData. simpl.
  by rewrite up_loop.
Qed.

(** X5.  The statistics agree with the snapshot taken of the same state:
    [total_instances] is the length of the registry, which is the number
    of elements of the snapshot when every registry entry exists;
    [up_instances] is the number of elements of the snapshot whose last
    check succeeded, so an instance that was never probed counts as down,
    and it lies between 0 and the total; the snapshot lists the registry
    entries in registry order; with an empty registry the average uptime
    is 0. *)
Theorem stats_agree_with_snapshot (m : Monitor) :
  let data := GetInstancesData m in
  let stats := GetStatsData m in
  total_instances stats = len (instances m)
  ∧ up_instances stats = len (filter (fun d => reportedUp d = true) data)
  ∧ 0 <= up_instances stats <= len data
  ∧ len data <= total_instances stats
  ∧ (registryValid m →
     len data = total_instances stats
     ∧ ∀ j p, instances m !! j = Some p →
         ∃ inst, store m !! p = Some inst
           ∧ data !! j = Some (instanceData inst))
  ∧ (instances m = [] → avg_uptime stats = 0%float).
Proof.
  intros data stats. subst data stats.
  destruct (GetInstancesData_length m) as [Hle Heq].
  split; [done|]. split; [apply up_instances_count|].
  split; [|split; [|split]].
  - rewrite up_instances_count. unfold len.
    pose proof (length_filter (fun d => reportedUp d = true) (GetInstancesData m)).
    lia.
  - simpl. unfold len. lia.
  - intros Hvalid. split; [simpl; unfold len; rewrite Heq; done|].
    intros j p Hj.
    assert (is_Some (store m !! p)) as [inst Hinst].
    { apply lookup_lt_is_Some, Hvalid. by eapply list_elem_of_lookup_2. }
    exists inst. split; [done|].
    rewrite GetInstancesData_lookup by done. by rewrite Hj; simpl; rewrite Hinst.
  - intros Hempty. unfold GetStatsData. simpl. by rewrite Hempty.
Qed.

Lemma probeCheck_success (probe : Probe) :
  Success (probeCheck probe) = true
  ↔ ∃ status, result probe = ProbeResponse status ∧ 200 <= status < 300.
Proof.
  unfold probeCheck. destruct (result probe) as [err|status]; simpl.
  - split; [done | by intros (status & ? & _)].
  - rewrite andb_true_iff, Z.leb_le, Z.ltb_lt. split.
    + intros H. by exists status.
    + by intros (status' & [= <-] & H).
Qed.

(** X6.  With a history bound of at least one, the broadcast that ends a
    check cycle reports that very cycle: it is the last event, its
    snapshot has one element per registry entry, in registry order, whose
    last check is the check of this cycle's probe of that instance, the
    instance counts as up exactly when that probe was answered with a
    status from 200 to 299, and [up_instances] counts these instances. *)
Theorem cycle_broadcast_reports_cycle (m : Monitor)
    (net : nat -> string -> Probe) :
  1 <= MaxCheckHistory (config m) →
  registryValid m →
  NoDup (instances m) →
  ∃ m' data stats,
    checkAll m net = Some m'
    ∧ last (events m') = Some (Broadcast data stats)
    ∧ data = GetInstancesData m' ∧ stats = GetStatsData m'
    ∧ length data = length (instances m)
    ∧ (∀ j p inst, instances m !! j = Some p → store m !! p = Some inst →
         ∃ d, data !! j = Some d
           ∧ InstanceData.URL d = URL inst
           ∧ InstanceData.LastCheck d
             = Some (probeCheck (net j (checkURL inst)))
           ∧ (reportedUp d = true
              ↔ ∃ status, result (net j (checkURL inst)) = ProbeResponse status
                  ∧ 200 <= status < 300))
    ∧ up_instances stats = len (filter (fun d => reportedUp d = true) data).
Proof.
  intros Hmax Hvalid Hnodup. rewrite checkAll_jobs.
  destruct (checkJobs_spec net (jobsOf (instances m)) m)
    as (m1 & Hrun & Hc & Hi & He & Hl & Hjobs & Hframe); [lia | | |].
  { intros p Hp. rewrite jobsOf_instances in Hp. by apply Hvalid. }
  { by rewrite jobsOf_instances. }
  assert (Hvalid1 : registryValid m1).
  { intros p Hp. rewrite Hl. apply Hvalid. by rewrite <- Hi. }
  rewrite Hrun. simpl.
  exists (broadcastUpdate m1), (GetInstancesData m1), (GetStatsData m1).
  split; [done|]. split; [simpl; by rewrite last_snoc|].
  split; [done|]. split; [done|]. split; [|split].
  - destruct (GetInstancesData_length m1) as [_ Hlen]. by rewrite Hlen, Hi.
  - intros j p inst Hj Hinst.
    rewrite GetInstancesData_lookup, Hi, Hj by done. simpl.
    rewrite (Hjobs j p) by (by apply jobsOf_elem). rewrite Hinst. simpl.
    eexists. split; [done|]. split; [done|].
    assert (Hlast : last (lastN (Z.to_nat (MaxCheckHistory (config m)))
                            (Checks inst ++ [probeCheck (net j (checkURL inst))]))
                    = Some (probeCheck (net j (checkURL inst))))
      by (apply last_lastN_snoc; lia).
    split; [exact Hlast|].
    unfold reportedUp. simpl. rewrite Hlast. apply probeCheck_success.
  - apply up_instances_count.
Qed.

Lemma cycle_broadcast_reports_cycle_witness :
  ∃ m' data stats,
    checkAll Witness.pair Samples.firstUp = Some m'
    ∧ last (events m') = Some (Broadcast data stats)
    ∧ length data = 2%nat.
Proof.
  destruct (cycle_broadcast_reports_cycle Witness.pair Samples.firstUp)
    as (m' & data & stats & Hrun & Hlast & _ & _ & Hlen & _).
  - simpl. lia.
  - intros p Hp. apply list_elem_of_In in Hp. simpl in *. lia.
  - apply NoDup_ListNoDup. repeat constructor; simpl; intuition lia.
  - exists m', data, stats. split; [exact Hrun|]. split; [exact Hlast | exact Hlen].
Defined.

(** ** Well-formed monitors *)






(** The fields of the [j]-th registry entry after a reconciliation. *)
Lemma reconcile_entry (m : Monitor) (data : InstancesJSON)
    (apiOrder uiOrder : list string) (j p : nat) :
  let m' := reconcile m data apiOrder uiOrder in
  instances m' !! j = Some p →
  ∃ v inst',
    plan data apiOrder uiOrder !! j = Some v
    ∧ store m' !! p = Some inst'
    ∧ Index inst' = Z.of_nat j + 1 ∧ GroupOrder inst' = v_order v
    ∧ Group inst' = v_group v ∧ Cors inst' = v_cors v ∧ URL inst' = v_url v.
Proof.
  intros m' Hp.
  destruct (reconcile_spec m data apiOrder uiOrder)
    as (Hlen & _ & _ & _ & _ & Hentry).
  fold m' in Hlen, Hentry.
  assert (is_Some (plan data apiOrder uiOrder !! j)) as [v Hv].
  { apply lookup_lt_is_Some. rewrite <- Hlen. by eapply lookup_lt_Some. }
  destruct (Hentry j v Hv) as (p' & Hp' & Hcase).
  rewrite Hp in Hp'. injection Hp' as <-. exists v.
  rewrite (reused_urls _ _ j v Hv) in Hcase.
  destruct (decide _); [destruct Hcase as [_ ->]; by eexists|].
  destruct (indexByURL _ _ !! v_url v) as [q|] eqn:Hq.
  - destruct Hcase as [-> ->].
    destruct (indexByURL_sound _ _ _ _ Hq) as (inst & -> & Hurl).
    by eexists.
  - destruct Hcase as [_ ->]. by eexists.
Qed.








(** ** The URLs of the registry *)

Lemma groupVisits_urls (rank : nat) (g : WalkedGroup) :
  v_url <$> groupVisits rank g = g_urls g.
Proof.
  unfold groupVisits. rewrite <- list_fmap_compose. apply list_fmap_id.
Qed.

Lemma ranked_url_list (gs : list WalkedGroup) :
  ∀ k, v_url <$> ranked k gs = concat (g_urls <$> gs).
Proof.
  induction gs as [|g gs IH]; intros k; [done|].
  rewrite ranked_cons, fmap_app, groupVisits_urls, IH. done.
Qed.

Lemma apiGroups_url_list (data : InstancesJSON) (apiOrder : list string) :
  concat (g_urls <$> apiGroups data apiOrder)
  = apiOrder ≫= (fun group => default [] (URLs <$> API data !! group)).
Proof.
  unfold apiGroups. induction apiOrder as [|group rest IH]; [done|].
  rewrite bind_cons. simpl. destruct (API data !! group); simpl; [f_equal|]; exact IH.
Qed.

Lemma uiGroups_url_list (data : InstancesJSON) (uiOrder : list string) :
  concat (g_urls <$> uiGroups data uiOrder)
  = uiOrder ≫= (fun group => default [] (UI data !! group)).
Proof.
  unfold uiGroups. induction uiOrder as [|group rest IH]; [done|].
  rewrite bind_cons. simpl. destruct (UI data !! group); simpl; [f_equal|]; exact IH.
Qed.

Lemma plan_url_list (data : InstancesJSON) (apiOrder uiOrder : list string) :
  v_url <$> plan data apiOrder uiOrder
  = (apiOrder ≫= (fun group => default [] (URLs <$> API data !! group)))
    ++ (uiOrder ≫= (fun group => default [] (UI data !! group))).
Proof.
  rewrite plan_ranked, ranked_url_list. unfold walkedGroups.
  by rewrite fmap_app, concat_app, apiGroups_url_list, uiGroups_url_list.
Qed.

(** X8.  After a successful refresh the URLs of the registry, in registry
    order, are the URL lists of the API groups in the order the extractor
    recovered for the API section, followed by the URL lists of the UI
    groups in the order recovered for the UI section; a recovered name
    the parsed section does not know contributes nothing, and a group
    whose name was not recovered is left out.  When the extractor
    recovers every group name of both sections, the registry holds
    exactly the URLs the payload lists. *)
Theorem registry_lists_recovered_groups
    (Unmarshal : string -> option InstancesJSON)
    (rangeGroups : string -> nat -> list string)
    (m m' : Monitor) (resp : GetResult) :
  updateInstances Unmarshal rangeGroups m resp = (m', None) →
  ∃ body data,
    resp = GetResponse 200 (Some body) ∧ Unmarshal body = Some data
    ∧ let apiOrder := extractOrderFromJSON rangeGroups body "api" in
      let uiOrder := extractOrderFromJSON rangeGroups body "ui" in
      registryURLs m'
      = (apiOrder ≫= (fun group => default [] (URLs <$> API data !! group)))
        ++ (uiOrder ≫= (fun group => default [] (UI data !! group)))
      ∧ ((∀ group, is_Some (API data !! group) → group ∈ apiOrder) →
         (∀ group, is_Some (UI data !! group) → group ∈ uiOrder) →
         ∀ u, u ∈ registryURLs m'
              ↔ (∃ group details,
                   API data !! group = Some details ∧ u ∈ URLs details)
                ∨ (∃ group urls, UI data !! group = Some urls ∧ u ∈ urls)).
Proof.
  intros Hok.
  destruct (updateInstances_success _ _ _ _ _ Hok) as (body & data & -> & Hdata & ->).
  exists body, data. split; [done|]. split; [done|]. intros apiOrder uiOrder.
  rewrite reconcile_registryURLs. split; [apply plan_url_list|].
  intros Hapi Hui u. rewrite plan_urls. split.
  - intros [(group & details & _ & Hd & Hu) | (group & urls & _ & Hd & Hu)].
    + left. by exists group, details.
    + right. by exists group, urls.
  - intros [(group & details & Hd & Hu) | (group & urls & Hd & Hu)].
    + left. exists group, details. split; [|done]. apply Hapi. by rewrite Hd.
    + right. exists group, urls. split; [|done]. apply Hui. by rewrite Hd.
Qed.

Lemma registry_lists_recovered_groups_witness :
  registryURLs (Examples.update (NewMonitor Examples.defaultConfig) Examples.declared)
  = ["http://b"; "http://a"].
Proof.
  destruct (registry_lists_recovered_groups Examples.Unmarshal Examples.rangeGroups
              (NewMonitor Examples.defaultConfig)
              (Examples.update (NewMonitor Examples.defaultConfig) Examples.declared)
              (Examples.fetched Examples.declared) eq_refl)
    as (body & data & Hresp & Hdata & Hurls & _).
  injection Hresp as <-. injection Hdata as <-.
  rewrite Hurls. vm_compute. reflexivity.
Defined.

(** ** The first load *)






(** ** Refreshing a registry of pairwise different URLs *)

Lemma NoDup_omap_domain {A B} (f : A → option B) (l : list A) :
  (∀ x, x ∈ l → is_Some (f x)) → NoDup (omap f l) → NoDup l.
Proof.
  induction l as [|x l IH]; intros Hdom Hnodup; [constructor|].
  destruct (Hdom x) as [y Hy]; [by left|].
  simpl in Hnodup. rewrite Hy in Hnodup. apply NoDup_cons in Hnodup as [Hx Hnodup].
  constructor.
  - intros Hin. apply Hx. apply list_elem_of_omap. by exists x.
  - apply IH; [|done]. intros z Hz. apply Hdom. by right.
Qed.

Lemma registry_NoDup (m : Monitor) :
  registryValid m → NoDup (registryURLs m) → NoDup (instances m).
Proof.
  intros Hvalid. apply NoDup_omap_domain. intros p Hp.
  apply fmap_is_Some, lookup_lt_is_Some. by apply Hvalid.
Qed.

Lemma registryURLs_length (m : Monitor) :
  registryValid m → length (registryURLs m) = length (instances m).
Proof.
  unfold registryValid, registryURLs, omap.
  induction (instances m) as [|p rest IH]; intros Hvalid; [done|].
  assert (is_Some (store m !! p)) as [inst Hinst].
  { apply lookup_lt_is_Some, Hvalid. by left. }
  simpl. rewrite Hinst. simpl. f_equal. apply IH.
  intros q Hq. apply Hvalid. by right.
Qed.

Lemma registryURLs_lookup (m : Monitor) (j p : nat) (inst : Instance) :
  registryValid m →
  instances m !! j = Some p → store m !! p = Some inst →
  registryURLs m !! j = Some (URL inst).
Proof.
  unfold registryValid, registryURLs, omap. revert j.
  induction (instances m) as [|q rest IH]; intros j Hvalid Hj Hinst; [done|].
  assert (is_Some (store m !! q)) as [instq Hq].
  { apply lookup_lt_is_Some, Hvalid. by left. }
  simpl. rewrite Hq. simpl. destruct j as [|j]; simpl in *.
  - injection Hj as ->. congruence.
  - apply IH; [|done..]. intros r Hr. apply Hvalid. by right.
Qed.

Lemma NoDup_not_in_take {A} (l : list A) (j : nat) (x : A) :
  NoDup l → l !! j = Some x → x ∉ take j l.
Proof.
  intros Hnodup Hj (i & Hi & Hlt)%elem_of_take.
  pose proof (NoDup_lookup l i j x Hnodup Hi Hj). lia.
Qed.

Lemma createdCount_0 (n : nat) (updated : list nat) :
  createdCount n updated = 0%nat ↔ ∀ p, p ∈ updated → (p < n)%nat.
Proof.
  unfold createdCount. induction updated as [|q rest IH].
  - split; [intros _ p Hp; by apply elem_of_nil in Hp | done].
  - rewrite filter_cons. destruct (decide (n <= q)%nat) as [Hq|Hq]; simpl.
    + split; [done|]. intros Hall. specialize (Hall q (list_elem_of_here _ _)). lia.
    + rewrite IH. split.
      * intros Hall p [->|Hp]%elem_of_cons; [lia | by apply Hall].
      * intros Hall p Hp. apply Hall. by right.
Qed.

(** The store grows by the instances a walk creates. *)
Lemma visit_store_length (n : nat) (w : Walk) (v : Visit) :
  (∀ u p, existingInstances w !! u = Some p → (p < n)%nat) →
  length (w_store w) = (n + createdCount n (updatedInstances w))%nat →
  length (w_store (visit w v))
  = (n + createdCount n (updatedInstances (visit w v)))%nat.
Proof.
  intros Hold Hlen. unfold visit, visitURL, createdCount in *.
  destruct (existingInstances w !! v_url v) as [p|] eqn:Hlook; simpl.
  - rewrite length_alter, filter_app, length_app, filter_cons, filter_nil.
    specialize (Hold _ _ Hlook). rewrite decide_False by lia. simpl. lia.
  - rewrite length_app, filter_app, length_app, filter_cons, filter_nil.
    rewrite decide_True by lia. simpl. lia.
Qed.

Lemma walk_store_length (n : nat) (vs : list Visit) :
  ∀ w,
    (∀ u p, existingInstances w !! u = Some p → (p < n)%nat) →
    length (w_store w) = (n + createdCount n (updatedInstances w))%nat →
    length (w_store (fold_left visit vs w))
    = (n + createdCount n (updatedInstances (fold_left visit vs w)))%nat.
Proof.
  induction vs as [|v vs IH]; intros w Hold Hlen; simpl; [done|].
  apply IH.
  - by destruct (visit_count n w v Hold) as (_ & ? & _); [lia|].
  - by apply visit_store_length.
Qed.

Lemma reconcile_store_length (m : Monitor) (data : InstancesJSON)
    (apiOrder uiOrder : list string) :
  let m' := reconcile m data apiOrder uiOrder in
  length (store m')
  = (length (store m) + createdCount (length (store m)) (instances m'))%nat.
Proof.
  intros m'. subst m'.
  destruct (reconcile_fields m data apiOrder uiOrder) as (-> & -> & _).
  rewrite assignIndex_length. apply walk_store_length.
  - intros u p Hp. simpl in Hp.
    apply indexByURL_Some in Hp as (_ & inst & Hinst & _).
    by eapply lookup_lt_Some.
  - simpl. unfold createdCount. simpl. lia.
Qed.

(** What a reconciliation keeps of every instance that existed. *)
Lemma reconcile_old_instance (m : Monitor) (data : InstancesJSON)
    (apiOrder uiOrder : list string) (p : nat) (inst : Instance) :
  store m !! p = Some inst →
  ∃ inst', store (reconcile m data apiOrder uiOrder) !! p = Some inst'
    ∧ Checks inst' = Checks inst ∧ URL inst' = URL inst
    ∧ InstanceType inst' = InstanceType inst.
Proof.
  intros Hinst.
  destruct (reconcile_spec m data apiOrder uiOrder)
    as (Hlen & _ & _ & _ & Hframe & Hentry).
  set (m' := reconcile m data apiOrder uiOrder) in *.
  assert (Hp : (p < length (store m))%nat) by (by eapply lookup_lt_Some).
  destruct (decide (p ∈ instances m')) as [Hin|Hnot].
  - apply list_elem_of_lookup in Hin as [j Hj].
    assert (is_Some (plan data apiOrder uiOrder !! j)) as [v Hv].
    { apply lookup_lt_is_Some. rewrite <- Hlen. by eapply lookup_lt_Some. }
    destruct (Hentry j v Hv) as (p' & Hp' & Hcase).
    rewrite Hj in Hp'. injection Hp' as <-.
    destruct (reused _ _ j) as [q|].
    + destruct Hcase as [_ ->]. rewrite Hinst. simpl. by eexists.
    + destruct Hcase as [Hfresh _]. lia.
  - rewrite Hframe by done. by exists inst.
Qed.

(** Which instance a reconciliation puts at position [j] when the URLs
    of the old registry are pairwise different and the URL of the [j]-th
    visit occurs there and not earlier in the walk: the registered one. *)
Lemma reconcile_reuses_registered (m : Monitor) (data : InstancesJSON)
    (apiOrder uiOrder : list string) (j p : nat) (v : Visit) (inst : Instance) :
  NoDup (registryURLs m) →
  plan data apiOrder uiOrder !! j = Some v →
  v_url v ∉ take j (v_url <$> plan data apiOrder uiOrder) →
  p ∈ instances m → store m !! p = Some inst → URL inst = v_url v →
  let m' := reconcile m data apiOrder uiOrder in
  instances m' !! j = Some p
  ∧ store m' !! p
    = Some (setIndex (Z.of_nat j + 1)
              (regroup (v_group v) (v_order v) (v_cors v) inst)).
Proof.
  intros Hdistinct Hv Hfirst Hin Hinst Hurl m'.
  destruct (reconcile_spec m data apiOrder uiOrder)
    as (_ & _ & _ & _ & _ & Hentry).
  destruct (Hentry j v Hv) as (p' & Hp' & Hcase).
  rewrite (reused_urls _ _ j v Hv) in Hcase.
  rewrite decide_False in Hcase by done.
  rewrite <- Hurl in Hcase.
  rewrite (indexByURL_registered _ _ Hdistinct p inst Hin Hinst) in Hcase.
  destruct Hcase as [-> Hstore]. split; [done|].
  fold m' in Hstore. rewrite Hstore, Hinst. done.
Qed.

Lemma regroup_same (inst : Instance) (i : Z) (group : string) (groupIndex : Z)
    (cors : bool) :
  Index inst = i → Group inst = group → GroupOrder inst = groupIndex →
  Cors inst = cors →
  setIndex i (regroup group groupIndex cors inst) = inst.
Proof. destruct inst. simpl. by intros -> -> -> ->. Qed.

(** Reconciling a registry that a walk without repeated URLs just built
    with the same walk again changes nothing. *)
Lemma reconcile_again (m : Monitor) (data : InstancesJSON)
    (apiOrder uiOrder : list string) :
  let m1 := reconcile m data apiOrder uiOrder in
  NoDup (registryURLs m1) →
  reconcile m1 data apiOrder uiOrder = m1.
Proof.
  intros m1 Hdistinct.
  set (vs := plan data apiOrder uiOrder).
  destruct (reconcile_valid m data apiOrder uiOrder) as [Hvalid1 Hnodup1].
  fold m1 in Hvalid1, Hnodup1.
  destruct (reconcile_spec m data apiOrder uiOrder) as (Hlen1 & _).
  fold m1 vs in Hlen1.
  set (m2 := reconcile m1 data apiOrder uiOrder).
  destruct (reconcile_spec m1 data apiOrder uiOrder)
    as (Hlen2 & _ & _ & _ & Hframe2 & _).
  fold m2 vs in Hlen2, Hframe2.
  assert (Hurls : v_url <$> vs = registryURLs m1)
    by (symmetry; apply reconcile_registryURLs).
  assert (Hsame : ∀ j p, instances m1 !! j = Some p →
            instances m2 !! j = Some p ∧ store m2 !! p = store m1 !! p).
  { intros j p Hj.
    destruct (reconcile_entry m data apiOrder uiOrder j p Hj)
      as (v & inst1 & Hv & Hinst1 & Hindex & Horder & Hgroup & Hcors & Hurl).
    fold m1 in Hinst1. fold vs in Hv.
    destruct (reconcile_reuses_registered m1 data apiOrder uiOrder j p v inst1)
      as [Hj2 Hstore2]; try done.
    - fold vs. rewrite Hurls. apply NoDup_not_in_take; [done|].
      by rewrite <- Hurls, list_lookup_fmap, Hv.
    - by eapply list_elem_of_lookup_2.
    - fold m2 in Hj2, Hstore2. split; [done|].
      rewrite Hstore2, Hinst1. f_equal. by apply regroup_same. }
  assert (Hinsts : instances m2 = instances m1).
  { apply list_eq_same_length with (length vs); [done | done |].
    intros j p2 p1 _ Hp2 Hp1. destruct (Hsame j p1 Hp1) as [Hp2' _]. congruence. }
  assert (Hlength : length (store m2) = length (store m1)).
  { pose proof (reconcile_store_length m1 data apiOrder uiOrder) as Hl.
    fold m2 in Hl. simpl in Hl. rewrite Hl.
    replace (createdCount (length (store m1)) (instances m2)) with 0%nat; [lia|].
    symmetry. apply createdCount_0. intros p Hp. apply Hvalid1. by rewrite <- Hinsts. }
  apply Monitor_eq.
  - apply list_eq. intros p.
    destruct (decide (p ∈ instances m1)) as [Hin|Hout].
    + apply list_elem_of_lookup in Hin as [j Hj]. by destruct (Hsame j p Hj).
    + destruct (decide (p < length (store m1))%nat) as [Hp|Hp].
      * apply Hframe2; [done|]. by rewrite Hinsts.
      * rewrite !lookup_ge_None_2; [done | lia | lia].
  - done.
  - by destruct (reconcile_fields m1 data apiOrder uiOrder) as (_ & _ & ?).
  - destruct (distinct_urls_broadcast_iff_changed m1 data apiOrder uiOrder
                Hvalid1 Hdistinct) as [Hkept Hevents].
    fold m2 in Hkept, Hevents. simpl in Hkept, Hevents.
    pose proof (kept_created (length (store m1)) (instances m2)) as Hsum.
    assert (Hcreated : createdCount (length (store m1)) (instances m2) = 0%nat).
    { apply createdCount_0. intros p Hp. apply Hvalid1. by rewrite <- Hinsts. }
    rewrite Hcreated in Hsum, Hevents.
    assert (Hl : length (instances m2) = length (instances m1)) by (by rewrite Hinsts).
    rewrite decide_True in Hevents; [done|]. split; [done|]. lia.
Qed.

Lemma reconcile_silent_iff (m : Monitor) (data : InstancesJSON)
    (apiOrder uiOrder : list string) :
  registryValid m →
  NoDup (registryURLs m) →
  let m' := reconcile m data apiOrder uiOrder in
  (events m' = events m ↔ registryURLs m' ≡ₚ registryURLs m)
  ∧ (events m' = events m
     ∨ ∃ addedCount removedCount,
         events m' = events m ++ [LogUpdated addedCount removedCount;
                                  Broadcast (GetInstancesData m') (GetStatsData m')]).
Proof.
  intros Hvalid Hdistinct m'.
  set (vs := plan data apiOrder uiOrder).
  destruct (distinct_urls_broadcast_iff_changed m data apiOrder uiOrder
              Hvalid Hdistinct) as [Hkept Hevents].
  fold m' in Hkept, Hevents. simpl in Hkept, Hevents.
  pose proof (kept_created (length (store m)) (instances m')) as Hsum.
  destruct (reconcile_spec m data apiOrder uiOrder)
    as (Hlen & Hnodup' & _ & _ & _ & Hentry).
  fold m' vs in Hlen, Hnodup', Hentry.
  pose proof (reconcile_registryURLs m data apiOrder uiOrder) as Hurls.
  fold m' vs in Hurls.
  set (created := createdCount (length (store m)) (instances m')) in *.
  set (kept := keptCount (length (store m)) (instances m')) in *.
  assert (Hquiet : events m' = events m
                   ↔ created = 0%nat ∧ (length (instances m) - kept)%nat = 0%nat).
  { destruct (decide _) as [Hyes|Hno] in Hevents; [done|].
    split; [|done]. intros Heq. rewrite Heq in Hevents.
    apply (f_equal length) in Hevents. rewrite length_app in Hevents.
    simpl in Hevents. lia. }
  split.
  - rewrite Hquiet. split.
    + (* nothing created, nothing dropped: the same instances *)
      intros [Hcreated Hdropped].
      assert (Hold : ∀ p, p ∈ instances m' → (p < length (store m))%nat)
        by (by apply createdCount_0).
      assert (Hsub : ∀ p, p ∈ instances m' → p ∈ instances m).
      { intros p Hp. pose proof (Hold p Hp) as Hlt.
        apply list_elem_of_lookup in Hp as [j Hj].
        assert (is_Some (vs !! j)) as [v Hv].
        { apply lookup_lt_is_Some. rewrite <- Hlen. by eapply lookup_lt_Some. }
        destruct (Hentry j v Hv) as (p' & Hp' & Hcase).
        rewrite Hj in Hp'. injection Hp' as <-.
        rewrite (reused_urls _ _ j v Hv) in Hcase.
        destruct (decide (v_url v ∈ take j (v_url <$> vs)));
          [destruct Hcase as [? _]; lia|].
        destruct (indexByURL _ _ !! v_url v) as [q|] eqn:Hq;
          [|destruct Hcase as [? _]; lia].
        destruct Hcase as [-> _]. by apply indexByURL_Some in Hq as [? _]. }
      assert (Hperm : instances m' ≡ₚ instances m).
      { apply submseteq_length_Permutation; [by apply NoDup_submseteq | lia]. }
      unfold registryURLs.
      assert (Hkeep : omap (fun p => URL <$> store m' !! p) (instances m')
                      = omap (fun p => URL <$> store m !! p) (instances m')).
      { apply list_omap_ext, Forall_Forall2_diag, Forall_forall.
        intros p Hp.
        assert (is_Some (store m !! p)) as [inst Hinst]
          by (by apply lookup_lt_is_Some, Hold).
        destruct (reconcile_old_instance m data apiOrder uiOrder p inst Hinst)
          as (inst' & Hinst' & _ & Hurl & _).
        fold m' in Hinst'. rewrite Hinst, Hinst'. simpl. by rewrite Hurl. }
      by rewrite Hkeep, Hperm.
    + (* the same URLs: every visit finds its instance *)
      intros Hperm.
      assert (Hwalk : NoDup (v_url <$> vs)) by (by rewrite <- Hurls, Hperm).
      assert (Hlength : length (instances m') = length (instances m)).
      { rewrite <- (registryURLs_length m Hvalid), <- Hperm, Hurls.
        by rewrite length_fmap. }
      assert (Hcreated : created = 0%nat).
      { apply createdCount_0. intros p [j Hj]%list_elem_of_lookup.
        assert (is_Some (vs !! j)) as [v Hv].
        { apply lookup_lt_is_Some. rewrite <- Hlen. by eapply lookup_lt_Some. }
        assert (Hreg : v_url v ∈ registryURLs m).
        { rewrite <- Hperm, Hurls. apply list_elem_of_fmap. exists v.
          split; [done | by eapply list_elem_of_lookup_2]. }
        apply list_elem_of_omap in Hreg as (q & Hq & Hu).
        destruct (store m !! q) as [inst|] eqn:Hinst; [|done]. injection Hu as Hu.
        destruct (reconcile_reuses_registered m data apiOrder uiOrder j q v inst)
          as [Hj' _]; try done.
        - apply NoDup_not_in_take; [done|].
          fold vs. by rewrite list_lookup_fmap, Hv.
        - fold m' in Hj'. rewrite Hj in Hj'. injection Hj' as ->.
          by eapply lookup_lt_Some. }
      split; [done|]. lia.
  - destruct (decide _) as [Hyes|Hno] in Hevents; [by left|].
    right. by eexists _, _.
Qed.

(** X11.  On a registry of existing instances whose URLs are pairwise
    different, a successful refresh is silent, with no line in the log
    and no broadcast, exactly when the new registry lists the same URLs
    as the old one, each once, in whatever order: a refresh that only
    reorders the instances, moves them to other groups or changes CORS
    flags changes the state without telling the clients.  Every other
    successful refresh appends exactly one log line and one broadcast of
    the new state. *)
Theorem refresh_silent_iff_same_urls
    (Unmarshal : string -> option InstancesJSON)
    (rangeGroups : string -> nat -> list string)
    (m m' : Monitor) (resp : GetResult) :
  registryValid m →
  NoDup (registryURLs m) →
  updateInstances Unmarshal rangeGroups m resp = (m', None) →
  (events m' = events m ↔ registryURLs m' ≡ₚ registryURLs m)
  ∧ (events m' = events m
     ∨ ∃ addedCount removedCount,
         events m' = events m ++ [LogUpdated addedCount removedCount;
                                  Broadcast (GetInstancesData m') (GetStatsData m')]).
Proof.
  intros Hvalid Hdistinct Hok.
  destruct (updateInstances_success _ _ _ _ _ Hok) as (body & data & -> & Hdata & ->).
  by apply reconcile_silent_iff.
Qed.

Lemma refresh_silent_iff_same_urls_witness :
  events (Examples.update Witness.pair Examples.swapped) = events Witness.pair.
Proof.
  destruct (refresh_silent_iff_same_urls Examples.Unmarshal Examples.rangeGroups
              Witness.pair (Examples.update Witness.pair Examples.swapped)
              (Examples.fetched Examples.swapped)) as [Hsilent _].
  - intros p Hp. apply list_elem_of_In in Hp. simpl in *. lia.
  - vm_compute. apply NoDup_ListNoDup.
    repeat constructor; simpl; intuition discriminate.
  - reflexivity.
  - apply Hsilent.
    assert (Hnew : registryURLs (Examples.update Witness.pair Examples.swapped)
                   = ["http://v"; "http://u"]) by (vm_compute; reflexivity).
    rewrite Hnew. apply Permutation_swap.
Defined.

(** ** The text of a section *)

Lemma substring_0_0 (s : string) : String.substring 0 0 s = "".
Proof. by destruct s. Qed.

Lemma substring_from (s : string) :
  ∀ p n, String.substring p n s = String.substring 0 n (strings.from s p).
Proof.
  unfold strings.from. induction s as [|c s IH]; intros p n.
  - destruct p, n; done.
  - destruct p as [|p].
    + change (String.length (String c s) - 0)%nat
        with (String.length (String c s)).
      by rewrite substring_all.
    + simpl. apply IH.
Qed.

Lemma from_head (s : string) :
  ∀ (b : nat) (c : ascii),
    String.substring b 1 s = String c "" →
    strings.from s b = String c (strings.from s (S b)).
Proof.
  induction s as [|a s IH]; intros b c Hocc.
  - by destruct b.
  - destruct b as [|b].
    + simpl in Hocc. rewrite substring_0_0 in Hocc. injection Hocc as ->.
      by rewrite from_0, from_S, from_0.
    + rewrite !from_S. by apply IH.
Qed.

Lemma scanBraces_closed (rest : string) (braceCount : Z) (braceEnd : nat) :
  braceCount <= 0 → scanBraces rest braceCount braceEnd = braceEnd.
Proof.
  intros Hle. destruct rest as [|c rest]; simpl; [done|].
  by destruct (Z.ltb_spec 0 braceCount); [lia|].
Qed.

(** The loop of lines 183-190 stops behind the first byte at which the
    counter reaches zero, or at the end of the text. *)
Lemma scanBraces_depth (rest : string) :
  ∀ (braceCount : Z) (braceEnd : nat),
    0 < braceCount →
    ∃ n, scanBraces rest braceCount braceEnd = (braceEnd + n)%nat
      ∧ (n <= String.length rest)%nat
      ∧ (∀ k, (k < n)%nat → 0 < braceCount + depth (firstBytes k rest))
      ∧ (braceCount + depth (firstBytes n rest) = 0
         ∨ n = String.length rest ∧ 0 < braceCount + depth (firstBytes n rest)).
Proof.
  unfold firstBytes.
  induction rest as [|c rest IH]; intros braceCount braceEnd Hopen.
  - exists 0%nat. simpl. split; [lia|]. split; [lia|]. split; [lia|].
    right. split; [done | lia].
  - simpl. destruct (Z.ltb_spec 0 braceCount); [|lia].
    set (step := if Ascii.eqb c lbrace then 1
                 else if Ascii.eqb c rbrace then -1 else 0).
    assert (Hstep : -1 <= step <= 1)
      by (unfold step; destruct (Ascii.eqb c lbrace), (Ascii.eqb c rbrace); lia).
    replace (if Ascii.eqb c lbrace then braceCount + 1
             else if Ascii.eqb c rbrace then braceCount - 1 else braceCount)
      with (braceCount + step)
      by (unfold step; destruct (Ascii.eqb c lbrace), (Ascii.eqb c rbrace); lia).
    destruct (decide (0 < braceCount + step)) as [Hstill|Hdone].
    + destruct (IH (braceCount + step) (S braceEnd) Hstill)
        as (n & -> & Hn & Hprefix & Hend).
      exists (S n). split; [lia|]. split; [lia|]. split.
      * intros [|k] Hk; simpl; [lia|].
        fold step. specialize (Hprefix k). lia.
      * simpl. fold step.
        destruct Hend as [Hzero | [-> Hpos]]; [left; lia | right; split; [done | lia]].
    + rewrite scanBraces_closed by lia.
      exists 1%nat. split; [lia|]. split; [lia|]. split.
      * intros k Hk. replace k with 0%nat by lia. simpl. lia.
      * left. simpl. fold step. rewrite substring_0_0. simpl. lia.
Qed.

Lemma Index_None (s pat : string) :
  pat ≠ "" → strings.Index s pat = None → ∀ p, ¬ occursAt s p pat.
Proof.
  intros Hpat Hnone p Hocc. unfold strings.Index in Hnone.
  by apply (index_correct3 0 p pat s Hnone Hpat); [lia|].
Qed.

(** X12.  How [extractOrderFromJSON] cuts the text of a section out of
    the payload.  There is no section text when the quoted section name
    does not occur in the payload, or no opening brace occurs at or after
    its first occurrence.  Otherwise the text starts at the first opening
    brace at or after the first occurrence of the quoted name, wherever
    in the payload that is, and it is the shortest piece from there in
    which as many braces close as open, braces inside JSON strings
    counted like any other; when the braces never balance it runs to the
    end of the payload. *)
Theorem section_text_balances_braces (jsonStr section : string) :
  match sectionText jsonStr section with
  | None =>
      (∀ p, ¬ occursAt jsonStr p (quoted section))
      ∨ ∃ sectionStart,
          firstAt jsonStr 0 (quoted section) sectionStart
          ∧ ∀ p, (sectionStart <= p)%nat → ¬ occursAt jsonStr p "{"
  | Some s =>
      ∃ sectionStart braceStart n,
        firstAt jsonStr 0 (quoted section) sectionStart
        ∧ firstAt jsonStr sectionStart "{" braceStart
        ∧ let rest := strings.from jsonStr braceStart in
          s = firstBytes n rest
          ∧ (1 <= n <= String.length rest)%nat
          ∧ (∀ k, (1 <= k < n)%nat → 0 < depth (firstBytes k rest))
          ∧ (depth s = 0 ∨ s = rest ∧ 0 < depth s)
  end.
Proof.
  unfold sectionText.
  destruct (strings.Index jsonStr (quoted section)) as [sectionStart|] eqn:Hsection.
  2: { left. by apply Index_None. }
  assert (Hstart : firstAt jsonStr 0 (quoted section) sectionStart)
    by (by apply index_firstAt).
  destruct (strings.Index (strings.from jsonStr sectionStart) "{")
    as [braceStart|] eqn:Hbrace.
  2: { right. exists sectionStart. split; [done|]. intros p Hp Hocc.
       pose proof (Index_from "{" jsonStr ltac:(done) sectionStart) as Hfrom.
       rewrite Hbrace in Hfrom. simpl in Hfrom. symmetry in Hfrom.
       by apply (index_correct3 sectionStart p "{" jsonStr Hfrom). }
  pose proof (Index_from "{" jsonStr ltac:(done) sectionStart) as Hfrom.
  rewrite Hbrace in Hfrom. simpl in Hfrom. symmetry in Hfrom.
  apply index_firstAt in Hfrom; [|done].
  set (b := (braceStart + sectionStart)%nat) in *.
  exists sectionStart, b.
  assert (Hopen : strings.from jsonStr b
                  = String lbrace (strings.from jsonStr (S b))).
  { destruct Hfrom as (_ & Hocc & _). by apply from_head. }
  destruct (scanBraces_depth (strings.from jsonStr (S b)) 1 (S b))
    as (n & -> & Hn & Hprefix & Hend); [lia|].
  exists (S n). split; [done|]. split; [done|]. simpl.
  unfold strings.slice. replace (S (b + n) - b)%nat with (S n) by lia.
  rewrite substring_from, Hopen. unfold firstBytes in *.
  split; [done|]. split; [simpl; lia|]. split.
  - intros [|k] Hk; [lia|]. simpl. specialize (Hprefix k). lia.
  - simpl. destruct Hend as [Hzero | [-> Hpos]]; [left; lia|].
    right. rewrite substring_all in *. split; [done | lia].
Qed.

(** ** The order in which Go ranges over the keys *)

Lemma key_prefix_unique (k1 : string) :
  ∀ (k2 t : string),
    quoteFree k1 = true → quoteFree k2 = true →
    String.substring 0 (String.length (k1 +:+ String dquote "")) t
    = k1 +:+ String dquote "" →
    String.substring 0 (String.length (k2 +:+ String dquote "")) t
    = k2 +:+ String dquote "" →
    k1 = k2.
Proof.
  induction k1 as [|c1 k1 IH]; intros k2 t Hq1 Hq2 H1 H2.
  - destruct t as [|c t]; [done|]. simpl in H1. injection H1 as Hc _.
    destruct k2 as [|c2 k2]; [done|]. simpl in H2. injection H2 as Hc2 _.
    simpl in Hq2. apply andb_true_iff in Hq2 as [Hne _].
    rewrite <- Hc2, Hc in Hne. by rewrite Ascii.eqb_refl in Hne.
  - destruct t as [|c t]; [done|]. simpl in H1. injection H1 as Hc H1.
    simpl in Hq1. apply andb_true_iff in Hq1 as [Hne1 Hq1].
    destruct k2 as [|c2 k2].
    + simpl in H2. injection H2 as Hc2 _.
      rewrite <- Hc, Hc2 in Hne1. by rewrite Ascii.eqb_refl in Hne1.
    + simpl in H2. injection H2 as Hc2 H2.
      simpl in Hq2. apply andb_true_iff in Hq2 as [_ Hq2].
      f_equal; [congruence|]. by eapply IH.
Qed.

(** Two different keys without double quotes are never found at the same
    place. *)
Lemma quoted_same_place (s : string) (p : nat) (k1 k2 : string) :
  quoteFree k1 = true → quoteFree k2 = true →
  occursAt s p (quoted k1) → occursAt s p (quoted k2) → k1 = k2.
Proof.
  unfold occursAt. intros Hq1 Hq2 H1 H2.
  rewrite (substring_from s p) in H1, H2. unfold quoted in H1, H2.
  destruct (strings.from s p) as [|c t]; [done|].
  simpl in H1, H2. injection H1 as _ H1. injection H2 as _ H2.
  by eapply key_prefix_unique.
Qed.

Lemma Earliest_unique (s : string) (order : list string) (pos : nat)
    (keys keys' : list string) (k k' : string) (p p' : nat) :
  keys ≡ₚ keys' →
  (∀ key, key ∈ keys → quoteFree key = true) →
  Earliest s order pos keys k p → Earliest s order pos keys' k' p' →
  p = p' ∧ k = k'.
Proof.
  intros Hperm Hfree (Hin & Hnot & Hfirst & Hmin) (Hin' & Hnot' & Hfirst' & Hmin').
  assert (Hle : (p <= p')%nat) by (apply (Hmin k' p'); [by rewrite Hperm | done..]).
  assert (Hge : (p' <= p)%nat) by (apply (Hmin' k p); [by rewrite <- Hperm | done..]).
  assert (p = p') as -> by lia. split; [done|].
  destruct Hfirst as (_ & Hocc & _). destruct Hfirst' as (_ & Hocc' & _).
  apply (quoted_same_place s p'); try done.
  - by apply Hfree.
  - apply Hfree. by rewrite Hperm.
Qed.

Lemma scanKeys_permutation (s : string) (order : list string) (pos : nat)
    (keys keys' : list string) :
  keys ≡ₚ keys' →
  (∀ key, key ∈ keys → quoteFree key = true) →
  scanKeys s order pos keys = scanKeys s order pos keys'.
Proof.
  intros Hperm Hfree.
  pose proof (scanKeys_spec s order pos keys) as Hinv.
  pose proof (scanKeys_spec s order pos keys') as Hinv'.
  destruct (scanKeys s order pos keys) as [p k].
  destruct (scanKeys s order pos keys') as [p' k'].
  destruct Hinv as [[Heq Hnone] | Hearliest];
    destruct Hinv' as [[Heq' Hnone'] | Hearliest'].
  - congruence.
  - exfalso. destruct Hearliest' as (Hin' & Hnot' & Hfirst' & _). simpl in *.
    refine (Hnone k' _ Hnot' _ Hfirst'). by rewrite Hperm.
  - exfalso. destruct Hearliest as (Hin & Hnot & Hfirst & _). simpl in *.
    refine (Hnone' k _ Hnot _ Hfirst). by rewrite <- Hperm.
  - simpl in *.
    by destruct (Earliest_unique s order pos keys keys' k k' p p') as [-> ->].
Qed.

Lemma orderLoop_permutation (range range' : string -> nat -> list string)
    (s : string) :
  (∀ i, range s i ≡ₚ range' s i) →
  (∀ i key, key ∈ range s i → quoteFree key = true) →
  ∀ (todo : nat) (order : list string) (pos : nat),
    orderLoop range s todo order pos = orderLoop range' s todo order pos.
Proof.
  intros Hperm Hfree. induction todo as [|todo IH]; intros order pos; simpl; [done|].
  rewrite (scanKeys_permutation s order pos (range s (length order))
             (range' s (length order)));
    [|done | by apply Hfree].
  destruct (scanKeys s order pos (range' s (length order))) as [p k].
  destruct (String.eqb k ""); [done | apply IH].
Qed.

(** X13.  As long as no key of the section's object contains a double
    quote character, the order the extractor returns does not depend on
    the order in which Go ranges over the map of the keys, which the
    language leaves open and which may change from one turn of the loop
    to the next: two ways of ranging over the same keys give the same
    result. *)
Theorem extracted_order_ignores_map_order
    (range range' : string -> nat -> list string) (jsonStr section : string) :
  (∀ s i, sectionText jsonStr section = Some s → range s i ≡ₚ range' s i) →
  (∀ s i key, sectionText jsonStr section = Some s →
     key ∈ range s i → quoteFree key = true) →
  extractOrderFromJSON range jsonStr section
  = extractOrderFromJSON range' jsonStr section.
Proof.
  intros Hperm Hfree. unfold extractOrderFromJSON.
  destruct (sectionText jsonStr section) as [s|]; [|done].
  rewrite (Permutation_length (Hperm s 0%nat eq_refl)).
  apply orderLoop_permutation.
  - intros i. by apply Hperm.
  - intros i key. by apply Hfree.
Qed.

Lemma extracted_order_ignores_map_order_witness :
  extractOrderFromJSON Examples.rangeGroups Examples.declared "api"
  = extractOrderFromJSON (fun s i => reverse (Examples.rangeGroups s i))
      Examples.declared "api".
Proof.
  apply extracted_order_ignores_map_order.
  - intros s i _. by rewrite reverse_Permutation.
  - intros s i key Hs Hkey. vm_compute in Hs. injection Hs as <-.
    assert (Hkeys : key ∈ ["alpha"; "beta"]) by exact Hkey.
    apply list_elem_of_In in Hkeys. simpl in Hkeys.
    destruct Hkeys as [<-|[<-|[]]]; reflexivity.
Defined.

(** The extractor returns the same order for the sections of [body]
    however Go ranges over their keys, as long as these are free of double
    quotes. *)
Lemma extractOrder_same_keys (range range' : string -> nat -> list string)
    (body section : string) :
  section = "api" ∨ section = "ui" →
  sameKeys range range' body →
  quoteFreeKeys range body →
  extractOrderFromJSON range' body section
  = extractOrderFromJSON range body section.
Proof.
  intros Hsection Hsame Hfree. unfold extractOrderFromJSON.
  destruct (sectionText body section) as [s|] eqn:Hs; [|done].
  rewrite <- (Permutation_length (Hsame section s 0%nat Hsection Hs)).
  symmetry. apply orderLoop_permutation.
  - intros i. by apply (Hsame section).
  - intros i key. by apply (Hfree section).
Qed.

(** X10.  A refresh is idempotent on configurations without repeated
    URLs whose group names are free of double quotes: when a successful
    refresh has left a registry whose URLs are pairwise different,
    handling the same response again succeeds and leaves the monitor
    exactly as it is: the same instances with the same fields and
    histories, the same registry, no line in the log and no broadcast.
    This holds although Go may range over the keys of the section objects
    in another order the second time, at every turn of the extractor's
    loop. *)
Theorem refresh_is_idempotent
    (Unmarshal : string -> option InstancesJSON)
    (range range' : string -> nat -> list string)
    (m m1 : Monitor) (resp : GetResult) :
  updateInstances Unmarshal range m resp = (m1, None) →
  NoDup (registryURLs m1) →
  (∀ body, resp = GetResponse 200 (Some body) →
     sameKeys range range' body ∧ quoteFreeKeys range body) →
  updateInstances Unmarshal range' m1 resp = (m1, None).
Proof.
  intros Hok Hdistinct Hkeys.
  destruct (updateInstances_success _ _ _ _ _ Hok) as (body & data & -> & Hdata & ->).
  destruct (Hkeys body eq_refl) as [Hsame Hfree].
  rewrite (updateInstances_ok _ _ _ _ _ Hdata).
  rewrite !(extractOrder_same_keys range range' body) by auto.
  f_equal. by apply reconcile_again.
Qed.

Lemma refresh_is_idempotent_witness :
  let m1 :=
    Examples.update (NewMonitor Examples.defaultConfig) Examples.declared in
  registryURLs m1 = ["http://b"; "http://a"]
  ∧ updateInstances Examples.Unmarshal
      (fun s i => reverse (Examples.rangeGroups s i)) m1
      (Examples.fetched Examples.declared) = (m1, None).
Proof.
  split; [vm_compute; reflexivity|].
  apply (refresh_is_idempotent Examples.Unmarshal Examples.rangeGroups
           (fun s i => reverse (Examples.rangeGroups s i))
           (NewMonitor Examples.defaultConfig)).
  - reflexivity.
  - vm_compute. apply NoDup_ListNoDup. repeat constructor; simpl; intuition discriminate.
  - intros body [= <-]. split.
    + intros section s i _ _. by rewrite reverse_Permutation.
    + intros section s i key [->| ->] Hs Hkey; vm_compute in Hs;
        injection Hs as <-; apply list_elem_of_In in Hkey; simpl in Hkey.
      * destruct Hkey as [<-|[<-|[]]]; reflexivity.
      * destruct Hkey as [].
Defined.

(** ** Delivering a broadcast *)

Lemma trySend_sent (jsonData : string) (c : Chan) :
  closed c = false → trySend jsonData c = Some (sent jsonData c).
Proof.
  intros Hopen. unfold trySend, sent. rewrite Hopen.
  by destruct (length (pending c) <? capacity c)%nat.
Qed.

Lemma offer_spec (jsonData : string) (order : list nat) :
  ∀ chans0 : list Chan,
    NoDup order →
    (∀ c, c ∈ order → ∃ ch, chans0 !! c = Some ch ∧ closed ch = false) →
    ∃ chans', offer jsonData chans0 order = Some chans'
      ∧ length chans' = length chans0
      ∧ ∀ c, chans' !! c
             = if decide (c ∈ order) then sent jsonData <$> chans0 !! c
               else chans0 !! c.
Proof.
  induction order as [|c0 rest IH]; intros chans0 Hnodup Hopen.
  - exists chans0. repeat split; try done.
  - apply NoDup_cons in Hnodup as [Hfresh Hnodup].
    destruct (Hopen c0) as (ch0 & Hch0 & Hopen0); [by left|].
    simpl. rewrite Hch0. simpl. rewrite (trySend_sent _ _ Hopen0). simpl.
    destruct (IH (<[c0 := sent jsonData ch0]> chans0) Hnodup)
      as (chans' & -> & Hlen & Hat).
    { intros c Hc. destruct (Hopen c) as (ch & Hch & Hcopen); [by right|].
      exists ch. split; [|done]. rewrite list_lookup_insert_ne; [done|].
      intros ->. done. }
    exists chans'. split; [done|]. split; [by rewrite Hlen, length_insert|].
    intros c. rewrite Hat. destruct (decide (c = c0)) as [->|Hne].
    + rewrite decide_False by done. rewrite decide_True by (by left).
      rewrite list_lookup_insert_eq by (by eapply lookup_lt_Some).
      by rewrite Hch0.
    + rewrite list_lookup_insert_ne by done.
      destruct (decide (c ∈ rest)) as [Hin|Hout].
      * by rewrite decide_True by (by right).
      * rewrite decide_False; [done|]. by intros [?|?]%elem_of_cons.
Qed.

Lemma deliver_spec (cs : Clients) (jsonData : string) (order : list nat) :
  (∀ c, c ∈ clients cs → ∃ ch, chans cs !! c = Some ch ∧ closed ch = false) →
  order ≡ₚ elements (clients cs) →
  ∃ cs', deliver jsonData cs order = Some cs'
    ∧ clients cs' = clients cs
    ∧ length (chans cs') = length (chans cs)
    ∧ ∀ c, chans cs' !! c
           = if decide (c ∈ clients cs) then sent jsonData <$> chans cs !! c
             else chans cs !! c.
Proof.
  intros Hopen Hperm. unfold deliver.
  destruct (offer_spec jsonData order (chans cs)) as (chans' & -> & Hlen & Hat).
  { rewrite Hperm. apply NoDup_elements. }
  { intros c Hc. apply Hopen. rewrite Hperm in Hc. by apply elem_of_elements. }
  eexists. split; [done|]. simpl. split; [done|]. split; [done|].
  intros c. rewrite Hat.
  destruct (decide (c ∈ order)) as [Hin|Hout].
  - rewrite decide_True; [done|]. rewrite Hperm in Hin. by apply elem_of_elements.
  - rewrite decide_False; [done|]. intros Hin. apply Hout. rewrite Hperm.
    by apply elem_of_elements.
Qed.

(** X14.  One broadcast, when every client is an open channel (as it is
    in every state the server reaches): the delivery does not panic and
    does not block; a client whose buffer has room gets the payload
    behind everything it has pending; a client whose buffer is full
    misses this payload and keeps what it has; channels that are not
    clients, the set of clients and the capacities are untouched; and
    the outcome is the same in whatever order Go ranges over the
    clients. *)
Theorem broadcast_skips_full_clients (cs : Clients) (jsonData : string)
    (order : list nat) :
  (∀ c, c ∈ clients cs → ∃ ch, chans cs !! c = Some ch ∧ closed ch = false) →
  order ≡ₚ elements (clients cs) →
  ∃ cs', deliver jsonData cs order = Some cs'
    ∧ deliver jsonData cs (elements (clients cs)) = Some cs'
    ∧ clients cs' = clients cs
    ∧ length (chans cs') = length (chans cs)
    ∧ ∀ c ch, chans cs !! c = Some ch →
        ∃ ch', chans cs' !! c = Some ch'
          ∧ capacity ch' = capacity ch ∧ closed ch' = closed ch
          ∧ pending ch'
            = if decide (c ∈ clients cs
                         ∧ (length (pending ch) < capacity ch)%nat)
              then pending ch ++ [jsonData]
              else pending ch.
Proof.
  intros Hopen Hperm.
  destruct (deliver_spec cs jsonData order Hopen Hperm)
    as (cs' & Hrun & Hclients & Hlen & Hat).
  destruct (deliver_spec cs jsonData (elements (clients cs)) Hopen)
    as (cs'' & Hrun' & Hclients' & Hlen' & Hat'); [done|].
  assert (cs'' = cs') as ->.
  { destruct cs' as [chans' clients'], cs'' as [chans'' clients''].
    simpl in *. f_equal; [|congruence].
    apply list_eq. intros c. by rewrite Hat, Hat'. }
  exists cs'. split; [done|]. split; [done|]. split; [done|]. split; [done|].
  intros c ch Hch. rewrite Hat, Hch. unfold sent.
  destruct (decide (c ∈ clients cs)) as [Hin|Hout]; simpl.
  - destruct (Nat.ltb_spec (length (pending ch)) (capacity ch)) as [Hroom|Hfull].
    + eexists. split; [done|]. simpl. by rewrite decide_True.
    + exists ch. split; [done|]. rewrite decide_False by lia. done.
  - exists ch. split; [done|]. rewrite decide_False by tauto. done.
Qed.

Lemma broadcast_skips_full_clients_witness :
  ∃ cs', deliver "new" Samples.twoClients [0%nat; 1%nat] = Some cs'
    ∧ deliver "new" Samples.twoClients (elements (clients Samples.twoClients)) = Some cs'.
Proof.
  destruct (broadcast_skips_full_clients Samples.twoClients "new" [0%nat; 1%nat])
    as (cs' & Hrun & Hsame & _).
  - intros c [->%elem_of_singleton | ->%elem_of_singleton]%elem_of_union;
      eexists; split; reflexivity.
  - vm_compute. apply Permutation_swap.
  - exists cs'. split; [exact Hrun | exact Hsame].
Defined.

(** ** The states of the server *)

(** A step of handler [i] that leaves every other channel and the
    membership of every other handler alone keeps the invariant when it
    re-establishes it for [i]. *)
Lemma HubInv_update (h : Hub) (i : nat) (s s' : Stream) (cs' : Clients) :
  HubInv h →
  streams h !! i = Some s →
  messageChan s' = messageChan s →
  length (chans cs') = length (chans (subscribers h)) →
  (∀ j, j ≠ i →
     chans cs' !! j = chans (subscribers h) !! j
     ∧ (j ∈ clients cs' ↔ j ∈ clients (subscribers h))) →
  (∃ c, chans cs' !! i = Some c
     ∧ capacity c = 10%nat ∧ (length (pending c) <= 10)%nat
     ∧ (closed c = true ↔ stage s' = Gone)
     ∧ (i ∈ clients cs' ↔ stage s' ≠ Gone)) →
  HubInv {| subscribers := cs'; streams := <[i := s']> (streams h) |}.
Proof.
  intros (Hlen & Hclients & Hstreams) Hs Hchan Hlen' Hframe Hat.
  assert (Hi : (i < length (streams h))%nat) by (by eapply lookup_lt_Some).
  unfold HubInv. simpl. rewrite length_insert. split; [congruence|]. split.
  - intros c Hc. destruct (decide (c = i)) as [->|Hne]; [done|].
    apply Hclients. by apply Hframe.
  - intros j sj Hj. destruct (decide (j = i)) as [->|Hne].
    + rewrite list_lookup_insert_eq in Hj by done. injection Hj as <-.
      split; [|done]. rewrite Hchan. by destruct (Hstreams i s Hs) as [? _].
    + rewrite list_lookup_insert_ne in Hj by done.
      destruct (Hstreams j sj Hj) as (Hmc & c & Hc & Hcap & Hpend & Hclosed & Hmember).
      split; [done|]. exists c. destruct (Hframe j Hne) as [-> ->]. done.
Qed.

Lemma hubStep_inv (h : Hub) (step : Step) :
  HubInv h →
  hubStep h step ≠ Panic ∧ ∀ h', hubStep h step = Next h' → HubInv h'.
Proof.
  intros Hinv. pose proof Hinv as (Hlen & Hclients & Hstreams).
  destruct step as [|i initialJSON|i|i|i|jsonData]; simpl.
  - (* a handler makes its channel and registers it *)
    split; [done|]. intros h' [= <-]. unfold HubInv. simpl.
    rewrite !length_app. simpl. split; [lia|]. split.
    + intros c [->%elem_of_singleton | Hc]%elem_of_union; [lia|].
      apply Hclients in Hc. lia.
    + intros j sj Hj. apply lookup_app_Some in Hj as [Hj | [Hge Hj]].
      * destruct (Hstreams j sj Hj) as (Hmc & c & Hc & Hcap & Hpend & Hclosed & Hmember).
        split; [done|]. exists c. rewrite lookup_app_l by (by eapply lookup_lt_Some).
        repeat split; try done; try apply Hclosed.
        -- intros [Heq%elem_of_singleton | Hin]%elem_of_union; [|by apply Hmember].
           apply lookup_lt_Some in Hj. lia.
        -- intros Hlive. apply elem_of_union. right. by apply Hmember.
      * assert (j = length (streams h)) as ->.
        { apply lookup_lt_Some in Hj. simpl in Hj. lia. }
        rewrite Nat.sub_diag in Hj. injection Hj as <-. simpl.
        split; [done|]. eexists. rewrite <- Hlen, list_lookup_middle by done.
        split; [done|]. simpl. repeat split; try done; try lia.
        intros _. apply elem_of_union. left. by apply elem_of_singleton.
  - (* a handler writes the state it found *)
    destruct (streams h !! i) as [s|] eqn:Hs; [|done].
    destruct (stage s) eqn:Hstage; try done.
    split; [done|]. intros h' [= <-].
    destruct (Hstreams i s Hs) as (Hmc & c & Hc & Hcap & Hpend & Hclosed & Hmember).
    apply (HubInv_update h i s); try done.
    exists c. repeat split; try done.
    + intros Hyes. apply Hclosed in Hyes. congruence.
    + intros _. apply Hmember. congruence.
  - (* a handler forwards a payload *)
    destruct (streams h !! i) as [s|] eqn:Hs; [|done].
    destruct (Hstreams i s Hs) as (Hmc & c & Hc & Hcap & Hpend & Hclosed & Hmember).
    destruct (stage s) eqn:Hstage; try done. rewrite Hmc, Hc.
    unfold receive. destruct (pending c) as [|msg rest] eqn:Hpending.
    { destruct (closed c) eqn:Hc'; [|done].
      destruct Hclosed as [Hgone _]. specialize (Hgone eq_refl). congruence. }
    split; [done|]. intros h' [= <-].
    apply (HubInv_update h i s); try done.
    + simpl. by rewrite length_insert.
    + intros j Hne. simpl. by rewrite list_lookup_insert_ne.
    + simpl. eexists. rewrite list_lookup_insert_eq by (by eapply lookup_lt_Some).
      split; [done|]. simpl. repeat split; try done; try apply Hclosed;
        try apply Hmember.
      simpl in Hpend. lia.
  - (* a handler writes a keep-alive *)
    destruct (streams h !! i) as [s|] eqn:Hs; [|done].
    destruct (stage s) eqn:Hstage; try done.
    split; [done|]. intros h' [= <-].
    destruct (Hstreams i s Hs) as (Hmc & c & Hc & Hcap & Hpend & Hclosed & Hmember).
    apply (HubInv_update h i s); try done.
    exists c. repeat split; try done.
    + intros Hyes. apply Hclosed in Hyes. congruence.
    + intros _. apply Hmember. congruence.
  - (* a handler returns *)
    destruct (streams h !! i) as [s|] eqn:Hs; [|done].
    destruct (Hstreams i s Hs) as (Hmc & c & Hc & Hcap & Hpend & Hclosed & Hmember).
    destruct (stage s) eqn:Hstage; try done.
    unfold UnregisterClient, close. rewrite Hmc, Hc. simpl.
    destruct (closed c) eqn:Hc'.
    { destruct Hclosed as [Hgone _]. specialize (Hgone eq_refl). congruence. }
    simpl. split; [done|]. intros h' [= <-].
    apply (HubInv_update h i s); try done.
    + simpl. by rewrite length_insert.
    + intros j Hne. simpl. rewrite list_lookup_insert_ne by done.
      split; [done|]. rewrite elem_of_difference, elem_of_singleton. tauto.
    + simpl. eexists. rewrite list_lookup_insert_eq by (by eapply lookup_lt_Some).
      split; [done|]. simpl. repeat split; try done.
      * intros Hin. apply elem_of_difference in Hin as [_ Hout].
        exfalso. apply Hout. by apply elem_of_singleton.
  - (* the monitor delivers a payload *)
    destruct (deliver_spec (subscribers h) jsonData
                (elements (clients (subscribers h))))
      as (cs' & -> & Hsame & Hlen' & Hat); [|done|].
    { intros c Hc. pose proof (Hclients c Hc) as Hlt.
      apply lookup_lt_is_Some in Hlt as [s Hs].
      destruct (Hstreams c s Hs) as (_ & ch & Hch & _ & _ & Hclosed & Hmember).
      exists ch. split; [done|]. destruct (closed ch); [|done].
      destruct Hclosed as [Hgone _]. specialize (Hgone eq_refl).
      by apply Hmember in Hc. }
    split; [done|]. intros h' [= <-]. unfold HubInv. simpl.
    rewrite Hsame. split; [congruence|]. split; [done|].
    intros j sj Hj.
    destruct (Hstreams j sj Hj) as (Hmc & c & Hc & Hcap & Hpend & Hclosed & Hmember).
    split; [done|]. rewrite Hat, Hc.
    destruct (decide (j ∈ clients (subscribers h))); simpl; [|by exists c].
    eexists. split; [done|]. unfold sent.
    destruct (Nat.ltb_spec (length (pending c)) (capacity c)) as [Hroom|Hfull];
      simpl; [|done].
    split; [done|]. split; [|done]. rewrite length_app. simpl. lia.
Qed.

Lemma hubRun_inv (steps : list Step) :
  ∀ h, HubInv h →
    hubRun h steps ≠ Panic ∧ ∀ h', hubRun h steps = Next h' → HubInv h'.
Proof.
  induction steps as [|step rest IH]; intros h Hinv; simpl.
  - split; [done|]. by intros h' [= <-].
  - destruct (hubStep_inv h step Hinv) as [Hsafe Hnext].
    destruct (hubStep h step) as [h1| |]; [|done|done].
    apply IH. by apply Hnext.
Qed.

Lemma noClients_inv : HubInv noClients.
Proof.
  unfold HubInv, noClients. simpl. split; [done|]. split.
  - intros c Hc. by apply elem_of_empty in Hc.
  - intros i s Hs. done.
Qed.


(** ** What a handler of the event stream writes *)

Lemma stream_step (i : nat) (pub : list string) (h h' : Hub) (step : Step) :
  HubInv h → StreamInv i pub h → hubStep h step = Next h' →
  StreamInv i (pub ++ published [step]) h'.
Proof.
  intros Hinv (s & c & turns & Hs & Hc & Hshape & Hsub & Hall) Hstep.
  pose proof Hinv as (Hlen & Hclients & Hstreams).
  destruct (Hstreams i s Hs) as (Hmc & c0 & Hc0 & Hcap & Hpend & Hclosed & Hmember).
  rewrite Hc in Hc0. injection Hc0 as <-.
  assert (Hi : (i < length (streams h))%nat) by (by eapply lookup_lt_Some).
  destruct step as [|j initialJSON|j|j|j|jsonData];
    simpl in Hstep; unfold published; simpl; rewrite ?app_nil_r.
  - (* another handler registers *)
    injection Hstep as <-. exists s, c, turns. simpl.
    rewrite !lookup_app_l by lia. done.
  - (* a first write *)
    destruct (streams h !! j) as [sj|] eqn:Hsj; [|done].
    destruct (stage sj) eqn:Hstage; try done. injection Hstep as <-.
    destruct (decide (j = i)) as [->|Hne].
    + rewrite Hs in Hsj. injection Hsj as <-.
      rewrite Hstage in Hshape. destruct Hshape as [Hw ->].
      eexists _, c, []. simpl. rewrite list_lookup_insert_eq by done.
      split; [done|]. split; [done|]. simpl.
      split; [exists initialJSON; by rewrite Hw|]. split; [done|].
      intros _ Hle. apply Hall; [congruence | done].
    + exists s, c, turns. simpl. by rewrite list_lookup_insert_ne by done.
  - (* a payload is forwarded *)
    destruct (streams h !! j) as [sj|] eqn:Hsj; [|done].
    destruct (Hstreams j sj Hsj) as (Hmcj & _).
    destruct (stage sj) eqn:Hstage; try done.
    destruct (chans (subscribers h) !! messageChan sj) as [cj|] eqn:Hcj; [|done].
    destruct (receive cj) as [[msg cj']|] eqn:Hreceive; [|done].
    injection Hstep as <-. rewrite Hmcj in *.
    destruct (decide (j = i)) as [->|Hne].
    + rewrite Hs in Hsj. injection Hsj as <-.
      rewrite Hc in Hcj. injection Hcj as <-.
      rewrite Hstage in Hshape. destruct Hshape as [hello Hw].
      unfold receive in Hreceive.
      destruct (pending c) as [|msg' rest] eqn:Hpending.
      { destruct (closed c) eqn:Hc'; [|done].
        destruct Hclosed as [Hgone _]. specialize (Hgone eq_refl). congruence. }
      injection Hreceive as -> <-.
      eexists _, _, (turns ++ [Some msg]). simpl.
      rewrite !list_lookup_insert_eq by (done || by eapply lookup_lt_Some).
      split; [done|]. split; [done|]. simpl. split; [|split].
      * exists hello. by rewrite Hw, fmap_app.
      * rewrite omap_app. simpl. by rewrite <- app_assoc.
      * rewrite omap_app. simpl. rewrite <- app_assoc. simpl.
        intros _ Hle. apply Hall; [congruence | done].
    + exists s, c, turns. simpl. by rewrite !list_lookup_insert_ne by done.
  - (* a keep-alive *)
    destruct (streams h !! j) as [sj|] eqn:Hsj; [|done].
    destruct (stage sj) eqn:Hstage; try done. injection Hstep as <-.
    destruct (decide (j = i)) as [->|Hne].
    + rewrite Hs in Hsj. injection Hsj as <-.
      rewrite Hstage in Hshape. destruct Hshape as [hello Hw].
      eexists _, c, (turns ++ [None]). simpl.
      rewrite list_lookup_insert_eq by done.
      split; [done|]. split; [done|]. simpl. split; [|split].
      * exists hello. by rewrite Hw, fmap_app.
      * rewrite omap_app. simpl. by rewrite app_nil_r.
      * rewrite omap_app. simpl. rewrite app_nil_r.
        intros _ Hle. apply Hall; [congruence | done].
    + exists s, c, turns. simpl. by rewrite list_lookup_insert_ne by done.
  - (* a handler returns *)
    destruct (streams h !! j) as [sj|] eqn:Hsj; [|done].
    destruct (Hstreams j sj Hsj) as (Hmcj & _).
    destruct (stage sj) eqn:Hstage; try done.
    unfold UnregisterClient, close in Hstep. rewrite Hmcj in Hstep.
    destruct (chans (subscribers h) !! j) as [cj|] eqn:Hcj; [|done].
    simpl in Hstep. destruct (closed cj) eqn:Hcj'; [done|].
    simpl in Hstep. injection Hstep as <-.
    destruct (decide (j = i)) as [->|Hne].
    + rewrite Hs in Hsj. injection Hsj as <-.
      rewrite Hc in Hcj. injection Hcj as <-.
      rewrite Hstage in Hshape. destruct Hshape as [hello Hw].
      eexists _, _, turns. simpl.
      rewrite !list_lookup_insert_eq by (done || by eapply lookup_lt_Some).
      split; [done|]. split; [done|]. simpl. split; [|split; [done|done]].
      exists hello. by rewrite app_nil_r.
    + exists s, c, turns. simpl. by rewrite !list_lookup_insert_ne by done.
  - (* a payload is published *)
    destruct (deliver_spec (subscribers h) jsonData
                (elements (clients (subscribers h))))
      as (cs' & Hrun & Hsame & Hlen' & Hat); [|done|].
    { intros k Hk. pose proof (Hclients k Hk) as Hlt.
      apply lookup_lt_is_Some in Hlt as [sk Hsk].
      destruct (Hstreams k sk Hsk) as (_ & ch & Hch & _ & _ & Hkclosed & Hkmember).
      exists ch. split; [done|]. destruct (closed ch); [|done].
      destruct Hkclosed as [Hgone _]. specialize (Hgone eq_refl).
      by apply Hkmember in Hk. }
    rewrite Hrun in Hstep. injection Hstep as <-. simpl.
    specialize (Hat i). rewrite Hc in Hat. simpl in Hat.
    destruct (decide (i ∈ clients (subscribers h))) as [Hin|Hout].
    + unfold sent in Hat. rewrite Hcap in Hat.
      destruct (Nat.ltb_spec (length (pending c)) 10) as [Hroom|Hfull].
      * eexists s, _, turns. split; [done|]. split; [exact Hat|]. simpl.
        split; [done|]. rewrite app_assoc. split.
        -- by apply sublist_app.
        -- intros Hlive Hle. rewrite length_app in Hle. simpl in Hle.
           f_equal. apply Hall; [done | lia].
      * exists s, c, turns. split; [done|]. split; [exact Hat|].
        split; [done|]. split; [by apply sublist_inserts_r|].
        intros Hlive Hle. rewrite length_app in Hle. simpl in Hle.
        exfalso. assert (Heq : omap id turns ++ pending c = pub)
          by (apply Hall; [done | lia]).
        apply (f_equal length) in Heq. rewrite length_app in Heq. lia.
    + exists s, c, turns. split; [done|]. split; [exact Hat|].
      split; [done|]. split; [by apply sublist_inserts_r|].
      intros Hlive. exfalso. apply Hout. by apply Hmember.
Qed.

Lemma published_app (steps more : list Step) :
  published (steps ++ more) = published steps ++ published more.
Proof. apply omap_app. Qed.

Lemma stream_run (i : nat) (steps : list Step) :
  ∀ (pub : list string) (h h' : Hub),
    HubInv h → StreamInv i pub h → hubRun h steps = Next h' →
    StreamInv i (pub ++ published steps) h'.
Proof.
  induction steps as [|step rest IH]; intros pub h h' Hinv Hstream Hrun.
  - simpl in Hrun. injection Hrun as <-. unfold published. simpl.
    by rewrite app_nil_r.
  - simpl in Hrun. destruct (hubStep h step) as [h1| |] eqn:Hstep; [|done|done].
    change (step :: rest) with ([step] ++ rest).
    rewrite published_app, app_assoc. apply (IH _ h1); [|by eapply stream_step|done].
    by apply (hubStep_inv h step Hinv).
Qed.

(** X16.  What a handler of the event stream writes.  Take any state the
    server can reach, let a handler register there, and let the server
    go on in any way.  Until its first write the handler has written
    nothing; its first write is the frame of the state it found;
    afterwards it writes one frame per turn of its loop, the frame of
    the payload it received or a keep-alive.  The payloads it has
    received, followed by those still pending in its channel, are
    payloads published since it registered, in the order of their
    publication and none twice.  As long as it has not returned and no
    more than 10 payloads were published since it registered, none of
    them is missing. *)
Theorem stream_forwards_in_order (before after : list Step) (h0 h : Hub) :
  hubRun noClients before = Next h0 →
  hubRun h0 (Subscribe :: after) = Next h →
  let i := length (streams h0) in
  ∃ s c turns,
    streams h !! i = Some s
    ∧ chans (subscribers h) !! i = Some c
    ∧ match stage s with
      | Registered => written s = [] ∧ turns = []
      | _ => ∃ initialJSON,
               written s = dataFrame initialJSON :: (frameOf <$> turns)
      end
    ∧ omap id turns ++ pending c `sublist_of` published after
    ∧ (stage s ≠ Gone → (length (published after) <= 10)%nat →
       omap id turns ++ pending c = published after).
Proof.
  intros Hbefore Hafter i.
  destruct (hubRun_inv before noClients noClients_inv) as [_ Hinv0].
  specialize (Hinv0 h0 Hbefore).
  destruct (hubStep_inv h0 Subscribe Hinv0) as [_ Hinv1].
  simpl in Hafter.
  match type of Hafter with hubRun ?x after = _ => set (h1 := x) in * end.
  specialize (Hinv1 h1 eq_refl).
  apply (stream_run i after [] h1 h Hinv1); [|done].
  destruct Hinv0 as (Hlen & _).
  eexists _, _, []. subst h1 i. simpl.
  rewrite <- Hlen at 2. rewrite !list_lookup_middle by done.
  split; [done|]. split; [done|]. simpl. done.
Qed.

Lemma stream_forwards_in_order_witness :
  ∃ s, streams (Samples.after [Subscribe; Publish "a"; Hello 0 "s"; Forward 0])
         !! 0%nat = Some s
       ∧ written s = [dataFrame "s"; dataFrame "a"].
Proof.
  destruct (stream_forwards_in_order [] [Publish "a"; Hello 0 "s"; Forward 0]
              noClients
              (Samples.after [Subscribe; Publish "a"; Hello 0 "s"; Forward 0])
              eq_refl)
    as (s & c & turns & Hs & _).
  - vm_compute. reflexivity.
  - exists s. split; [exact Hs|].
    vm_compute in Hs. injection Hs as <-. vm_compute. reflexivity.
Defined.

Lemma gone_step (i : nat) (h h' : Hub) (step : Step) (s : Stream) (c : Chan) :
  HubInv h →
  streams h !! i = Some s → stage s = Gone →
  chans (subscribers h) !! i = Some c →
  hubStep h step = Next h' →
  streams h' !! i = Some s ∧ chans (subscribers h') !! i = Some c.
Proof.
  intros Hinv Hs Hgone Hc Hstep.
  pose proof Hinv as (Hlen & Hclients & Hstreams).
  destruct (Hstreams i s Hs) as (Hmc & c0 & Hc0 & _ & _ & _ & Hmember).
  assert (Hi : (i < length (streams h))%nat) by (by eapply lookup_lt_Some).
  assert (Hout : i ∉ clients (subscribers h)) by (intros Hin; by apply Hmember in Hin).
  assert (Hother : ∀ j sj, streams h !! j = Some sj → stage sj ≠ Gone → j ≠ i).
  { intros j sj Hsj Hlive ->. congruence. }
  destruct step as [|j initialJSON|j|j|j|jsonData]; simpl in Hstep.
  - injection Hstep as <-. simpl. by rewrite !lookup_app_l by lia.
  - destruct (streams h !! j) as [sj|] eqn:Hsj; [|done].
    destruct (stage sj) eqn:Hstage; try done. injection Hstep as <-. simpl.
    rewrite list_lookup_insert_ne; [done|]. apply (Hother j sj Hsj). congruence.
  - destruct (streams h !! j) as [sj|] eqn:Hsj; [|done].
    destruct (Hstreams j sj Hsj) as (Hmcj & _).
    destruct (stage sj) eqn:Hstage; try done.
    destruct (chans (subscribers h) !! messageChan sj) as [cj|]; [|done].
    destruct (receive cj) as [[msg cj']|]; [|done].
    injection Hstep as <-. simpl. rewrite Hmcj.
    assert (j ≠ i) by (apply (Hother j sj Hsj); congruence).
    by rewrite !list_lookup_insert_ne.
  - destruct (streams h !! j) as [sj|] eqn:Hsj; [|done].
    destruct (stage sj) eqn:Hstage; try done. injection Hstep as <-. simpl.
    rewrite list_lookup_insert_ne; [done|]. apply (Hother j sj Hsj). congruence.
  - destruct (streams h !! j) as [sj|] eqn:Hsj; [|done].
    destruct (Hstreams j sj Hsj) as (Hmcj & _).
    destruct (stage sj) eqn:Hstage; try done.
    unfold UnregisterClient, close in Hstep. rewrite Hmcj in Hstep.
    destruct (chans (subscribers h) !! j) as [cj|]; [|done].
    simpl in Hstep. destruct (closed cj); [done|].
    simpl in Hstep. injection Hstep as <-. simpl.
    assert (j ≠ i) by (apply (Hother j sj Hsj); congruence).
    by rewrite !list_lookup_insert_ne.
  - destruct (deliver_spec (subscribers h) jsonData
                (elements (clients (subscribers h))))
      as (cs' & Hrun & Hsame & Hlen' & Hat); [|done|].
    { intros k Hk. pose proof (Hclients k Hk) as Hlt.
      apply lookup_lt_is_Some in Hlt as [sk Hsk].
      destruct (Hstreams k sk Hsk) as (_ & ch & Hch & _ & _ & Hkclosed & Hkmember).
      exists ch. split; [done|]. destruct (closed ch); [|done].
      destruct Hkclosed as [Hkgone _]. specialize (Hkgone eq_refl).
      by apply Hkmember in Hk. }
    rewrite Hrun in Hstep. injection Hstep as <-. simpl. split; [done|].
    rewrite Hat. by rewrite decide_False.
Qed.

(** X17.  Once a handler has returned, nothing reaches it any more: in
    whatever way the server goes on from a state it can be in, the
    handler's channel stays closed and outside the clients, holding what
    it held, later broadcasts are not offered to it, and what the
    handler has written stays as it is. *)
Theorem returned_handler_gets_nothing (h h' : Hub) (steps : list Step)
    (i : nat) (s : Stream) (c : Chan) :
  HubInv h →
  streams h !! i = Some s → stage s = Gone →
  chans (subscribers h) !! i = Some c →
  hubRun h steps = Next h' →
  streams h' !! i = Some s
  ∧ chans (subscribers h') !! i = Some c
  ∧ closed c = true
  ∧ i ∉ clients (subscribers h').
Proof.
  intros Hinv Hs Hgone Hc Hrun.
  assert (Hkept : streams h' !! i = Some s ∧ chans (subscribers h') !! i = Some c
                  ∧ HubInv h').
  { revert h Hinv Hs Hc Hrun.
    induction steps as [|step rest IH]; intros h Hinv Hs Hc Hrun; simpl in Hrun.
    - by injection Hrun as <-.
    - destruct (hubStep h step) as [h1| |] eqn:Hstep; [|done|done].
      destruct (gone_step i h h1 step s c Hinv Hs Hgone Hc Hstep) as [Hs1 Hc1].
      apply (IH h1); try done. by apply (hubStep_inv h step Hinv). }
  destruct Hkept as (Hs' & Hc' & (_ & _ & Hstreams')).
  destruct (Hstreams' i s Hs') as (_ & c0 & Hc0 & _ & _ & Hclosed & Hmember).
  rewrite Hc' in Hc0. injection Hc0 as <-.
  split; [done|]. split; [done|]. split; [by apply Hclosed|].
  intros Hin. by apply Hmember in Hin.
Qed.

Lemma returned_handler_gets_nothing_witness :
  ∃ s c,
    streams (Samples.after [Subscribe; Hello 0 "s"; Leave 0; Publish "p"])
      !! 0%nat = Some s
    ∧ chans (subscribers
               (Samples.after [Subscribe; Hello 0 "s"; Leave 0; Publish "p"]))
        !! 0%nat = Some c
    ∧ written s = [dataFrame "s"] ∧ pending c = [].
Proof.
  destruct (returned_handler_gets_nothing
              (Samples.after [Subscribe; Hello 0 "s"; Leave 0])
              (Samples.after [Subscribe; Hello 0 "s"; Leave 0; Publish "p"])
              [Publish "p"] 0
              {| messageChan := 0; stage := Gone; written := [dataFrame "s"] |}
              {| capacity := 10; pending := []; closed := true |})
    as (Hs & Hc & _).
  - apply (hubRun_inv [Subscribe; Hello 0 "s"; Leave 0] noClients noClients_inv).
    vm_compute. reflexivity.
  - vm_compute. reflexivity.
  - reflexivity.
  - vm_compute. reflexivity.
  - vm_compute. reflexivity.
  - eexists _, _. split; [exact Hs|]. split; [exact Hc|]. split; reflexivity.
Defined.

(** ** The badge *)

Lemma HasPrefix_app (prefix s : string) : HasPrefix (prefix +:+ s) prefix = true.
Proof.
  unfold HasPrefix. induction prefix as [|c prefix IH]; simpl.
  - by destruct s.
  - by destruct (ascii_dec c c).
Qed.

Lemma from_app (prefix s : string) :
  strings.from (prefix +:+ s) (String.length prefix) = s.
Proof.
  induction prefix as [|c prefix IH]; [apply from_0 | exact IH].
Qed.

Lemma TrimPrefix_app (prefix s : string) : TrimPrefix (prefix +:+ s) prefix = s.
Proof. unfold TrimPrefix. by rewrite HasPrefix_app, from_app. Qed.

Lemma findByURL_spec (s : list Instance) (u : string) (insts : list nat) :
  (∀ p, p ∈ insts → (p < length s)%nat) →
  let urls := omap (fun p => URL <$> s !! p) insts in
  if decide (u ∈ urls)
  then ∃ j p inst,
         urls !! j = Some u ∧ (u ∉ take j urls)
         ∧ insts !! j = Some p ∧ s !! p = Some inst
         ∧ findByURL s insts u = Some inst
  else findByURL s insts u = None.
Proof.
  induction insts as [|q rest IH]; intros Hvalid urls.
  - by rewrite decide_False by (apply not_elem_of_nil).
  - assert (is_Some (s !! q)) as [instq Hq].
    { apply lookup_lt_is_Some, Hvalid. by left. }
    assert (Hrest : ∀ p, p ∈ rest → (p < length s)%nat)
      by (intros p Hp; apply Hvalid; by right).
    specialize (IH Hrest). simpl in IH.
    assert (Hurls : urls = URL instq :: omap (fun p => URL <$> s !! p) rest).
    { subst urls. simpl. by rewrite Hq. }
    rewrite Hurls. simpl. rewrite Hq.
    destruct (String.eqb_spec (URL instq) u) as [<-|Hne].
    + rewrite decide_True by (by left).
      exists 0%nat, q, instq. simpl. repeat split; try done. apply not_elem_of_nil.
    + destruct (decide (u ∈ omap (fun p => URL <$> s !! p) rest)) as [Hin|Hout].
      * rewrite decide_True by (by right).
        destruct IH as (j & p & inst & Hj & Hfirst & Hp & Hinst & Hfind).
        exists (S j), p, inst. simpl. repeat split; try done.
        intros [?|?]%elem_of_cons; done.
      * rewrite decide_False; [done|]. intros [?|?]%elem_of_cons; done.
Qed.

(** X18.  The badge of a URL.  The request path is stripped of
    [/api/badge/] and unescaped.  When unescaping fails the answer is 400
    with an empty body.  When no registry entry has the URL the answer is
    404 with the grey badge "unknown | not found".  Otherwise the answer
    is 200, and the badge reports the first registry entry with that URL,
    as the snapshot shows it: green "up" with the uptime when the
    entry's last check succeeded, red "down" otherwise, so also for an
    instance that was never probed.  The three headers are the same in
    every case. *)
Theorem badge_reports_first_entry
    (QueryUnescape : string -> option string) (formatUptime : float -> string)
    (m : Monitor) (escaped : string) :
  registryValid m →
  let answer :=
    handleBadge QueryUnescape formatUptime m ("/api/badge/" +:+ escaped) in
  r_header answer = badgeHeader
  ∧ match QueryUnescape escaped with
    | None => r_status answer = 400 ∧ r_body answer = ""
    | Some u =>
        if decide (u ∈ registryURLs m)
        then r_status answer = 200
             ∧ ∃ j p inst,
                 registryURLs m !! j = Some u
                 ∧ (u ∉ take j (registryURLs m))
                 ∧ instances m !! j = Some p ∧ store m !! p = Some inst
                 ∧ r_body answer
                   = (if reportedUp (instanceData inst)
                      then generateBadge "status"
                             ("up "
                              +:+ formatUptime
                                    (InstanceData.Uptime (instanceData inst))
                              +:+ "%")
                             "#22c55e"
                      else generateBadge "status" "down" "#ef4444")
                 ∧ (Checks inst = [] →
                    r_body answer = generateBadge "status" "down" "#ef4444")
        else r_status answer = 404
             ∧ r_body answer = generateBadge "unknown" "not found" "#6b7280"
    end.
Proof.
  intros Hvalid answer. subst answer. unfold handleBadge.
  rewrite TrimPrefix_app.
  destruct (QueryUnescape escaped) as [u|]; [|by repeat split].
  pose proof (findByURL_spec (store m) u (instances m) Hvalid) as Hfind.
  cbv zeta in Hfind. fold (registryURLs m) in Hfind.
  destruct (decide (u ∈ registryURLs m)) as [Hin|Hout].
  - destruct Hfind as (j & p & inst & Hj & Hfirst & Hp & Hinst & ->).
    cbv beta iota zeta.
    assert (Hbody :
      r_body
        (let '(status, color) :=
           if lastSucceeded (Checks inst)
           then ("up " +:+ formatUptime (calculateUptime (Checks inst)) +:+ "%",
                 "#22c55e")
           else ("down", "#ef4444") in
         {| r_status := 200; r_header := badgeHeader;
            r_body := generateBadge "status" status color |})
      = (if reportedUp (instanceData inst)
         then generateBadge "status"
                ("up "
                 +:+ formatUptime (InstanceData.Uptime (instanceData inst))
                 +:+ "%")
                "#22c55e"
         else generateBadge "status" "down" "#ef4444")).
    { change (reportedUp (instanceData inst))
        with (lastSucceeded (Checks inst)).
      destruct (lastSucceeded (Checks inst)); reflexivity. }
    split; [by destruct (lastSucceeded (Checks inst))|].
    split; [by destruct (lastSucceeded (Checks inst))|].
    exists j, p, inst.
    split; [exact Hj|]. split; [exact Hfirst|]. split; [exact Hp|].
    split; [exact Hinst|]. split; [exact Hbody|].
    intros Hempty. rewrite Hempty. reflexivity.
  - rewrite Hfind. cbn [r_status r_header r_body]. by repeat split.
Qed.

Lemma badge_reports_first_entry_witness :
  r_header
    (handleBadge Some (fun _ => "0.0") Witness.pair "/api/badge/http://v")
  = badgeHeader
  ∧ r_status
      (handleBadge Some (fun _ => "0.0") Witness.pair "/api/badge/http://v")
    = 200.
Proof.
  destruct (badge_reports_first_entry Some (fun _ => "0.0") Witness.pair
              "http://v") as [Hheader Hrest].
  - intros p Hp. apply list_elem_of_In in Hp. simpl in *. lia.
  - split; [exact Hheader|]. cbv beta iota in Hrest.
    destruct (decide ("http://v" ∈ registryURLs Witness.pair)) as [_|Hout].
    + exact (proj1 Hrest).
    + exfalso. apply Hout. right. left.
Defined.

(** * Reconciliations: the occurrences of a URL *)








Lemma group_order_follows_walk_witness :
  length (instances (Samples.update Witness.pair Samples.mixed)) = 4%nat
  ∧ ∃ e0 e1 e2 e3,
      (∃ p, instances (Samples.update Witness.pair Samples.mixed) !! 0%nat
            = Some p
          ∧ store (Samples.update Witness.pair Samples.mixed) !! p = Some e0)
      ∧ (∃ p, instances (Samples.update Witness.pair Samples.mixed) !! 1%nat
              = Some p
            ∧ store (Samples.update Witness.pair Samples.mixed) !! p = Some e1)
      ∧ (∃ p, instances (Samples.update Witness.pair Samples.mixed) !! 2%nat
              = Some p
            ∧ store (Samples.update Witness.pair Samples.mixed) !! p = Some e2)
      ∧ (∃ p, instances (Samples.update Witness.pair Samples.mixed) !! 3%nat
              = Some p
            ∧ store (Samples.update Witness.pair Samples.mixed) !! p = Some e3)
      ∧ Group e0 = "beta" ∧ Group e1 = "beta"
      ∧ Group e2 = "alpha" ∧ Group e3 = "web"
      ∧ GroupOrder e0 = GroupOrder e1
      ∧ GroupOrder e1 < GroupOrder e2
      ∧ GroupOrder e2 < GroupOrder e3.
Proof.
  destruct (group_order_follows_walk Samples.Unmarshal Samples.rangeGroups
              Witness.pair (Samples.update Witness.pair Samples.mixed)
              (Examples.fetched Samples.mixed) eq_refl)
    as (body & data & Hresp & Hdata & Hlen & Hat & _ & Hmono & Hstep & Hsections & _).
  injection Hresp as <-. injection Hdata as <-.
  set (v0 := {| v_section := "api"; v_group := "beta"; v_order := 0;
                v_cors := true; v_url := "http://b" |}).
  set (v1 := {| v_section := "api"; v_group := "beta"; v_order := 0;
                v_cors := true; v_url := "http://c" |}).
  set (v2 := {| v_section := "api"; v_group := "alpha"; v_order := 1;
                v_cors := false; v_url := "http://a" |}).
  set (v3 := {| v_section := "ui"; v_group := "web"; v_order := 2;
                v_cors := false; v_url := "http://w" |}).
  destruct (Hat 0%nat v0 eq_refl) as (p0 & e0 & Hp0 & He0 & Ho0 & Hg0).
  destruct (Hat 1%nat v1 eq_refl) as (p1 & e1 & Hp1 & He1 & Ho1 & Hg1).
  destruct (Hat 2%nat v2 eq_refl) as (p2 & e2 & Hp2 & He2 & Ho2 & Hg2).
  destruct (Hat 3%nat v3 eq_refl) as (p3 & e3 & Hp3 & He3 & Ho3 & Hg3).
  pose proof (Hmono 0%nat 1%nat v0 v1 (le_S _ _ (le_n _)) eq_refl eq_refl) as Hle.
  pose proof (Hstep 0%nat v0 v1 eq_refl eq_refl) as Hsame.
  pose proof (Hstep 1%nat v1 v2 eq_refl eq_refl) as Hboundary.
  pose proof (Hsections 2%nat 3%nat v2 v3 eq_refl eq_refl eq_refl eq_refl)
    as Hui.
  split; [exact Hlen|].
  exists e0, e1, e2, e3.
  split; [exists p0; split; [exact Hp0 | exact He0]|].
  split; [exists p1; split; [exact Hp1 | exact He1]|].
  split; [exists p2; split; [exact Hp2 | exact He2]|].
  split; [exists p3; split; [exact Hp3 | exact He3]|].
  split; [exact Hg0|]. split; [exact Hg1|].
  split; [exact Hg2|]. split; [exact Hg3|].
  rewrite Ho0, Ho1, Ho2, Ho3.
  split; [|split; [|exact Hui]].
  - apply Z.le_antisymm; [exact Hle|]. apply Z.nlt_ge. intros Hlt.
    apply Hsame in Hlt. by apply Hlt.
  - apply Hboundary. intros Heq. discriminate Heq.
Defined.
